(** * IDAES process models: the PID controller block and the NTU condenser

    A shallow embedding of [idaes/dynamic/pid_controller.py], of
    [idaes/power_generation/unit_models/helm/condenser_ntu.py] and of
    [idaes/tests/test_import.py].

    - Time points are rationals in canonical form ([Qc]): every float is
      one, and a canonical rational is found in a Python dict by the same
      key whichever way it was written ([0] and [0.0]).
    - Values of variables, parameters and expressions are real numbers.
    - A Pyomo expression is represented by the value it takes as a function
      of the current values of the variables and parameters it mentions.
    - A Python exception is a [Raise] in the [result] type; rules that
      build expressions return [result Expr], so that an exception raised
      while a component is constructed aborts [build]. *)

From stdpp Require Import base option list sorting gmap strings numbers.
From Stdlib Require Import QArith Qcanon Qreals Reals Lra Lia.

Open Scope R_scope.

(** ** Exceptions and results *)

Inductive exn : Type :=
  | ConfigurationError (msg : string)
  | NameError (msg : string)
  | Exception (msg : string)
  | KeyError
  | IndexError
  | ValueError
  | AttributeError.

Inductive result (A : Type) : Type :=
  | Ok (a : A)
  | Raise (e : exn).
Arguments Ok {A} a.
Arguments Raise {A} e.

#[global] Instance result_ret : MRet result := fun A a => Ok a.
#[global] Instance result_bind : MBind result := fun A B f m =>
  match m with
  | Ok a => f a
  | Raise e => Raise e
  end.

(** The real number a time point stands for. *)
Definition time_R (t : Qc) : R := Q2R t.

(** Python's subtraction of two time points, [t - p], as the source
    computes the width of a time step.  Between ints it is the exact
    difference; between floats it is the difference rounded to a float
    ([1.1 - 0.1] is [1.0], not the difference of the two doubles).  The
    result is a number, hence a rational; what a statement needs of it
    beyond that, it assumes. *)
Class TimeArith : Type := { time_sub : Qc → Qc → Qc }.

(** ** Pyomo's ordered sets, as far as the two models use them

    The time set is an ordered Pyomo set; its members are listed in the
    set's order. *)
Module OrderedSet.

(** [s.first()]: the member at position 1; an empty set has none. *)
Definition first (s : list Qc) : result Qc :=
  match s with
  | [] => Raise IndexError
  | t :: _ => Ok t
  end.

(** [s.ord(t)]: the position of [t], counted from 1. *)
Fixpoint ord (s : list Qc) (t : Qc) : result nat :=
  match s with
  | [] => Raise ValueError
  | x :: s' => if decide (x = t) then Ok 1%nat else n ← ord s' t; Ok (S n)
  end.

(** [s.prev(t)]: the member one position before [t]; stepping before
    position 1 raises. *)
Definition prev (s : list Qc) (t : Qc) : result Qc :=
  pos ← ord s t;
  match pos with
  | S (S k) =>
      match s !! k with
      | Some p => Ok p
      | None => Raise IndexError
      end
  | _ => Raise IndexError
  end.

(** [v[k]] for a component [v] indexed by the set [s]. *)
Definition getitem {A} (s : list Qc) (v : Qc → A) (k : Qc) : result A :=
  if decide (k ∈ s) then Ok (v k) else Raise KeyError.

End OrderedSet.

(** An indexed component is constructed by running its rule at every
    member of the index set, in order; the first exception aborts. *)
Fixpoint construct {A} (rule : Qc → result A) (s : list Qc)
  : result (gmap Qc A) :=
  match s with
  | [] => Ok ∅
  | t :: s' => a ← rule t; m ← construct rule s'; Ok (<[t := a]> m)
  end.

(** A constraint [lhs == rhs] over the values [V] of a block. *)
Record Constraint (V : Type) : Type := { lhs : V → R; rhs : V → R }.
Arguments lhs {V} c v.
Arguments rhs {V} c v.

(** What a constraint rule returns: [Constraint.Skip] or an equation. *)
Inductive rule_result (V : Type) : Type :=
  | Skip
  | Con (c : Constraint V).
Arguments Skip {V}.
Arguments Con {V} c.

(** An indexed constraint keeps the members whose rule did not skip. *)
Fixpoint construct_constraint {V} (rule : Qc → result (rule_result V))
    (s : list Qc) : result (gmap Qc (Constraint V)) :=
  match s with
  | [] => Ok ∅
  | t :: s' =>
      r ← rule t;
      m ← construct_constraint rule s';
      Ok (match r with Skip => m | Con c => <[t := c]> m end)
  end.

(** ** The PID controller block *)
Module PID.

Module Config.
(** [CONFIG] of [PIDBlockData]; [pv] and [output] are the trajectories
    of the referenced variables, [None] when not supplied. *)
Record t : Type := {
  pv : option (Qc → R);
  output : option (Qc → R);
  upper : R;
  lower : R;
  calculate_initial_integral : bool
}.

Definition default : t := {|
  pv := None;
  output := None;
  upper := 1;
  lower := 0;
  calculate_initial_integral := true
|}.
End Config.

(** Current values of the block's own variables and mutable parameters. *)
Record Values : Type := {
  setpoint : Qc → R;
  gain : Qc → R;
  time_i : Qc → R;
  time_d : Qc → R;
  err_d0 : R;
  err_i0_var : R; (* the Var [err_i0], present when the option is off *)
  limits : string → R;
  smooth_eps : R
}.

Definition Expr : Type := Values → R.

(** Python's [sum] over a generator: the accumulator starts at 0 and the
    items are added from the left; an item that raises ends the sum. *)
Fixpoint sum_from (acc : Expr) (item : Qc → result Expr) (l : list Qc)
  : result Expr :=
  match l with
  | [] => Ok acc
  | t :: l' => e ← item t; sum_from (fun v => acc v + e v) item l'
  end.

Section Rules.
Context {arith : TimeArith}.
(** [smooth_max] and [smooth_min] of [idaes.core.util.math]. *)
Variables smooth_max smooth_min : R → R → R → R.
Variable time_set : list Qc.
Variables pv output : Qc → R.
Variable calculate_initial_integral : bool.
Variable t0 : Qc.

Definition err (t : Qc) : Expr := fun v => setpoint v t - pv t.
Definition pterm (t : Qc) : Expr := fun v => - pv t.
Definition dterm (t : Qc) : Expr := fun v => - pv t.
Definition iterm (t : Qc) : Expr := fun v => err t v.

Definition err_d (t : Qc) : result Expr :=
  if decide (t = t0) then Ok (fun v => err_d0 v)
  else
    p ← OrderedSet.prev time_set t;
    Ok (fun v => (dterm t v - dterm p v) / time_R (time_sub t p)).

(** The expression [err_i0], declared when the option is on. *)
Definition err_i0_expression : result Expr :=
  out_0 ← OrderedSet.getitem time_set output 0%Qc;
  d ← err_d t0;
  Ok (fun v =>
        time_i v t0
        * (out_0 - gain v t0 * pterm t0 v - gain v t0 * time_d v t0 * d v)
        / gain v t0).

(** [b.err_i0]: the expression, or else the fixed variable. *)
Definition err_i0 : result Expr :=
  if calculate_initial_integral then err_i0_expression
  else Ok (fun v => err_i0_var v).

(** One term of the sum in [err_i]. *)
Definition err_i_term (t : Qc) : result Expr :=
  p ← OrderedSet.prev time_set t;
  Ok (fun v => (iterm t v + iterm p v) * time_R (time_sub t p) / 2).

Definition err_i (t_end : Qc) : result Expr :=
  e0 ← err_i0;
  s ← sum_from (fun _ => 0) err_i_term
        (filter (fun t => (t ≤ t_end)%Qc ∧ (t0 < t)%Qc) time_set);
  Ok (fun v => e0 v + s v).

Definition unconstrained_output (t : Qc) : result Expr :=
  ei ← err_i t;
  ed ← err_d t;
  Ok (fun v => gain v t * (pterm t v + 1 / time_i v t * ei v
                           + time_d v t * ed v)).

Definition output_constraint (t : Qc) : result (rule_result Values) :=
  if decide (t = t0) then Ok Skip
  else
    u ← unconstrained_output t;
    Ok (Con {| lhs := fun _ => output t;
               rhs := fun v =>
                 smooth_min
                   (smooth_max (u v) (limits v "l") (smooth_eps v))
                   (limits v "h") (smooth_eps v) |}).
End Rules.

(** The components of a built block.  The [_init] fields are the values
    the parameters and fixed variables are initialised to. *)
Record PIDBlock : Type := {
  blk_t0 : Qc;
  blk_err_d0_init : R;
  blk_err_i0_init : option R;
  blk_limits_init : gmap string R;
  blk_smooth_eps_init : R;
  blk_err_d : gmap Qc Expr;
  blk_err_i0 : Expr;
  blk_err_i : gmap Qc Expr;
  blk_unconstrained_output : gmap Qc Expr;
  blk_output_constraint : gmap Qc (Constraint Values)
}.

Section Build.
Context {arith : TimeArith}.
Variables smooth_max smooth_min : R → R → R → R.

(** [build]: the required references are checked, then every component
    is constructed in the order of the source. *)
Definition build (config : Config.t) (time_set : list Qc)
  : result PIDBlock :=
  match Config.pv config with
  | None =>
      Raise (ConfigurationError "Controller configuration requires 'pv'")
  | Some pv =>
  match Config.output config with
  | None =>
      Raise (ConfigurationError "Controller configuration requires 'output'")
  | Some output =>
    let calc := Config.calculate_initial_integral config in
    t0 ← OrderedSet.first time_set;
    ed ← construct (err_d time_set pv t0) time_set;
    ei0 ← err_i0 time_set pv output calc t0;
    ei ← construct (err_i time_set pv output calc t0) time_set;
    uo ← construct (unconstrained_output time_set pv output calc t0)
           time_set;
    oc ← construct_constraint
           (output_constraint smooth_max smooth_min time_set pv output
              calc t0) time_set;
    Ok {| blk_t0 := t0;
          blk_err_d0_init := 0;
          blk_err_i0_init := if calc then None else Some 0;
          blk_limits_init :=
            {[ "l" := Config.lower config; "h" := Config.upper config ]};
          blk_smooth_eps_init := 1 / 10000;
          blk_err_d := ed;
          blk_err_i0 := ei0;
          blk_err_i := ei;
          blk_unconstrained_output := uo;
          blk_output_constraint := oc |}
  end
  end.
End Build.

(** The trapezoidal rule in the spec's words: the sum, over the
    consecutive pairs of the points [p :: l], of the mean of [f] on the
    pair times the width of the pair, [t - p] as Python computes it. *)
Fixpoint trapezoid_sum {arith : TimeArith} (f : Qc → R) (p : Qc) (l : list Qc)
  : R :=
  match l with
  | [] => 0
  | t :: l' =>
      (f t + f p) * time_R (time_sub t p) / 2 + trapezoid_sum f t l'
  end.

(** Sample inputs. *)
Module Examples.
(** Time points whose differences are computed without rounding, as for
    ints and for floats on a grid of halves or quarters. *)
Definition exact_steps : TimeArith := {| time_sub := Qcminus |}.

(** The limits the smoothed functions tend to as [eps] tends to 0. *)
Definition sharp_max : R → R → R → R := fun x y _ => Rmax x y.
Definition sharp_min : R → R → R → R := fun x y _ => Rmin x y.

Definition unit_values : Values := {|
  setpoint := fun _ => 0;
  gain := fun _ => 1;
  time_i := fun _ => 1;
  time_d := fun _ => 0;
  err_d0 := 0;
  err_i0_var := 0;
  limits := fun k => if decide (k = "l") then 0 else 1;
  smooth_eps := 1 / 10000
|}.

(** A controller at rest. *)
Definition config_rest : Config.t := {|
  Config.pv := Some (fun _ => 0);
  Config.output := Some (fun _ => 0);
  Config.upper := 1;
  Config.lower := 0;
  Config.calculate_initial_integral := true
|}.

(** An output that is 1 until it drops to 0 at time 0, for a run that
    starts before time 0. *)
Definition output_drop (t : Qc) : R := if decide (t = 0%Qc) then 0 else 1.

Definition config_drop : Config.t := {|
  Config.pv := Some (fun _ => 0);
  Config.output := Some output_drop;
  Config.upper := 1;
  Config.lower := 0;
  Config.calculate_initial_integral := true
|}.

(** Limits given the wrong way round. *)
Definition config_inverted : Config.t := {|
  Config.pv := Some (fun _ => 0);
  Config.output := Some (fun _ => 0);
  Config.upper := 0;
  Config.lower := 1;
  Config.calculate_initial_integral := true
|}.
End Examples.

End PID.

(** ** The NTU condenser *)
Module Condenser.

(** A Python object that the condenser only hands on to the framework (a
    configuration value, the metadata of a property package, a unit),
    known by its [repr]. *)
Definition PyObject : Type := string.

(** The two control volumes that [build] makes: the local variables
    [hot_side] and [cold_side] of the source. *)
Inductive control_volume : Type := hot_volume | cold_volume.

(** The attributes [self.side_1] and [self.side_2], as [initialize] and
    [set_initial_condition] reach the control volumes.  Which control
    volume each of them is depends on the configured names, see
    [build_volume_names]. *)
Inductive side : Type := side_1 | side_2.

(** The configuration: the two names, the two per-side configuration
    blocks, and every key of the config with its value, the declared ones
    and the ones given on top ([CONFIG] is implicit). *)
Record Config : Type := {
  hot_side_name : string;
  cold_side_name : string;
  hot_side_config : PyObject;
  cold_side_config : PyObject;
  options : list (string * PyObject)
}.

(** *** The names under which [build] reaches the control volumes *)

(** Modelled from the spec: [_make_heater_control_volume], of
    [idaes.generic_models.unit_models.heater], is not among the sources;
    it attaches the control volume it makes to the block under the
    configured name (the name "sets control volume and inlet and outlet
    names"). *)
Definition _make_heater_control_volume (name : string) (vol : control_volume)
    (attrs : gmap string control_volume) : gmap string control_volume :=
  <[name := vol]> attrs.

(** Modelled from the spec: [add_object_reference], of
    [idaes.core.util.misc], is not among the sources; it makes [name] one
    more name of the object. *)
Definition add_object_reference (name : string) (vol : control_volume)
    (attrs : gmap string control_volume) : gmap string control_volume :=
  <[name := vol]> attrs.

Definition hasattr (attrs : gmap string control_volume) (name : string) : bool :=
  bool_decide (is_Some (attrs !! name)).

(** The attributes of the block that name a control volume, after the
    part of [build] that adds the control volumes and the references to
    them.  Attributes of other kinds play no part: none of them is called
    side_1, side_2, hot_side or cold_side. *)
Definition build_volume_names (config : Config) : gmap string control_volume :=
  let a := _make_heater_control_volume (hot_side_name config) hot_volume ∅ in
  let a := _make_heater_control_volume (cold_side_name config) cold_volume a in
  let a := if hasattr a "side_1" then a
           else add_object_reference "side_1" hot_volume a in
  let a := if hasattr a "side_2" then a
           else add_object_reference "side_2" cold_volume a in
  let a := if hasattr a "hot_side" then a
           else add_object_reference "hot_side" hot_volume a in
  if hasattr a "cold_side" then a
  else add_object_reference "cold_side" cold_volume a.

(** The name of the component that the attribute [name] reaches: a
    control volume is called by its configured name, whatever further
    names refer to it. *)
Definition component_name (config : Config) (name : string) : string :=
  match build_volume_names config !! name with
  | Some hot_volume => hot_side_name config
  | Some cold_volume => cold_side_name config
  | None => name
  end.

(** *** What the framework makes

    A state block has the properties that its property package defines:
    scalar ones, and ones indexed by phase.  A control volume has a state
    block at each time point of its inlet and of its outlet, and a heat
    term indexed by time if it has heat transfer. *)
Record StateObj : Type := {
  state_attributes : gset string;
  state_phase_attributes : gmap string (gset string)
}.

Record VolumeObj : Type := {
  obj_properties_in : gmap Qc StateObj;
  obj_properties_out : gmap Qc StateObj;
  obj_heat : option (gset Qc)
}.

(** The ports: [i1], [i2], [o1] and [o2] of the source. *)
Inductive port : Type := i1 | i2 | o1 | o2.

(** The framework calls that [build] and [_process_config] make.  Each of
    them returns or raises; none of them is among the sources.
    - [super_build]: [UnitModelBlockData.build].
    - [set_value current value]: [current.set_value(value)] on a per-side
      configuration block; the result is the block as updated.
    - [config_setattr config name value]: [setattr(config, name, value)].
    - [get_metadata]: [config.property_package.get_metadata()].
    - [get_derived_units]: [units_meta.get_derived_units(key)].
    - [make_control_volume name side_config config time]: the control
      volume that [_make_heater_control_volume] makes.
    - [add_inlet_port], [add_outlet_port]: the port made under the given
      name for the control volume given as its block. *)
Class Framework : Type := {
  super_build : Config → result unit;
  set_value : PyObject → PyObject → result PyObject;
  config_setattr : Config → string → PyObject → result unit;
  get_metadata : Config → result PyObject;
  get_derived_units : PyObject → string → result PyObject;
  make_control_volume :
    string → PyObject → Config → list Qc → result VolumeObj;
  add_inlet_port : string → control_volume → result unit;
  add_outlet_port : string → control_volume → result unit
}.

(** *** [_process_config] *)

(** [config[name]], for a [name] that is [in config]. *)
Fixpoint config_getitem (options : list (string * PyObject)) (name : string)
  : option PyObject :=
  match options with
  | [] => None
  | (k, v) :: options' =>
      if decide (k = name) then Some v else config_getitem options' name
  end.

Section ProcessConfig.
Context {framework : Framework}.

(** The loop over the keys of the config: the first key that is neither
    declared in [CONFIG] nor one of the two side names raises. *)
Fixpoint check_options (declared : list string) (config : Config)
    (keys : list string) : result unit :=
  match keys with
  | [] => Ok ()
  | o :: keys' =>
      if bool_decide
           (o ∈ declared
            ∨ o ∈ [hot_side_name config; cold_side_name config])
      then check_options declared config keys'
      else Raise KeyError
  end.

(** A side's configuration given under the side's name: it is set as
    the value of the side's configuration block, which is then also
    reached under that name. *)
Definition take_side_config (config : Config) (name : string)
    (current : PyObject) : result PyObject :=
  match config_getitem (options config) name with
  | Some value =>
      c ← set_value current value;
      _ ← config_setattr config name c;
      Ok c
  | None => Ok current
  end.

(** [_process_config]; [declared] are the option names of the class
    [CONFIG].  The result is the configuration with the per-side blocks
    as they are afterwards. *)
Definition _process_config (declared : list string) (config : Config)
  : result Config :=
  if decide (hot_side_name config = cold_side_name config)
  then Raise (NameError "Condenser hot and cold side cannot have the same name")
  else
    _ ← check_options declared config (options config).*1;
    hot ← take_side_config config (hot_side_name config)
            (hot_side_config config);
    cold ← take_side_config config (cold_side_name config)
             (cold_side_config config);
    Ok {| hot_side_name := hot_side_name config;
          cold_side_name := cold_side_name config;
          hot_side_config := hot;
          cold_side_config := cold;
          options := options config |}.
End ProcessConfig.

(** *** Values and expressions *)

(** The thermodynamic state of a stream at one time point, as far as the
    condenser reads it. *)
Record StateBlock : Type := {
  temperature : R;
  temperature_sat : R;
  flow_mol : R;
  pressure : R;
  enth_mol : R;
  cp_mol_phase_Liq : R;
  enth_mol_sat_phase_Liq : R
}.

Record ControlVolume : Type := {
  properties_in : Qc → StateBlock;
  properties_out : Qc → StateBlock;
  heat : Qc → R
}.

(** Current values of everything the condenser's equations mention. *)
Record Values : Type := {
  overall_heat_transfer_coefficient : Qc → R;
  area : R;
  volume : control_volume → ControlVolume
}.

Definition Expr : Type := Values → R.

(** *** The rules

    The block while its components are constructed: the names that
    reach a control volume, and the two control volumes as the framework
    made them. *)
Record Self : Type := {
  self_names : gmap string control_volume;
  self_volume : control_volume → VolumeObj
}.

(** [c[t]] on a component of the block that is indexed by time. *)
Definition component_getitem {A} (c : gmap Qc A) (t : Qc) : result A :=
  match c !! t with
  | Some a => Ok a
  | None => Raise KeyError
  end.

Section Rules.
Variable self : Self.

(** [self.<name>] *)
Definition getattr_volume (name : string) : result control_volume :=
  match self_names self !! name with
  | Some cv => Ok cv
  | None => Raise AttributeError
  end.

(** [self.<name>.heat[t]] *)
Definition heat_of (name : string) (t : Qc) : result Expr :=
  cv ← getattr_volume name;
  match obj_heat (self_volume self cv) with
  | None => Raise AttributeError
  | Some index =>
      if decide (t ∈ index) then Ok (fun v => heat (volume v cv) t)
      else Raise KeyError
  end.

(** [self.<name>.properties_in[t]] or [self.<name>.properties_out[t]]:
    the control volume and the state block found. *)
Definition state_of (name : string) (inlet : bool) (t : Qc)
  : result (control_volume * StateObj) :=
  cv ← getattr_volume name;
  match (if inlet then obj_properties_in (self_volume self cv)
         else obj_properties_out (self_volume self cv)) !! t with
  | Some sb => Ok (cv, sb)
  | None => Raise KeyError
  end.

(** The values of the state block that [state_of] finds. *)
Definition state_values (cv : control_volume) (inlet : bool) (t : Qc)
    (v : Values) : StateBlock :=
  if inlet then properties_in (volume v cv) t
  else properties_out (volume v cv) t.

(** A scalar property of a state block, [....<attr>]; [field] is where
    its value is kept. *)
Definition property_of (name : string) (inlet : bool) (t : Qc)
    (attr : string) (field : StateBlock → R) : result Expr :=
  s ← state_of name inlet t;
  if decide (attr ∈ state_attributes s.2)
  then Ok (fun v => field (state_values s.1 inlet t v))
  else Raise AttributeError.

(** A property indexed by phase, [....<attr>[phase]]. *)
Definition phase_property_of (name : string) (inlet : bool) (t : Qc)
    (attr phase : string) (field : StateBlock → R) : result Expr :=
  s ← state_of name inlet t;
  match state_phase_attributes s.2 !! attr with
  | None => Raise AttributeError
  | Some phases =>
      if decide (phase ∈ phases)
      then Ok (fun v => field (state_values s.1 inlet t v))
      else Raise KeyError
  end.

Definition unit_heat_balance (t : Qc) : result (rule_result Values) :=
  h1 ← heat_of "side_1" t;
  h2 ← heat_of "side_2" t;
  Ok (Con {| lhs := fun _ => 0; rhs := fun v => h1 v + h2 v |}).

Definition delta_temperature_in (t : Qc) : result Expr :=
  T1 ← property_of "side_1" true t "temperature" temperature;
  T2 ← property_of "side_2" true t "temperature" temperature;
  Ok (fun v => T1 v - T2 v).

Definition delta_temperature_out (t : Qc) : result Expr :=
  T1 ← property_of "side_1" false t "temperature" temperature;
  T2 ← property_of "side_2" false t "temperature" temperature;
  Ok (fun v => T1 v - T2 v).

Definition delta_temperature_ntu (t : Qc) : result Expr :=
  T1 ← property_of "side_1" true t "temperature_sat" temperature_sat;
  T2 ← property_of "side_2" true t "temperature" temperature;
  Ok (fun v => T1 v - T2 v).

Definition mcp_min (t : Qc) : result Expr :=
  F ← property_of "side_2" true t "flow_mol" flow_mol;
  cp ← phase_property_of "side_2" true t "cp_mol_phase" "Liq"
         cp_mol_phase_Liq;
  Ok (fun v => F v * cp v).

(** [b.overall_heat_transfer_coefficient] is indexed by the time set
    that the rule runs over, and [b.area] is a scalar: neither lookup can
    fail. *)
Definition ntu (b_mcp_min : gmap Qc Expr) (t : Qc) : result Expr :=
  m ← component_getitem b_mcp_min t;
  Ok (fun v => overall_heat_transfer_coefficient v t * area v / m v).

Definition effectiveness (b_ntu : gmap Qc Expr) (t : Qc) : result Expr :=
  n ← component_getitem b_ntu t;
  Ok (fun v => 1 - exp (- n v)).

Definition heat_transfer (b_effectiveness b_mcp_min : gmap Qc Expr)
    (t : Qc) : result Expr :=
  eff ← component_getitem b_effectiveness t;
  m ← component_getitem b_mcp_min t;
  T1 ← property_of "side_1" true t "temperature_sat" temperature_sat;
  T2 ← property_of "side_2" true t "temperature" temperature;
  Ok (fun v => eff v * m v * (T1 v - T2 v)).

Definition heat_transfer_equation (b_heat_transfer : gmap Qc Expr)
    (t : Qc) : result (rule_result Values) :=
  h2 ← heat_of "side_2" t;
  ht ← component_getitem b_heat_transfer t;
  Ok (Con {| lhs := fun v => h2 v; rhs := fun v => ht v |}).

Definition saturation_eqn (t : Qc) : result (rule_result Values) :=
  h ← property_of "side_1" false t "enth_mol" enth_mol;
  hsat ← phase_property_of "side_1" true t "enth_mol_sat_phase" "Liq"
           enth_mol_sat_phase_Liq;
  Ok (Con {| lhs := fun v => h v; rhs := fun v => hsat v |}).
End Rules.

(** A control volume that has what the rules read over the time points
    [time]: a heat term and state blocks at every time point, with the
    properties of a Helmholtz property package that the rules use. *)
Definition complete_state (sb : StateObj) : Prop :=
  (∀ a, a ∈ ["temperature"; "temperature_sat"; "flow_mol"; "enth_mol"] →
        a ∈ state_attributes sb)
  ∧ (∀ a, a ∈ ["cp_mol_phase"; "enth_mol_sat_phase"] →
          ∃ phases, state_phase_attributes sb !! a = Some phases
                    ∧ "Liq" ∈ phases).

Definition complete_volume (time : list Qc) (o : VolumeObj) : Prop :=
  (∃ index, obj_heat o = Some index ∧ ∀ t, t ∈ time → t ∈ index)
  ∧ (∀ t, t ∈ time →
          ∃ sb, obj_properties_in o !! t = Some sb ∧ complete_state sb)
  ∧ (∀ t, t ∈ time →
          ∃ sb, obj_properties_out o !! t = Some sb ∧ complete_state sb).

(** *** The ports and their names *)

(** [hasattr(self, name)] once the ports are there: a control volume or
    a port is found under the name. *)
Definition hasattr_port (volumes : gmap string control_volume)
    (ports : gmap string port) (name : string) : bool :=
  bool_decide (is_Some (volumes !! name) ∨ is_Some (ports !! name)).

(** The attributes of the block that name a port, after the four ports
    were added under the names made from the side names, and the
    references to them under each name that was still free. *)
Definition build_port_names (config : Config) : gmap string port :=
  let volumes := build_volume_names config in
  let reference name p a :=
    if hasattr_port volumes a name then a else <[name := p]> a in
  let a := <[hot_side_name config +:+ "_inlet" := i1]> ∅ in
  let a := <[cold_side_name config +:+ "_inlet" := i2]> a in
  let a := <[hot_side_name config +:+ "_outlet" := o1]> a in
  let a := <[cold_side_name config +:+ "_outlet" := o2]> a in
  let a := reference "inlet_1" i1 a in
  let a := reference "inlet_2" i2 a in
  let a := reference "outlet_1" o1 a in
  let a := reference "outlet_2" o2 a in
  let a := reference "hot_inlet" i1 a in
  let a := reference "cold_inlet" i2 a in
  let a := reference "hot_outlet" o1 a in
  reference "cold_outlet" o2 a.

(** *** [build] *)

(** A variable as [pyo.Var] declares it: in the positive reals, with the
    value it is initialised to and its units. *)
Record VarDecl : Type := {
  var_initialize : R;
  var_units : PyObject
}.

(** A built condenser. *)
Record CondenserBlock : Type := {
  blk_config : Config;
  blk_overall_heat_transfer_coefficient : gmap Qc VarDecl;
  blk_area : VarDecl;
  blk_names : gmap string control_volume;
  blk_volume : control_volume → VolumeObj;
  blk_port_names : gmap string port;
  blk_unit_heat_balance : gmap Qc (Constraint Values);
  blk_delta_temperature_in : gmap Qc Expr;
  blk_delta_temperature_out : gmap Qc Expr;
  blk_delta_temperature_ntu : gmap Qc Expr;
  blk_mcp_min : gmap Qc Expr;
  blk_ntu : gmap Qc Expr;
  blk_effectiveness : gmap Qc Expr;
  blk_heat_transfer : gmap Qc Expr;
  blk_heat_transfer_equation : gmap Qc (Constraint Values);
  blk_saturation_eqn : gmap Qc (Constraint Values)
}.

Section Build.
Context {framework : Framework}.

(** [build], in the order of the source; [time] is
    [self.flowsheet().config.time].  A framework call that raises ends
    it, and so does a rule that raises while its component is
    constructed. *)
Definition build (declared : list string) (config : Config)
    (time : list Qc) : result CondenserBlock :=
  _ ← super_build config;
  config ← _process_config declared config;
  units_meta ← get_metadata config;
  U_units ← get_derived_units units_meta "heat_trasnfer_coefficient";
  A_units ← get_derived_units units_meta "area";
  hot_side ← make_control_volume (hot_side_name config)
               (hot_side_config config) config time;
  cold_side ← make_control_volume (cold_side_name config)
                (cold_side_config config) config time;
  let self :=
    {| self_names := build_volume_names config;
       self_volume := fun cv =>
         match cv with hot_volume => hot_side | cold_volume => cold_side end
    |} in
  s ← getattr_volume self "side_1";
  _ ← add_inlet_port (hot_side_name config +:+ "_inlet") s;
  s ← getattr_volume self "side_2";
  _ ← add_inlet_port (cold_side_name config +:+ "_inlet") s;
  s ← getattr_volume self "side_1";
  _ ← add_outlet_port (hot_side_name config +:+ "_outlet") s;
  s ← getattr_volume self "side_2";
  _ ← add_outlet_port (cold_side_name config +:+ "_outlet") s;
  uhb ← construct_constraint (unit_heat_balance self) time;
  dTin ← construct (delta_temperature_in self) time;
  dTout ← construct (delta_temperature_out self) time;
  dTntu ← construct (delta_temperature_ntu self) time;
  mcp ← construct (mcp_min self) time;
  n ← construct (ntu mcp) time;
  eff ← construct (effectiveness n) time;
  ht ← construct (heat_transfer self eff mcp) time;
  hte ← construct_constraint (heat_transfer_equation self ht) time;
  sat ← construct_constraint (saturation_eqn self) time;
  Ok {| blk_config := config;
        blk_overall_heat_transfer_coefficient :=
          list_to_map
            ((fun t => (t, {| var_initialize := 100; var_units := U_units |}))
             <$> time);
        blk_area := {| var_initialize := 1000; var_units := A_units |};
        blk_names := self_names self;
        blk_volume := self_volume self;
        blk_port_names := build_port_names config;
        blk_unit_heat_balance := uhb;
        blk_delta_temperature_in := dTin;
        blk_delta_temperature_out := dTout;
        blk_delta_temperature_ntu := dTntu;
        blk_mcp_min := mcp;
        blk_ntu := n;
        blk_effectiveness := eff;
        blk_heat_transfer := ht;
        blk_heat_transfer_equation := hte;
        blk_saturation_eqn := sat |}.
End Build.

(** *** The state [initialize] works on

    A block is a store of components found by name and index: every
    variable holds a value and a fixed flag, every constraint an active
    flag.  A scalar component has index [None]. *)
Definition key : Type := string * option Qc.

Record VarData : Type := { value : R; fixed : bool }.

Record Block : Type := {
  vars : gmap key VarData;
  cons : gmap key bool
}.

(** The result of [opt.solve]. *)
Inductive TerminationCondition : Type :=
  | optimal
  | infeasible
  | maxIterations
  | other (condition : string).

(** Calls that leave the condenser's own code, in the order made; for a
    control volume's method, the attribute through which it was
    called. *)
Inductive event : Type :=
  | to_json_call
  | cv_initialize_call (s : side)
  | solve_call (model : Block)
  | release_state_call (s : side)
  | from_json_call.

Record World : Type := {
  block : Block;
  calls : list event
}.

(** State and exceptions: a raise leaves the mutations made so far. *)
Definition M (A : Type) : Type := World → result A * World.

#[global] Instance M_ret : MRet M := fun A a w => (Ok a, w).
#[global] Instance M_bind : MBind M := fun A B f m w =>
  match m w with
  | (Ok a, w') => f a w'
  | (Raise e, w') => (Raise e, w')
  end.

Definition raise {A} (e : exn) : M A := fun w => (Raise e, w).
Definition log (e : event) : M unit := fun w =>
  (Ok (), {| block := block w; calls := calls w ++ [e] |}).
Definition get_block : M Block := fun w => (Ok (block w), w).
Definition put_block (b : Block) : M unit := fun w =>
  (Ok (), {| block := b; calls := calls w |}).

(** The variable [blk.<name>.properties_in[t].<attr>], a variable of the
    control volume that [name] reaches. *)
Definition properties_in_var (config : Config) (name : string) (t : Qc)
    (attr : string) : key :=
  (component_name config name +:+ ".properties_in." +:+ attr, Some t).

(** [x.unfix()] for the variable named [k]; looking up a missing index
    raises. *)
Definition Var_unfix (k : key) : M unit := fun w =>
  match vars (block w) !! k with
  | Some d =>
      (Ok (),
       {| block :=
            {| vars := <[k := {| value := value d; fixed := false |}]>
                         (vars (block w));
               cons := cons (block w) |};
          calls := calls w |})
  | None => (Raise KeyError, w)
  end.

(** [c.activate()] for the indexed constraint named [name]: every member
    becomes active. *)
Definition Constraint_activate (name : string) : M unit := fun w =>
  (Ok (),
   {| block :=
        {| vars := vars (block w);
           cons := map_imap
                     (fun k a => Some (if decide (k.1 = name) then true else a))
                     (cons (block w)) |};
      calls := calls w |}).

(** Modelled from the spec: [to_json] with the store specification
    [StoreSpec.value_isfixed_isactive(only_fixed=True)], of
    [idaes.core.util], which is not among the sources.  The snapshot
    captures, by component name, every variable's value and fixed flag
    and every constraint's active flag. *)
Record Snapshot : Type := {
  saved_vars : gmap key VarData;
  saved_cons : gmap key bool
}.

Definition to_json (b : Block) : Snapshot :=
  {| saved_vars := vars b; saved_cons := cons b |}.

(** Modelled from the spec: [from_json] with the same specification.  It
    restores fixed/free variables, active/inactive constraints and the
    values of the variables that were fixed; a component the snapshot
    does not name is left as it is. *)
Definition from_json (sd : Snapshot) (b : Block) : Block :=
  {| vars := map_imap
               (fun k d =>
                  Some match saved_vars sd !! k with
                       | Some s =>
                           {| value := if fixed s then value s else value d;
                              fixed := fixed s |}
                       | None => d
                       end)
               (vars b);
     cons := map_imap
               (fun k a => Some (default a (saved_cons sd !! k)))
               (cons b) |}.

Section Initialize.
(** The control volumes' own [initialize] and [release_state], reached
    as [blk.side_1] and [blk.side_2], and the solver made by
    [SolverFactory(solver)] with options [optarg].  They change the block
    and return; the solver reports how it ended.  A collaborator that
    raises is not modelled. *)
Variables StateArgs Flags : Type.
Variable cv_initialize : side → option StateArgs → Block → Flags * Block.
Variable cv_release_state : side → Flags → Block → Block.
Variable opt_solve : Block → Block * TerminationCondition.

Definition call_cv_initialize (s : side) (state_args : option StateArgs)
  : M Flags := fun w =>
  let (flags, b) := cv_initialize s state_args (block w) in
  (Ok flags, {| block := b; calls := calls w ++ [cv_initialize_call s] |}).

Definition call_release_state (s : side) (flags : Flags) : M unit :=
  fun w =>
  (Ok (), {| block := cv_release_state s flags (block w);
             calls := calls w ++ [release_state_call s] |}).

Definition call_solve : M TerminationCondition := fun w =>
  let (b, res) := opt_solve (block w) in
  (Ok res, {| block := b; calls := calls w ++ [solve_call (block w)] |}).

Definition call_to_json : M Snapshot :=
  b ← get_block; _ ← log to_json_call; mret (to_json b).

Definition call_from_json (sd : Snapshot) : M unit :=
  b ← get_block; _ ← log from_json_call; put_block (from_json sd b).

(** [initialize] of a condenser built with [config]. *)
Definition initialize (config : Config)
    (state_args_1 state_args_2 : option StateArgs)
    (unfix : string) : M unit :=
  if decide (unfix ∉ ["hot_flow"; "cold_flow"; "pressure"])
  then raise (Exception
    "Condenser free variable must be in 'hot_flow', 'cold_flow', or 'pressure'")
  else
    istate ← call_to_json;
    flags1 ← call_cv_initialize side_1 state_args_1;
    flags2 ← call_cv_initialize side_2 state_args_2;
    _ ← Constraint_activate "saturation_eqn";
    _ ← (if decide (unfix = "pressure")
         then Var_unfix (properties_in_var config "hot_side" 0%Qc "pressure")
         else if decide (unfix = "hot_flow")
         then Var_unfix (properties_in_var config "hot_side" 0%Qc "flow_mol")
         else if decide (unfix = "cold_flow")
         then Var_unfix (properties_in_var config "cold_side" 0%Qc "flow_mol")
         else mret ());
    res ← call_solve;
    _ ← call_release_state side_1 flags1;
    _ ← call_release_state side_2 flags2;
    call_from_json istate.
End Initialize.

(** The variable that the argument [unfix] selects, at time [t]: the hot
    inlet pressure, the hot inlet flow or the cold inlet flow, of the
    control volumes reached as [hot_side] and [cold_side]. *)
Definition selected_var (config : Config) (unfix : string) (t : Qc) : key :=
  if decide (unfix = "pressure")
  then properties_in_var config "hot_side" t "pressure"
  else if decide (unfix = "hot_flow")
  then properties_in_var config "hot_side" t "flow_mol"
  else properties_in_var config "cold_side" t "flow_mol".

(** The model handed to the solver: the block [b] left by the control
    volumes' initialisation, with the saturation constraint active and the
    variable [k], which holds [d], unfixed. *)
Definition solver_model (b : Block) (k : key) (d : VarData) : Block :=
  {| vars := <[k := {| value := value d; fixed := false |}]> (vars b);
     cons := map_imap
               (fun k a =>
                  Some (if decide (k.1 = "saturation_eqn") then true else a))
               (cons b) |}.

(** Two blocks have the same components: the same variables and the same
    constraints, whatever their values and flags. *)
Definition same_components (b b' : Block) : Prop :=
  dom (vars b') = dom (vars b) ∧ dom (cons b') = dom (cons b).

(** Sample inputs. *)
Module Examples.
Definition config : Config := {|
  hot_side_name := "shell";
  cold_side_name := "tube";
  hot_side_config := "{}";
  cold_side_config := "{}";
  options := [("dynamic", "False"); ("has_holdup", "False");
              ("shell", "{'property_package': steam}");
              ("tube", "{'property_package': water}")]
|}.

(** The cold side takes the name that [build] wants for its reference to
    the hot side. *)
Definition config_collide : Config := {|
  hot_side_name := "shell";
  cold_side_name := "side_1";
  hot_side_config := "{}";
  cold_side_config := "{}";
  options := [("dynamic", "False"); ("has_holdup", "False")]
|}.

Definition declared : list string :=
  ["dynamic"; "has_holdup"; "property_package"; "hot_side_name";
   "cold_side_name"; "hot_side_config"; "cold_side_config"].

(** A state block of a Helmholtz property package, and a control volume
    with heat transfer over the time points [time]. *)
Definition helmholtz_state : StateObj := {|
  state_attributes :=
    {[ "temperature"; "temperature_sat"; "flow_mol"; "pressure";
       "enth_mol" ]};
  state_phase_attributes :=
    {[ "cp_mol_phase" := {[ "Liq"; "Vap" ]};
       "enth_mol_sat_phase" := {[ "Liq"; "Vap" ]} ]}
|}.

Definition heater_volume (time : list Qc) : VolumeObj := {|
  obj_properties_in := list_to_map ((fun t => (t, helmholtz_state)) <$> time);
  obj_properties_out := list_to_map ((fun t => (t, helmholtz_state)) <$> time);
  obj_heat := Some (list_to_set time)
|}.

(** A framework in which every call returns. *)
Definition framework : Framework := {|
  super_build := fun _ => Ok ();
  set_value := fun _ value => Ok value;
  config_setattr := fun _ _ _ => Ok ();
  get_metadata := fun _ => Ok "metadata";
  get_derived_units := fun _ key => Ok key;
  make_control_volume := fun _ _ _ time => Ok (heater_volume time);
  add_inlet_port := fun _ _ => Ok ();
  add_outlet_port := fun _ _ => Ok ()
|}.

Definition water : StateBlock := {|
  temperature := 300;
  temperature_sat := 373;
  flow_mol := 1;
  pressure := 101325;
  enth_mol := 0;
  cp_mol_phase_Liq := 1;
  enth_mol_sat_phase_Liq := 0
|}.

Definition stream : ControlVolume := {|
  properties_in := fun _ => water;
  properties_out := fun _ => water;
  heat := fun _ => 0
|}.

(** [ntu] is 1 at every time point. *)
Definition values : Values := {|
  overall_heat_transfer_coefficient := fun _ => 1;
  area := 1;
  volume := fun _ => stream
|}.

(** The hot side gives up one unit of heat, the cold side takes it up. *)
Definition values_exchange : Values := {|
  overall_heat_transfer_coefficient := fun _ => 1;
  area := 1;
  volume := fun cv =>
    {| properties_in := fun _ => water;
       properties_out := fun _ => water;
       heat := fun _ =>
         match cv with hot_volume => - (1) | cold_volume => 1 end |}
|}.

(** A condenser over the times 0 and 1 whose hot inlet flow is fixed at
    time 0 and free at time 1, and whose saturation constraint is
    inactive. *)
Definition block_0 : Block := {|
  vars := {[ properties_in_var config "hot_side" 0%Qc "flow_mol"
               := {| value := 1; fixed := true |};
             properties_in_var config "hot_side" 1%Qc "flow_mol"
               := {| value := 1; fixed := false |} ]};
  cons := {[ ("saturation_eqn", Some 0%Qc) := false;
             ("saturation_eqn", Some 1%Qc) := false ]}
|}.

Definition world_0 : World := {| block := block_0; calls := [] |}.

(** Control volumes that hold the state: initialisation fixes every
    variable and returns the flags the variables had; releasing gives
    the flags back. *)
Definition cv_initialize_hold (s : side) (a : option unit) (b : Block)
  : gmap key bool * Block :=
  (fixed <$> vars b,
   {| vars := (fun d => {| value := value d; fixed := true |}) <$> vars b;
      cons := cons b |}).

Definition cv_release_state_hold (s : side) (flags : gmap key bool)
    (b : Block) : Block :=
  {| vars := map_imap
               (fun k d =>
                  Some {| value := value d;
                          fixed := default (fixed d) (flags !! k) |})
               (vars b);
     cons := cons b |}.

(** A solver that moves every free variable to 2 and reports that it ran
    out of iterations. *)
Definition solve_gives_up (b : Block) : Block * TerminationCondition :=
  ({| vars := (fun d => if fixed d then d
                        else {| value := 2; fixed := false |}) <$> vars b;
      cons := cons b |},
   maxIterations).
End Examples.

End Condenser.

(** ** More of the condenser: initial conditions, scaling *)

(** The values [v] satisfy the constraint [c]. *)
Definition holds {V} (c : Constraint V) (v : V) : Prop := lhs c v = rhs c v.

Module CondenserMore.
Import Condenser.

(** *** [set_initial_condition] *)

(** The accumulation terms of one control volume: material by time,
    phase and component, energy by time and phase. *)
Record Holdup : Type := {
  material_accumulation : gmap (Qc * string * string) VarData;
  energy_accumulation : gmap (Qc * string) VarData
}.

(** [x[slice].value = a]: every member the slice selects gets the value. *)
Definition slice_set_value {K} `{Countable K} (selected : K → bool) (a : R)
    (x : gmap K VarData) : gmap K VarData :=
  map_imap
    (fun k d =>
       Some (if selected k then {| value := a; fixed := fixed d |} else d))
    x.

(** [x[slice].fix(a)]: every member the slice selects gets the value and
    is fixed. *)
Definition slice_fix {K} `{Countable K} (selected : K → bool) (a : R)
    (x : gmap K VarData) : gmap K VarData :=
  map_imap
    (fun k d =>
       Some (if selected k then {| value := a; fixed := true |} else d))
    x.

Definition set_initial_condition_of (h : Holdup) : Holdup :=
  let ma := slice_set_value (fun _ => true) 0 (material_accumulation h) in
  let ea := slice_set_value (fun _ => true) 0 (energy_accumulation h) in
  let ma := slice_fix (fun k => bool_decide (k.1.1 = 0%Qc)) 0 ma in
  let ea := slice_fix (fun k => bool_decide (k.1 = 0%Qc)) 0 ea in
  {| material_accumulation := ma; energy_accumulation := ea |}.

(** [set_initial_condition]: [dynamic] is whether [config.dynamic is
    True]; [holdup s] are the accumulation terms of the control volume
    reached as [self.side_1] or [self.side_2]. *)
Definition set_initial_condition (dynamic : bool) (holdup : side → Holdup)
  : side → Holdup :=
  if dynamic then fun s => set_initial_condition_of (holdup s) else holdup.

(** *** [calculate_scaling_factors]: the defaults *)

(** A component as [_fill_miss_with_default] sees it: the component
    itself and its members [c.values()] (a scalar component is its own
    only member). *)
Record Component : Type := {
  component : key;
  values : list key
}.

Section Scaling.
(** The store of scaling factors with [iscale.get_scaling_factor] and
    [iscale.set_scaling_factor], of [idaes.core.util.scaling]. *)
Variable Store : Type.
Variable get_scaling_factor : Store → key → option R.
Variable set_scaling_factor : Store → key → R → Store.

(** [c] is what [getattr(self, name)] gives, [None] when it raises
    [AttributeError]. *)
Definition _fill_miss_with_default (c : option Component) (s : R)
    (st : Store) : Store :=
  match c with
  | None => st
  | Some c =>
      match get_scaling_factor st (component c) with
      | Some _ => st
      | None =>
          foldl
            (fun st ci =>
               match get_scaling_factor st ci with
               | None => set_scaling_factor st ci s
               | Some _ => st
               end)
            st (values c)
      end
  end.

(** The two calls that set defaults where scale factors are missing. *)
Definition fill_defaults (area overall_heat_transfer_coefficient
    : option Component) (st : Store) : Store :=
  let area_sf_default := 1 / 100 in
  let overall_heat_transfer_coefficient_sf_default := 1 / 100 in
  let st := _fill_miss_with_default area area_sf_default st in
  _fill_miss_with_default overall_heat_transfer_coefficient
    overall_heat_transfer_coefficient_sf_default st.
End Scaling.

(** Sample inputs. *)
Module Examples.
Definition holdup (s : side) : Holdup := {|
  material_accumulation :=
    {[ (0%Qc, "Liq", "H2O") := {| value := 5; fixed := false |};
       (1%Qc, "Liq", "H2O") := {| value := 7; fixed := false |} ]};
  energy_accumulation :=
    {[ (0%Qc, "Liq") := {| value := 3; fixed := false |};
       (1%Qc, "Liq") := {| value := 4; fixed := true |} ]}
|}.

(** Values at which the cold side takes up what the hot side gives. *)
Definition balanced_values : Values := {|
  overall_heat_transfer_coefficient := fun _ => 1;
  area := 1;
  volume := fun cv =>
    {| properties_in := fun _ => Condenser.Examples.water;
       properties_out := fun _ => Condenser.Examples.water;
       heat := fun _ =>
         match cv with
         | hot_volume => - ((1 - exp (- (1))) * 73)
         | cold_volume => (1 - exp (- (1))) * 73
         end |}
|}.

Definition area_component : Component :=
  {| component := ("area", None); values := [("area", None)] |}.

Definition U_component : Component :=
  {| component := ("overall_heat_transfer_coefficient", None);
     values := [("overall_heat_transfer_coefficient", Some 0%Qc);
                ("overall_heat_transfer_coefficient", Some 1%Qc)] |}.

(** A store where only the coefficient at time 1 has a factor. *)
Definition factors : gmap key R :=
  {[ ("overall_heat_transfer_coefficient", Some 1%Qc) := 5 ]}.

(** A solver that moves the free variables as [solve_gives_up] does, and
    reports success. *)
Definition solve_claims_success (b : Block) : Block * TerminationCondition :=
  ((Condenser.Examples.solve_gives_up b).1, optimal).

(** A condenser over the times 1 and 2: there is no time 0. *)
Definition late_block : Block := {|
  vars := {[ properties_in_var Condenser.Examples.config "hot_side" 1%Qc
               "flow_mol"
               := {| value := 1; fixed := true |};
             properties_in_var Condenser.Examples.config "hot_side" 2%Qc
               "flow_mol"
               := {| value := 1; fixed := false |} ]};
  cons := {[ ("saturation_eqn", Some 1%Qc) := false;
             ("saturation_eqn", Some 2%Qc) := false ]}
|}.

Definition late_world : World := {| block := late_block; calls := [] |}.
End Examples.

End CondenserMore.

(** Sample values for the PID block: the setpoint rises with time, with
    gain 2, integral time 10 and derivative time 1. *)
Module PIDSamples.
Import PID.
Definition ramp_values : Values := {|
  setpoint := fun t => time_R t;
  gain := fun _ => 2;
  time_i := fun _ => 10;
  time_d := fun _ => 1;
  err_d0 := 0;
  err_i0_var := 0;
  limits := fun k => if decide (k = "l") then 0 else 1;
  smooth_eps := 1 / 10000
|}.

(** The same, but for a setpoint that jumps to 5 after time 0. *)
Definition jump_values : Values := {|
  setpoint := fun t => if decide (t = 0%Qc) then 0 else 5;
  gain := fun _ => 2;
  time_i := fun _ => 10;
  time_d := fun _ => 1;
  err_d0 := 0;
  err_i0_var := 0;
  limits := fun k => if decide (k = "l") then 0 else 1;
  smooth_eps := 1 / 10000
|}.
End PIDSamples.

(** ** The import test: [idaes/tests/test_import.py] *)
Module TestImport.
Import Stdlib.Strings.Ascii.

(** *** Regular expressions and [re.match]

    The part of Python's [re] that the pattern of [good_modname] uses:
    character classes, concatenation and repetition.  [Nothing],
    [Epsilon] and [Alt] arise when a pattern is matched. *)
Inductive regex : Type :=
  | Nothing
  | Epsilon
  | Chars (p : Ascii.ascii → bool)
  | Seq (r1 r2 : regex)
  | Alt (r1 r2 : regex)
  | Star (r : regex).

(** The pattern matches the empty string. *)
Fixpoint nullable (r : regex) : bool :=
  match r with
  | Nothing => false
  | Epsilon => true
  | Chars _ => false
  | Seq r1 r2 => nullable r1 && nullable r2
  | Alt r1 r2 => nullable r1 || nullable r2
  | Star _ => true
  end.

(** What is left to match after the character [c]. *)
Fixpoint deriv (c : Ascii.ascii) (r : regex) : regex :=
  match r with
  | Nothing => Nothing
  | Epsilon => Nothing
  | Chars p => if p c then Epsilon else Nothing
  | Seq r1 r2 =>
      if nullable r1
      then Alt (Seq (deriv c r1) r2) (deriv c r2)
      else Seq (deriv c r1) r2
  | Alt r1 r2 => Alt (deriv c r1) (deriv c r2)
  | Star r => Seq (deriv c r) (Star r)
  end.

(** [r.match(s)] is not [None]: the pattern matches at the start of [s],
    that is, it matches some prefix of [s]. *)
Fixpoint re_match (r : regex) (s : string) : bool :=
  nullable r
  || match s with
     | EmptyString => false
     | String c s' => re_match (deriv c r) s'
     end.

(** The character classes [a-z], [A-Z], [0-9] and [_]. *)
Definition in_range (lo hi c : Ascii.ascii) : bool :=
  Nat.leb (Ascii.nat_of_ascii lo) (Ascii.nat_of_ascii c)
  && Nat.leb (Ascii.nat_of_ascii c) (Ascii.nat_of_ascii hi).

Definition letter (c : Ascii.ascii) : bool :=
  in_range "a"%char "z"%char c || in_range "A"%char "Z"%char c.

Definition word_char (c : Ascii.ascii) : bool :=
  in_range "a"%char "z"%char c || in_range "A"%char "Z"%char c
  || in_range "0"%char "9"%char c
  || Ascii.eqb c "_"%char.

(** [re.compile(r"[a-zA-Z][a-zA-Z0-9_]*")] *)
Definition good_modname : regex := Seq (Chars letter) (Star (Chars word_char)).

(** The string starts with one of the letters a to z and A to Z. *)
Definition starts_with_letter (s : string) : Prop :=
  ∃ c s', s = String c s' ∧ letter c = true.

(** *** Paths

    A path is the list of its parts, [path.parts].  A string is a
    sequence of 8-bit characters: names are taken to be ASCII. *)

(** [parts[:-1]] *)
Definition parts_init (parts : list string) : list string :=
  take (length parts - 1) parts.

(** [parts[-1]]; the paths that [rglob] yields name a file, so there is a
    last part. *)
Definition parts_last (parts : list string) : string :=
  default "" (list.last parts).

(** [s[:-3]] *)
Definition strip3 (s : string) : string :=
  String.substring 0 (String.length s - 3) s.

(** [name.rfind(".")] *)
Fixpoint rfind_dot (name : string) : option nat :=
  match name with
  | EmptyString => None
  | String c name' =>
      match rfind_dot name' with
      | Some i => Some (S i)
      | None => if Ascii.eqb c "."%char then Some 0%nat else None
      end
  end.

(** [pathlib]'s [suffix] of a file name: from the last dot on, unless
    that dot is the first or the last character. *)
Definition suffix (name : string) : string :=
  match rfind_dot name with
  | Some i =>
      if Nat.ltb 0 i && Nat.ltb i (String.length name - 1)
      then String.substring i (String.length name - i) name
      else ""
  | None => ""
  end.

(** [with_suffix("")] on the file name. *)
Definition with_suffix_empty (name : string) : string :=
  String.substring 0 (String.length name - String.length (suffix name)) name.

(** The dotted name under which the file at [path] is imported:
    [path.relative_to(base).with_suffix("")], its parts joined by dots.
    [base] is a prefix of [path]. *)
Definition module_name (base path : list string) : string :=
  let rel := drop (length base) path in
  String.concat "." (parts_init rel ++ [with_suffix_empty (parts_last rel)]).

(** *** [importr] *)

Inductive status : Type := SKIP | OK | BAD.

(** One line that [print_path_status] prints. *)
Record line : Type := {
  line_path : list string;
  line_status : status;
  line_msg : string
}.

(** What [importlib.import_module] does: it returns after [sec] seconds,
    raises [ImportError] with a message, or raises something else. *)
Inductive import_result : Type :=
  | Imported (sec : Qc)
  | ImportError (msg : string)
  | OtherError (e : exn).

Section Importr.
(** The interpreter: its state (the modules loaded so far, the clock) and
    the import of a module by name, with the time it took as
    [time.time()] measured it.  [format_sec] renders [{sec:.1f}] and
    [sep] is [os.path.sep]. *)
Variable Interp : Type.
Variable import_module : string → Interp → import_result * Interp.
Variable format_sec : Qc → string.
Variable sep : string.

(** The interpreter and the lines printed so far. *)
Record Run : Type := {
  interp : Interp;
  printed : list line
}.

Definition print_path_status (path : list string) (st : status)
    (msg : string) (w : Run) : Run :=
  {| interp := interp w;
     printed := printed w
                ++ [{| line_path := path; line_status := st;
                       line_msg := msg |}] |}.

(** The loop over the directory names of a path, left at the first bad
    name. *)
Fixpoint bad_directory (names : list string) : bool :=
  match names with
  | [] => false
  | name :: names =>
      if negb (String.eqb name sep) && negb (re_match good_modname name)
      then true
      else bad_directory names
  end.

(** The value of [bad] when the path is skipped or imported. *)
Definition is_bad (path : list string) : bool :=
  bad_directory (parts_init path)
  || negb (re_match good_modname (strip3 (parts_last path))).

(** The number of paths that are not skipped. *)
Definition visited (paths : list (list string)) : nat :=
  length (filter (fun p => is_bad p = false) paths).

(** The loop of [importr] over the paths still to visit, with [failures]
    and [total] as they stand. *)
Fixpoint importr_loop (base : list string) (max_sec : Qc)
    (paths : list (list string)) (failures : gmap string string)
    (total : nat) (w : Run) : result (gmap string string * nat) * Run :=
  match paths with
  | [] => (Ok (failures, total), w)
  | path :: paths =>
      if is_bad path
      then importr_loop base max_sec paths failures total
             (print_path_status path SKIP "" w)
      else
        match import_module (module_name base path) (interp w) with
        | (Imported sec, i) =>
            let w := {| interp := i; printed := printed w |} in
            if Qclt_le_dec max_sec sec
            then
              let w := print_path_status path BAD "time={sec:3.1f}s" w in
              let e := "Import took too long (" +:+ format_sec sec +:+ "s)" in
              importr_loop base max_sec paths
                (<[module_name base path := e]> failures) (S total)
                (print_path_status path BAD "import error" w)
            else
              importr_loop base max_sec paths failures (S total)
                (print_path_status path OK "" w)
        | (ImportError e, i) =>
            let w := {| interp := i; printed := printed w |} in
            importr_loop base max_sec paths
              (<[module_name base path := e]> failures) (S total)
              (print_path_status path BAD "import error" w)
        | (OtherError e, i) =>
            (Raise e, {| interp := i; printed := printed w |})
        end
  end.

(** [importr(root, max_sec)]: [root] has the parts [base ++ [name]], so
    that [root.parent] has the parts [base]; [files] are the paths of the
    files that [root.rglob("*.py")] finds, relative to [root]. *)
Definition importr (base : list string) (name : string)
    (files : list (list string)) (max_sec : Qc) (w : Run)
  : result (gmap string string * nat) * Run :=
  importr_loop base max_sec ((fun f => base ++ name :: f) <$> files) ∅ 0%nat w.

(** How a test ends. *)
Inductive outcome : Type :=
  | Passed
  | AssertionError (n total : nat) (failures : gmap string string)
  | Errored (e : exn).

(** [test_import], with the place of the package [idaes] and the files
    below it. *)
Definition test_import (base : list string) (name : string)
    (files : list (list string)) (w : Run) : outcome * Run :=
  match importr base name files (Q2Qc 10) w with
  | (Ok (failures, total), w) =>
      let n := size failures in
      (if decide (n = 0%nat) then Passed
       else AssertionError n total failures, w)
  | (Raise e, w) => (Errored e, w)
  end.
End Importr.

(** Sample inputs. *)
Module Examples.
(** An interpreter that counts the imports made; the module
    [idaes.core.broken] fails to import and [idaes.core.slow] takes 12
    seconds. *)
Definition import_module (name : string) (n : nat) : import_result * nat :=
  (if decide (name = "idaes.core.broken")
   then ImportError "No module named 'missing'"
   else if decide (name = "idaes.core.slow") then Imported (Q2Qc 12)
   else Imported 1%Qc,
   S n).

Definition format_sec (sec : Qc) : string := "12.0".

Definition start : Run nat := {| interp := 0%nat; printed := [] |}.

Definition files : list (list string) :=
  [["__init__.py"]; ["ver.py"]; ["core"; "unit.py"];
   ["core"; ".ipynb_checkpoints"; "unit-checkpoint.py"]].

Definition files_broken : list (list string) :=
  files ++ [["core"; "broken.py"]].

Definition files_slow : list (list string) :=
  files ++ [["core"; "slow.py"]].

(** Where the package is: below a directory whose name starts with a
    letter, or below one that does not. *)
Definition base : list string := ["/"; "usr"; "lib"; "python3.8"].

Definition hidden_base : list string :=
  ["/"; "home"; "user"; ".local"; "lib"; "python3.8"].
End Examples.

End TestImport.

(** * Properties *)

(** ** Results *)

Lemma bind_Ok {A B} (m : result A) (f : A → result B) (b : B) :
  (m ≫= f) = Ok b ↔ ∃ a, m = Ok a ∧ f a = Ok b.
Proof.
  destruct m as [a|e]; simpl; split.
  - intros H. exists a. auto.
  - intros (a' & Ha & Hb). congruence.
  - intros H. discriminate H.
  - intros (a' & Ha & _). discriminate Ha.
Qed.

(** ** Ordered sets *)
Section OrderedSetFacts.
Import OrderedSet.

Lemma ord_middle (pre post : list Qc) (t : Qc) :
  t ∉ pre → ord (pre ++ t :: post) t = Ok (S (length pre)).
Proof.
  induction pre as [|x pre IH]; intros Hnot; simpl.
  - destruct (decide (t = t)); [reflexivity | congruence].
  - apply not_elem_of_cons in Hnot as [Hne Hnot].
    destruct (decide (x = t)) as [->|_]; [congruence|].
    rewrite IH by assumption. reflexivity.
Qed.

Lemma prev_middle (pre post : list Qc) (p t : Qc) :
  t ∉ pre → t ≠ p → prev (pre ++ p :: t :: post) t = Ok p.
Proof.
  intros Hnot Hne. unfold prev.
  replace (pre ++ p :: t :: post) with ((pre ++ [p]) ++ t :: post)
    by (rewrite <- app_assoc; reflexivity).
  rewrite ord_middle.
  - simpl. rewrite length_app. simpl.
    replace (length pre + 1)%nat with (S (length pre)) by lia.
    rewrite <- app_assoc. simpl.
    rewrite list_lookup_middle by reflexivity. reflexivity.
  - intros [Hin|Hin%list_elem_of_singleton]%elem_of_app; contradiction.
Qed.

Lemma ord_Ok (l : list Qc) (t : Qc) :
  t ∈ l → ∃ n, ord l t = Ok (S n) ∧ (n < length l)%nat.
Proof.
  induction l as [|x l IH]; intros Hin.
  - apply elem_of_nil in Hin. contradiction.
  - simpl. destruct (decide (x = t)) as [->|Hne].
    + exists 0%nat. split; [reflexivity | lia].
    + apply elem_of_cons in Hin as [->|Hin]; [congruence|].
      destruct (IH Hin) as (n & Hn & Hlt).
      exists (S n). rewrite Hn. split; [reflexivity | lia].
Qed.

(** Every member but the first has a previous member. *)
Lemma prev_Ok (t0 t : Qc) (rest : list Qc) :
  t ∈ t0 :: rest → t ≠ t0 → ∃ p, prev (t0 :: rest) t = Ok p.
Proof.
  intros Hin Hne.
  apply elem_of_cons in Hin as [->|Hin]; [congruence|].
  destruct (ord_Ok rest t Hin) as (n & Hn & Hlt).
  unfold prev. simpl.
  rewrite decide_False by congruence. rewrite Hn. simpl.
  destruct ((t0 :: rest) !! n) as [p|] eqn:Hp.
  - exists p. reflexivity.
  - apply lookup_ge_None in Hp. simpl in Hp. lia.
Qed.

Lemma prev_first (t : Qc) (rest : list Qc) :
  prev (t :: rest) t = Raise IndexError.
Proof.
  unfold prev. simpl. destruct (decide (t = t)); [reflexivity | congruence].
Qed.

Lemma Qclt_irrefl (x : Qc) : ¬ (x < x)%Qc.
Proof. intros H. apply Qclt_not_le in H. apply H, Qcle_refl. Qed.

Lemma sorted_middle (pre post : list Qc) (p t : Qc) :
  StronglySorted Qclt (pre ++ p :: t :: post) →
  (t ∉ pre) ∧ (t ≠ p) ∧ (p < t)%Qc.
Proof.
  intros Hs. split; [|split].
  - intros Hin.
    apply (Qclt_irrefl t).
    apply (StronglySorted_app_1_elem_of _ _ _ t t Hs Hin).
    apply elem_of_cons. right. apply elem_of_cons. left. reflexivity.
  - intros ->.
    apply StronglySorted_app_1_r, StronglySorted_cons in Hs as [Hall _].
    apply list.Forall_cons in Hall as [Hlt _]. exact (Qclt_irrefl _ Hlt).
  - apply StronglySorted_app_1_r, StronglySorted_cons in Hs as [Hall _].
    apply list.Forall_cons in Hall as [Hlt _]. exact Hlt.
Qed.

Lemma sorted_prev (pre post : list Qc) (p t : Qc) :
  StronglySorted Qclt (pre ++ p :: t :: post) →
  prev (pre ++ p :: t :: post) t = Ok p.
Proof.
  intros (Hnot & Hne & _)%sorted_middle. apply prev_middle; assumption.
Qed.

Example prev_of_third :
  prev [0%Qc; Q2Qc (1 # 2); 1%Qc] 1%Qc = Ok (Q2Qc (1 # 2)).
Proof. reflexivity. Qed.

Example prev_of_stranger :
  prev [0%Qc; 1%Qc] (Q2Qc (1 # 2)) = Raise ValueError.
Proof. reflexivity. Qed.

Example getitem_by_value :
  getitem [Q2Qc (0 # 5); 1%Qc] (fun t => t) 0%Qc = Ok 0%Qc.
Proof. reflexivity. Qed.

(** In a strictly increasing set every member but the first has a
    predecessor, and it is the member listed just before it. *)
Lemma sorted_split (t0 t : Qc) (rest : list Qc) :
  t ∈ rest →
  ∃ pre p post, t0 :: rest = pre ++ p :: t :: post.
Proof.
  intros (a & b & ->)%list_elem_of_split.
  destruct (decide (a = [])) as [->|Hne].
  - exists [], t0, b. reflexivity.
  - destruct (exists_last Hne) as (a' & p & ->).
    exists (t0 :: a'), p, b. simpl. rewrite <- app_assoc. reflexivity.
Qed.
End OrderedSetFacts.

(** ** Indexed components *)
Section ConstructFacts.
Context {A : Type} (rule : Qc → result A).

Lemma construct_Ok (s : list Qc) :
  (∀ t, t ∈ s → ∃ a, rule t = Ok a) → ∃ m, construct rule s = Ok m.
Proof.
  induction s as [|x s IH]; intros Hall; simpl.
  - eexists. reflexivity.
  - destruct (Hall x) as [a Ha]; [left|].
    destruct IH as [m Hm].
    { intros t Ht. apply Hall. right. exact Ht. }
    rewrite Ha, Hm. simpl. eexists. reflexivity.
Qed.

Lemma construct_lookup (s : list Qc) (m : gmap Qc A) (t : Qc) :
  construct rule s = Ok m → t ∈ s → ∃ a, rule t = Ok a ∧ m !! t = Some a.
Proof.
  revert m. induction s as [|x s IH]; intros m Hm Hin.
  - apply elem_of_nil in Hin. contradiction.
  - simpl in Hm.
    apply bind_Ok in Hm as (a & Ha & Hm).
    apply bind_Ok in Hm as (m' & Hm' & Hm).
    injection Hm as <-.
    destruct (decide (x = t)) as [->|Hne].
    + exists a. split; [exact Ha | apply lookup_insert_eq].
    + apply elem_of_cons in Hin as [->|Hin]; [congruence|].
      destruct (IH m' Hm' Hin) as (a' & Ha' & Hl).
      exists a'. split; [exact Ha'|].
      rewrite lookup_insert_ne by exact Hne. exact Hl.
Qed.

End ConstructFacts.

Section ConstructConstraintFacts.
Context {V : Type} (rule : Qc → result (rule_result V)).

Lemma construct_constraint_Ok (s : list Qc) :
  (∀ t, t ∈ s → ∃ r, rule t = Ok r) →
  ∃ m, construct_constraint rule s = Ok m.
Proof.
  induction s as [|x s IH]; intros Hall; simpl.
  - eexists. reflexivity.
  - destruct (Hall x) as [r Hr]; [left|].
    destruct IH as [m Hm].
    { intros t Ht. apply Hall. right. exact Ht. }
    rewrite Hr, Hm. simpl. eexists. reflexivity.
Qed.

(** The constructed constraint has exactly the members whose rule
    returned an equation. *)
Lemma construct_constraint_lookup (s : list Qc)
    (m : gmap Qc (Constraint V)) (t : Qc) :
  construct_constraint rule s = Ok m →
  m !! t = if decide (t ∈ s)
           then match rule t with Ok (Con c) => Some c | _ => None end
           else None.
Proof.
  revert m. induction s as [|x s IH]; intros m Hm; simpl in Hm.
  - injection Hm as <-. rewrite lookup_empty.
    destruct (decide (t ∈ [])) as [Hin|_]; [|reflexivity].
    apply elem_of_nil in Hin. contradiction.
  - apply bind_Ok in Hm as (r & Hr & Hm).
    apply bind_Ok in Hm as (m' & Hm' & Hm).
    injection Hm as <-.
    specialize (IH m' Hm').
    destruct (decide (x = t)) as [->|Hne].
    + rewrite decide_True by left. rewrite Hr.
      destruct r as [|c].
      * rewrite IH. destruct (decide (t ∈ s)); [rewrite Hr|]; reflexivity.
      * apply lookup_insert_eq.
    + assert (Hl : (match r with Skip => m' | Con c => <[x:=c]> m' end) !! t
                   = m' !! t).
      { destruct r; [reflexivity|]. apply lookup_insert_ne. exact Hne. }
      rewrite Hl, IH.
      destruct (decide (t ∈ s)) as [Hin|Hnot].
      * rewrite decide_True by (right; exact Hin). reflexivity.
      * rewrite decide_False; [reflexivity|].
        intros [->|Hin]%elem_of_cons; [congruence | contradiction].
Qed.
Lemma construct_constraint_rule_Ok (s : list Qc)
    (m : gmap Qc (Constraint V)) (t : Qc) :
  construct_constraint rule s = Ok m → t ∈ s → ∃ r, rule t = Ok r.
Proof.
  revert m. induction s as [|x s IH]; intros m Hm Hin.
  - apply elem_of_nil in Hin. contradiction.
  - simpl in Hm.
    apply bind_Ok in Hm as (r & Hr & Hm).
    apply bind_Ok in Hm as (m' & Hm' & _).
    apply elem_of_cons in Hin as [->|Hin]; [eauto|].
    exact (IH m' Hm' Hin).
Qed.
End ConstructConstraintFacts.

(** ** The PID control law on a strictly increasing time set *)
Module PIDFacts.
Import OrderedSet PID.

Lemma sum_from_snoc (item : Qc → result Expr) (l : list Qc) (t : Qc) :
  ∀ acc, sum_from acc item (l ++ [t])
         = s ← sum_from acc item l; e ← item t; Ok (fun v => s v + e v).
Proof.
  induction l as [|x l IH]; intros acc; simpl.
  - destruct (item t); reflexivity.
  - destruct (item x) as [e|]; simpl; [apply IH | reflexivity].
Qed.

(** The points the sum in [err_i] ranges over. *)
Lemma filter_none (t0 t_end : Qc) (l : list Qc) :
  Forall (Qclt t_end) l →
  filter (fun t => (t ≤ t_end)%Qc ∧ (t0 < t)%Qc) l = [].
Proof.
  induction 1 as [|x l Hx _ IH]; [reflexivity|].
  rewrite filter_cons_False; [exact IH|].
  intros [Hle _]. exact (Qclt_not_le _ _ Hx Hle).
Qed.

Lemma filter_after (t0 t_end : Qc) (l : list Qc) :
  ∀ (p : Qc) (k : nat),
    StronglySorted Qclt (p :: l) → (t0 ≤ p)%Qc →
    (p :: l) !! k = Some t_end →
    filter (fun t => (t ≤ t_end)%Qc ∧ (t0 < t)%Qc) l = take k l.
Proof.
  induction l as [|x l IH]; intros p k Hs Hp Hk.
  - rewrite take_nil. reflexivity.
  - apply StronglySorted_cons in Hs as [Hall Hs].
    pose proof Hall as [Hpx _]%list.Forall_cons.
    destruct k as [|k]; simpl in Hk.
    + injection Hk as <-. apply filter_none. exact Hall.
    + assert (Hx : (x ≤ t_end)%Qc).
      { destruct k as [|k]; simpl in Hk.
        - injection Hk as <-. apply Qcle_refl.
        - apply StronglySorted_cons in Hs as [Hallx _].
          apply Qclt_le_weak.
          apply (proj1 (list.Forall_forall _ _) Hallx).
          apply list_elem_of_lookup. exists k. exact Hk. }
      assert (Ht0 : (t0 < x)%Qc) by (eapply Qcle_lt_trans; eassumption).
      rewrite filter_cons_True by (split; assumption).
      rewrite (IH x k Hs (Qclt_le_weak _ _ Ht0) Hk). reflexivity.
Qed.

Lemma time_R_minus (t p : Qc) : time_R (t - p) = time_R t - time_R p.
Proof.
  unfold time_R. rewrite <- Q2R_minus. apply Qeq_eqR.
  unfold Qcminus, Qcplus, Qcopp. simpl.
  rewrite !Qred_correct. reflexivity.
Qed.

Lemma time_R_Q2Qc (q : Q) : time_R (Q2Qc q) = Q2R q.
Proof. unfold time_R. apply Qeq_eqR. simpl. apply Qred_correct. Qed.

Lemma trapezoid_sum_snoc {arith : TimeArith} (f : Qc → R) (l : list Qc) (t : Qc) :
  ∀ p0, trapezoid_sum f p0 (l ++ [t])
        = trapezoid_sum f p0 l
          + (f t + f (default p0 (list.last l)))
            * time_R (time_sub t (default p0 (list.last l))) / 2.
Proof.
  induction l as [|x l IH]; intros p0; simpl.
  - lra.
  - rewrite IH.
    replace (default p0 (list.last (x :: l))) with (default x (list.last l))
      by (rewrite last_cons; destruct (list.last l); reflexivity).
    lra.
Qed.

Lemma last_take (t0 p : Qc) (rest : list Qc) (k : nat) :
  (t0 :: rest) !! k = Some p → default t0 (list.last (take k rest)) = p.
Proof.
  destruct k as [|k]; simpl; intros Hk.
  - congruence.
  - rewrite (take_S_r _ _ _ Hk), last_snoc. reflexivity.
Qed.

Section Law.
Context {arith : TimeArith}.
Variables pv output : Qc → R.
Variable calc : bool.
Variable time_set : list Qc.

(** Every term of the sum is defined, and the left-to-right sum is the
    trapezoidal sum over consecutive pairs. *)
Lemma sum_from_sorted (l : list Qc) :
  StronglySorted Qclt time_set →
  ∀ (pre : list Qc) (p : Qc) (post : list Qc) (acc : Expr),
    time_set = pre ++ p :: l ++ post →
    ∃ e, sum_from acc (err_i_term time_set pv) l = Ok e
         ∧ ∀ v, e v = acc v + trapezoid_sum (fun t => iterm pv t v) p l.
Proof.
  intros time_sorted.
  induction l as [|x l IH]; intros pre p post acc Hts; simpl in *.
  - exists acc. split; [reflexivity | intros v; lra].
  - assert (Hprev : prev time_set x = Ok p).
    { rewrite Hts. apply sorted_prev. rewrite <- Hts. exact time_sorted. }
    assert (Hterm : err_i_term time_set pv x
                    = Ok (fun v => (iterm pv x v + iterm pv p v)
                                   * time_R (time_sub x p) / 2)).
    { unfold err_i_term. rewrite Hprev. reflexivity. }
    rewrite Hterm. simpl.
    destruct (IH (pre ++ [p]) x post
                (fun v => acc v
                          + (iterm pv x v + iterm pv p v)
                            * time_R (time_sub x p) / 2))
      as (e & He & Hv).
    { rewrite Hts, <- app_assoc. reflexivity. }
    exists e. split; [exact He|].
    intros v. rewrite Hv. lra.
Qed.

Lemma err_d_first (t0 : Qc) :
  err_d time_set pv t0 t0 = Ok (fun v => err_d0 v).
Proof.
  unfold err_d. destruct (decide (t0 = t0)); [reflexivity | congruence].
Qed.

Lemma err_d_Ok (t0 t : Qc) (rest : list Qc) :
  time_set = t0 :: rest → t ∈ time_set →
  ∃ e, err_d time_set pv t0 t = Ok e.
Proof.
  intros Hts Hin. unfold err_d.
  destruct (decide (t = t0)) as [_|Hne]; [eexists; reflexivity|].
  rewrite Hts in *.
  destruct (prev_Ok t0 t rest Hin Hne) as [p Hprev].
  rewrite Hprev. simpl. eexists. reflexivity.
Qed.

(** [err_i0] is defined when it is a variable, and when it is an
    expression as soon as the time set has the point 0. *)
Lemma err_i0_Ok (t0 : Qc) :
  (calc = true → 0%Qc ∈ time_set) →
  ∃ e0, err_i0 time_set pv output calc t0 = Ok e0.
Proof.
  intros H0. unfold err_i0. destruct calc; [|eexists; reflexivity].
  unfold err_i0_expression, getitem.
  rewrite decide_True by (apply H0; reflexivity).
  simpl. rewrite err_d_first. simpl. eexists. reflexivity.
Qed.

Lemma sum_from_Ok (item : Qc → result Expr) (l : list Qc) :
  (∀ t, t ∈ l → ∃ e, item t = Ok e) →
  ∀ acc, ∃ e, sum_from acc item l = Ok e.
Proof.
  induction l as [|x l IH]; intros Hall acc; simpl.
  - exists acc. reflexivity.
  - destruct (Hall x) as [e He]; [left|].
    rewrite He. simpl. apply IH.
    intros t Ht. apply Hall. right. exact Ht.
Qed.

(** [err_i] is defined at every time point as soon as [err_i0] is. *)
Lemma err_i_Ok (t0 t_end : Qc) (rest : list Qc) (e0 : Expr) :
  time_set = t0 :: rest →
  err_i0 time_set pv output calc t0 = Ok e0 →
  ∃ e, err_i time_set pv output calc t0 t_end = Ok e.
Proof.
  intros Hts He0. unfold err_i. rewrite He0. simpl.
  destruct (sum_from_Ok (err_i_term time_set pv)
              (filter (fun t => (t ≤ t_end)%Qc ∧ (t0 < t)%Qc) time_set))
    with (acc := fun _ : Values => 0) as [s Hs].
  { intros t [[_ Hlt] Hin]%list_elem_of_filter.
    destruct (prev_Ok t0 t rest) as [p Hp].
    - rewrite <- Hts. exact Hin.
    - intros ->. exact (Qclt_irrefl _ Hlt).
    - unfold err_i_term. rewrite Hts, Hp. simpl. eexists. reflexivity. }
  rewrite Hs. simpl. eexists. reflexivity.
Qed.

Lemma err_i_sorted (t0 t_end : Qc) (rest : list Qc) (k : nat) (e0 : Expr) :
  StronglySorted Qclt time_set →
  time_set = t0 :: rest →
  err_i0 time_set pv output calc t0 = Ok e0 →
  time_set !! k = Some t_end →
  ∃ e, err_i time_set pv output calc t0 t_end = Ok e
       ∧ ∀ v, e v = e0 v
                    + trapezoid_sum (fun t => iterm pv t v) t0
                        (take k rest).
Proof.
  intros time_sorted Hts He0 Hk. unfold err_i. rewrite He0. simpl.
  assert (Hf : filter (fun t => (t ≤ t_end)%Qc ∧ (t0 < t)%Qc) time_set
               = take k rest).
  { rewrite Hts. rewrite filter_cons_False.
    - apply (filter_after t0 t_end rest t0 k).
      + rewrite <- Hts. exact time_sorted.
      + apply Qcle_refl.
      + rewrite <- Hts. exact Hk.
    - intros [_ Hlt]. exact (Qclt_irrefl _ Hlt). }
  rewrite Hf.
  destruct (sum_from_sorted (take k rest) time_sorted [] t0 (drop k rest)
              (fun _ => 0)) as (s & Hs & Hv).
  { rewrite take_drop. exact Hts. }
  rewrite Hs. simpl. exists (fun v => e0 v + s v). split; [reflexivity|].
  intros v. cbv beta. rewrite Hv. lra.
Qed.

(** From one point to the next the integral error grows by one
    trapezoid. *)
Lemma err_i_step (t0 p t : Qc) (rest pre post : list Qc) (e0 : Expr) :
  StronglySorted Qclt time_set →
  time_set = t0 :: rest →
  time_set = pre ++ p :: t :: post →
  err_i0 time_set pv output calc t0 = Ok e0 →
  ∃ e e_prev,
    err_i time_set pv output calc t0 t = Ok e
    ∧ err_i time_set pv output calc t0 p = Ok e_prev
    ∧ ∀ v, e v - e_prev v
           = (iterm pv t v + iterm pv p v) * time_R (time_sub t p) / 2.
Proof.
  intros time_sorted Hts Hsplit He0.
  assert (Hp : time_set !! length pre = Some p).
  { rewrite Hsplit. apply list_lookup_middle. reflexivity. }
  assert (Ht : time_set !! S (length pre) = Some t).
  { rewrite Hsplit.
    replace (pre ++ p :: t :: post) with ((pre ++ [p]) ++ t :: post)
      by (rewrite <- app_assoc; reflexivity).
    apply list_lookup_middle. rewrite length_app. simpl. lia. }
  destruct (err_i_sorted t0 p rest _ e0 time_sorted Hts He0 Hp)
    as (ep & Hep & Hvp).
  destruct (err_i_sorted t0 t rest _ e0 time_sorted Hts He0 Ht)
    as (e & He & Hv).
  exists e, ep. split; [exact He|]. split; [exact Hep|].
  intros v. rewrite Hv, Hvp.
  assert (Hrest : rest !! length pre = Some t).
  { rewrite Hts in Ht. exact Ht. }
  rewrite (take_S_r _ _ _ Hrest), trapezoid_sum_snoc.
  rewrite Hts in Hp. rewrite (last_take t0 p rest _ Hp). lra.
Qed.

(** The calculated [err_i0] solves the control law at the first point
    for the output at time 0. *)
Lemma err_i0_solves (t0 : Qc) :
  0%Qc ∈ time_set →
  ∃ e0, err_i0 time_set pv output true t0 = Ok e0
        ∧ ∀ v, gain v t0 ≠ 0 → time_i v t0 ≠ 0 →
               gain v t0 * (pterm pv t0 v + e0 v / time_i v t0
                            + time_d v t0 * err_d0 v)
               = output 0%Qc.
Proof.
  intros H0. unfold err_i0, err_i0_expression, getitem.
  rewrite decide_True by exact H0. simpl.
  rewrite err_d_first. simpl.
  eexists. split; [reflexivity|].
  intros v Hg Hi. cbv beta. field. split; assumption.
Qed.
End Law.
End PIDFacts.

(** ** What [build] constructs *)
Module PIDBuild.
Import OrderedSet PID PIDFacts.

Section Build.
Context {arith : TimeArith}.
Variables smooth_max smooth_min : R → R → R → R.

(** A block that was built holds the components its rules returned. *)
Lemma build_inv (config : Config.t) (time_set : list Qc) (b : PIDBlock) :
  build smooth_max smooth_min config time_set = Ok b →
  ∃ pv output,
    let calc := Config.calculate_initial_integral config in
    let t0 := blk_t0 b in
    Config.pv config = Some pv
    ∧ Config.output config = Some output
    ∧ first time_set = Ok t0
    ∧ construct (err_d time_set pv t0) time_set = Ok (blk_err_d b)
    ∧ err_i0 time_set pv output calc t0 = Ok (blk_err_i0 b)
    ∧ construct (err_i time_set pv output calc t0) time_set
      = Ok (blk_err_i b)
    ∧ construct (unconstrained_output time_set pv output calc t0) time_set
      = Ok (blk_unconstrained_output b)
    ∧ construct_constraint
        (output_constraint smooth_max smooth_min time_set pv output calc t0)
        time_set
      = Ok (blk_output_constraint b)
    ∧ blk_limits_init b
      = {[ "l" := Config.lower config; "h" := Config.upper config ]}.
Proof.
  unfold build. intros H.
  destruct (Config.pv config) as [pv|]; [|discriminate H].
  destruct (Config.output config) as [output|]; [|discriminate H].
  apply bind_Ok in H as (t0 & Ht0 & H).
  apply bind_Ok in H as (ed & Hed & H).
  apply bind_Ok in H as (ei0 & Hei0 & H).
  apply bind_Ok in H as (ei & Hei & H).
  apply bind_Ok in H as (uo & Huo & H).
  apply bind_Ok in H as (oc & Hoc & H).
  injection H as <-. simpl.
  exists pv, output. repeat split; assumption.
Qed.

Lemma unconstrained_output_Ok pv output calc (t0 t : Qc) (rest : list Qc) :
  (calc = true → 0%Qc ∈ t0 :: rest) →
  t ∈ t0 :: rest →
  ∃ ei ed,
    err_i (t0 :: rest) pv output calc t0 t = Ok ei
    ∧ err_d (t0 :: rest) pv t0 t = Ok ed
    ∧ unconstrained_output (t0 :: rest) pv output calc t0 t
      = Ok (fun v => gain v t * (pterm pv t v + 1 / time_i v t * ei v
                                 + time_d v t * ed v)).
Proof.
  intros H0 Hin.
  destruct (err_i0_Ok pv output calc (t0 :: rest) t0 H0) as [e0 He0].
  destruct (err_i_Ok pv output calc (t0 :: rest) t0 t rest e0 eq_refl He0)
    as [ei Hei].
  destruct (err_d_Ok pv (t0 :: rest) t0 t rest eq_refl Hin) as [ed Hed].
  exists ei, ed. unfold unconstrained_output. rewrite Hei, Hed.
  repeat split; reflexivity.
Qed.

(** [build] returns a block when the references are supplied, the time
    set has a first point and, if [err_i0] is to be calculated, the
    point 0. *)
Lemma build_returns (config : Config.t) pv output (t0 : Qc)
    (rest : list Qc) :
  Config.pv config = Some pv →
  Config.output config = Some output →
  (Config.calculate_initial_integral config = true → 0%Qc ∈ t0 :: rest) →
  ∃ b, build smooth_max smooth_min config (t0 :: rest) = Ok b
       ∧ blk_t0 b = t0.
Proof.
  intros Hpv Hout H0. unfold build. rewrite Hpv, Hout.
  set (calc := Config.calculate_initial_integral config) in *.
  remember (t0 :: rest) as ts eqn:Hts.
  assert (Hfirst : first ts = Ok t0) by (rewrite Hts; reflexivity).
  assert (Huo_Ok : ∀ t, t ∈ ts → ∃ ei ed,
             err_i ts pv output calc t0 t = Ok ei
             ∧ err_d ts pv t0 t = Ok ed
             ∧ unconstrained_output ts pv output calc t0 t
               = Ok (fun v => gain v t * (pterm pv t v
                                          + 1 / time_i v t * ei v
                                          + time_d v t * ed v))).
  { rewrite Hts in *. intros t Ht.
    apply unconstrained_output_Ok; assumption. }
  destruct (construct_Ok (err_d ts pv t0) ts) as [ed Hed].
  { intros t Ht. destruct (Huo_Ok t Ht) as (_ & d & _ & Hd & _).
    exists d. exact Hd. }
  destruct (err_i0_Ok pv output calc ts t0 H0) as [e0 He0].
  destruct (construct_Ok (err_i ts pv output calc t0) ts) as [ei Hei].
  { intros t Ht. destruct (Huo_Ok t Ht) as (e & _ & He & _).
    exists e. exact He. }
  destruct (construct_Ok (unconstrained_output ts pv output calc t0) ts)
    as [uo Huo].
  { intros t Ht. destruct (Huo_Ok t Ht) as (e & d & _ & _ & Hu).
    eexists. exact Hu. }
  destruct (construct_constraint_Ok
              (output_constraint smooth_max smooth_min ts pv output calc t0)
              ts) as [oc Hoc].
  { intros t Ht. unfold output_constraint.
    destruct (decide (t = t0)); [eexists; reflexivity|].
    destruct (Huo_Ok t Ht) as (e & d & _ & _ & Hu).
    rewrite Hu. simpl. eexists. reflexivity. }
  rewrite Hfirst. simpl. rewrite Hed. simpl. rewrite He0. simpl.
  rewrite Hei. simpl. rewrite Huo. simpl. rewrite Hoc. simpl.
  eexists. split; reflexivity.
Qed.

(** When [err_i0] is to be calculated and the time set lacks the point 0,
    the lookup [output[0]] raises and no block is built. *)
Lemma build_raises_KeyError (config : Config.t) pv output (t0 : Qc)
    (rest : list Qc) :
  Config.pv config = Some pv →
  Config.output config = Some output →
  Config.calculate_initial_integral config = true →
  0%Qc ∉ t0 :: rest →
  build smooth_max smooth_min config (t0 :: rest) = Raise KeyError.
Proof.
  intros Hpv Hout Hcalc H0. unfold build. rewrite Hpv, Hout, Hcalc.
  remember (t0 :: rest) as ts eqn:Hts.
  assert (Hfirst : first ts = Ok t0) by (rewrite Hts; reflexivity).
  destruct (construct_Ok (err_d ts pv t0) ts) as [ed Hed].
  { intros t Ht. exact (err_d_Ok pv ts t0 t rest Hts Ht). }
  rewrite Hfirst. simpl. rewrite Hed. simpl.
  unfold err_i0, err_i0_expression, getitem.
  rewrite decide_False by exact H0. reflexivity.
Qed.
End Build.
End PIDBuild.

(** ** The PID block: statements about built blocks *)
Module PIDSpec.
Import OrderedSet PID PIDFacts PIDBuild.

Lemma sorted_two (p t : Qc) : (p < t)%Qc → StronglySorted Qclt [p; t].
Proof.
  intros H. apply SSorted_cons.
  - apply SSorted_cons; constructor.
  - constructor; [exact H | constructor].
Defined.

Lemma zero_lt_one : (0 < 1)%Qc.
Proof. reflexivity. Defined.

(** Statements at sample inputs are made for time points whose
    differences are computed without rounding. *)
Section AtExactSteps.
#[local] Existing Instance Examples.exact_steps.

(** C1, at a time set that starts before time 0.  With the time set
    {-1, 0}, an output of 1 at the first point -1 and of 0 at time 0, the
    block is built, its first point is -1, and the calculated [err_i0]
    does not reproduce the output at the first point: the control law
    at that point gives the output at time 0 instead. *)
Theorem err_i0_back_solves_output_at_0 :
  ∃ b, build Examples.sharp_max Examples.sharp_min Examples.config_drop
         [Q2Qc (-1); 0%Qc] = Ok b
       ∧ blk_t0 b = Q2Qc (-1)
       ∧ Examples.output_drop (blk_t0 b) = 1
       ∧ gain Examples.unit_values (blk_t0 b) ≠ 0
       ∧ time_i Examples.unit_values (blk_t0 b) ≠ 0
       ∧ gain Examples.unit_values (blk_t0 b)
         * (pterm (fun _ => 0) (blk_t0 b) Examples.unit_values
            + blk_err_i0 b Examples.unit_values
              / time_i Examples.unit_values (blk_t0 b)
            + time_d Examples.unit_values (blk_t0 b)
              * err_d0 Examples.unit_values)
         = 0.
Proof.
  destruct (build_returns Examples.sharp_max Examples.sharp_min
              Examples.config_drop (fun _ => 0) Examples.output_drop
              (Q2Qc (-1)) [0%Qc] eq_refl eq_refl)
    as (b & Hb & Ht0).
  { intros _. right. left. }
  exists b. split; [exact Hb|]. split; [exact Ht0|].
  destruct (build_inv _ _ _ _ _ Hb)
    as (pv & output & Hpv & Hout & _ & _ & Hei0 & _).
  simpl in Hpv, Hout.
  injection Hpv as <-. injection Hout as <-.
  rewrite Ht0 in *.
  change (err_i0 [Q2Qc (-1); 0%Qc] (fun _ => 0) Examples.output_drop true
            (Q2Qc (-1)) = Ok (blk_err_i0 b)) in Hei0.
  destruct (err_i0_solves (fun _ => 0) Examples.output_drop
              [Q2Qc (-1); 0%Qc] (Q2Qc (-1))) as (e0 & He0 & Hlaw).
  { right. left. }
  rewrite He0 in Hei0. injection Hei0 as ->.
  assert (Hg : gain Examples.unit_values (Q2Qc (-1)) ≠ 0) by (simpl; lra).
  assert (Hi : time_i Examples.unit_values (Q2Qc (-1)) ≠ 0) by (simpl; lra).
  split; [reflexivity|]. split; [exact Hg|]. split; [exact Hi|].
  rewrite (Hlaw _ Hg Hi). reflexivity.
Qed.

(** The rules run on the time set {0, 1, 2} with the process variable at
    0 and [err_i0] a variable: the integral error at time 2 adds the
    trapezoids of [0, 1] and [1, 2], and there is an output constraint at
    time 2 and none at time 0. *)
Example err_i_at_2 :
  ∃ e, err_i [0%Qc; 1%Qc; Q2Qc 2] (fun _ => 0) (fun _ => 0) false 0%Qc
         (Q2Qc 2) = Ok e
       ∧ ∀ v, e v = err_i0_var v
                    + (setpoint v 1%Qc + setpoint v 0%Qc) / 2
                    + (setpoint v (Q2Qc 2) + setpoint v 1%Qc) / 2.
Proof.
  eexists. split; [reflexivity|].
  intros v. cbv [iterm err]. cbn -[Qcminus time_R].
  rewrite !time_R_minus, !time_R_Q2Qc. unfold Q2R. simpl. lra.
Qed.

Example output_constraint_at_0_and_2 :
  output_constraint Examples.sharp_max Examples.sharp_min
    [0%Qc; 1%Qc; Q2Qc 2] (fun _ => 0) (fun _ => 0) false 0%Qc 0%Qc
  = Ok Skip
  ∧ ∃ c, output_constraint Examples.sharp_max Examples.sharp_min
           [0%Qc; 1%Qc; Q2Qc 2] (fun _ => 0) (fun _ => 0) false 0%Qc
           (Q2Qc 2) = Ok (Con c).
Proof.
  split; [reflexivity|]. eexists. vm_compute. reflexivity.
Qed.
End AtExactSteps.

(** When the time set starts at time 0, the calculated [err_i0] does
    reproduce the output at the first point. *)
Lemma err_i0_back_solve_from_0 {arith : TimeArith} smooth_max smooth_min
    (config : Config.t)
    (pv output : Qc → R) (rest : list Qc) :
  Config.pv config = Some pv →
  Config.output config = Some output →
  Config.calculate_initial_integral config = true →
  ∃ b, build smooth_max smooth_min config (0%Qc :: rest) = Ok b
       ∧ blk_t0 b = 0%Qc
       ∧ ∀ v, gain v 0%Qc ≠ 0 → time_i v 0%Qc ≠ 0 →
              output 0%Qc
              = gain v 0%Qc
                * (pterm pv 0%Qc v + blk_err_i0 b v / time_i v 0%Qc
                   + time_d v 0%Qc * err_d0 v).
Proof.
  intros Hpv Hout Hcalc.
  destruct (build_returns smooth_max smooth_min config pv output 0%Qc rest
              Hpv Hout) as (b & Hb & Ht0); [intros _; left|].
  exists b. split; [exact Hb|]. split; [exact Ht0|].
  destruct (build_inv _ _ _ _ _ Hb)
    as (pv' & output' & Hpv' & Hout' & _ & _ & Hei0 & _).
  rewrite Hpv in Hpv'. injection Hpv' as <-.
  rewrite Hout in Hout'. injection Hout' as <-.
  rewrite Ht0, Hcalc in Hei0.
  destruct (err_i0_solves pv output (0%Qc :: rest) 0%Qc)
    as (e0 & He0 & Hlaw); [left|].
  rewrite He0 in Hei0. injection Hei0 as ->.
  intros v Hg Hi. symmetry. apply Hlaw; assumption.
Qed.

Section Statements.
Context {arith : TimeArith}.
Variables smooth_max smooth_min : R → R → R → R.
Variable config : Config.t.
Variables pv output : Qc → R.
Variable t0 : Qc.
Variable rest : list Qc.

Hypothesis pv_supplied : Config.pv config = Some pv.
Hypothesis output_supplied : Config.output config = Some output.
Hypothesis time_sorted : StronglySorted Qclt (t0 :: rest).
Hypothesis err_i0_defined :
  Config.calculate_initial_integral config = true → 0%Qc ∈ t0 :: rest.

(** The built block, with the references of its configuration named. *)
Lemma built :
  ∃ b, build smooth_max smooth_min config (t0 :: rest) = Ok b
       ∧ blk_t0 b = t0
       ∧ err_i0 (t0 :: rest) pv output
           (Config.calculate_initial_integral config) t0
         = Ok (blk_err_i0 b)
       ∧ construct
           (err_i (t0 :: rest) pv output
              (Config.calculate_initial_integral config) t0) (t0 :: rest)
         = Ok (blk_err_i b)
       ∧ construct
           (unconstrained_output (t0 :: rest) pv output
              (Config.calculate_initial_integral config) t0) (t0 :: rest)
         = Ok (blk_unconstrained_output b)
       ∧ construct_constraint
           (output_constraint smooth_max smooth_min (t0 :: rest) pv output
              (Config.calculate_initial_integral config) t0) (t0 :: rest)
         = Ok (blk_output_constraint b).
Proof.
  destruct (build_returns smooth_max smooth_min config pv output t0 rest
              pv_supplied output_supplied err_i0_defined)
    as (b & Hb & Ht0).
  exists b. split; [exact Hb|]. split; [exact Ht0|].
  destruct (build_inv _ _ _ _ _ Hb)
    as (pv' & output' & Hpv & Hout & _ & _ & Hei0 & Hei & Huo & Hoc & _).
  rewrite pv_supplied in Hpv. injection Hpv as <-.
  rewrite output_supplied in Hout. injection Hout as <-.
  rewrite Ht0 in *. repeat split; assumption.
Qed.

(** Where a block is built (the time set has a first point [t0] and
    holds the point 0 if [err_i0] is to be calculated), in whatever order
    the other points are listed: its output constraint
    has no member at [t0], and at every other time point [t] its member
    is the equation
    [output[t] == smooth_min(smooth_max(unconstrained_output[t], l, e), h, e)]
    over the block's expression [unconstrained_output[t]], the limits
    and the smoothing parameter.  It has no other members. *)
Theorem output_constraint_generated :
  ∃ b, build smooth_max smooth_min config (t0 :: rest) = Ok b
       ∧ blk_output_constraint b !! t0 = None
       ∧ (∀ t, t ∈ t0 :: rest → t ≠ t0 →
            ∃ c u,
              blk_output_constraint b !! t = Some c
              ∧ blk_unconstrained_output b !! t = Some u
              ∧ ∀ v, lhs c v = output t
                     ∧ rhs c v
                       = smooth_min
                           (smooth_max (u v) (limits v "l") (smooth_eps v))
                           (limits v "h") (smooth_eps v))
       ∧ (∀ t, t ∉ t0 :: rest → blk_output_constraint b !! t = None).
Proof.
  destruct built as (b & Hb & _ & _ & _ & Huo & Hoc).
  exists b. split; [exact Hb|].
  pose proof (fun t => construct_constraint_lookup _ _ _ t Hoc) as Hl.
  split; [|split].
  - rewrite Hl. unfold output_constraint.
    destruct (decide (t0 ∈ (t0 :: rest))); [|reflexivity].
    rewrite decide_True by reflexivity. reflexivity.
  - intros t Hin' Hne.
    destruct (construct_lookup _ _ _ t Huo Hin') as (u & Hu & Hlu).
    rewrite Hl, decide_True by exact Hin'.
    unfold output_constraint. rewrite decide_False by exact Hne.
    rewrite Hu. simpl.
    eexists _, u. split; [reflexivity|]. split; [exact Hlu|].
    intros v. split; reflexivity.
  - intros t Hnot. rewrite Hl, decide_False by exact Hnot. reflexivity.
Qed.

(** C4.  The block is built, and for the time point [t_end] at any
    position [k] of the time set, the block's [err_i[t_end]] is [err_i0]
    plus the trapezoidal sum over the consecutive pairs of the points
    up to [t_end]; at [t0] the sum is empty and [err_i[t0]] is
    [err_i0]. *)
Theorem err_i_trapezoid :
  ∃ b, build smooth_max smooth_min config (t0 :: rest) = Ok b
       ∧ (∀ k t_end, (t0 :: rest) !! k = Some t_end →
            ∃ e, blk_err_i b !! t_end = Some e
                 ∧ ∀ v, e v = blk_err_i0 b v
                              + trapezoid_sum (fun t => iterm pv t v) t0
                                  (take k rest))
       ∧ (∃ e, blk_err_i b !! t0 = Some e ∧ ∀ v, e v = blk_err_i0 b v).
Proof.
  destruct built as (b & Hb & _ & Hei0 & Hei & _).
  exists b. split; [exact Hb|].
  assert (Hk : ∀ k t_end, (t0 :: rest) !! k = Some t_end →
            ∃ e, blk_err_i b !! t_end = Some e
                 ∧ ∀ v, e v = blk_err_i0 b v
                              + trapezoid_sum (fun t => iterm pv t v) t0
                                  (take k rest)).
  { intros k t_end Hk.
    assert (Hin : t_end ∈ (t0 :: rest))
      by (apply list_elem_of_lookup; exists k; exact Hk).
    destruct (construct_lookup _ _ _ t_end Hei Hin) as (e & He & Hl).
    destruct (err_i_sorted pv output _ (t0 :: rest) t0 t_end rest k _
                time_sorted eq_refl Hei0 Hk) as (e' & He' & Hv).
    rewrite He in He'. injection He' as <-.
    exists e. split; assumption. }
  split; [exact Hk|].
  destruct (Hk 0%nat t0 eq_refl) as (e & Hl & Hv).
  exists e. split; [exact Hl|].
  intros v. rewrite Hv. simpl. lra.
Qed.

(** C5.  The block is built, and every time point [t] after [t0] has a
    previous point [p] in the time set with
    [err_i[t] - err_i[p] == (iterm[t] + iterm[p]) * (t - p) / 2],
    with the width [t - p] as the code computes it, whatever the values
    of the variables. *)
Theorem err_i_recurrence :
  ∃ b, build smooth_max smooth_min config (t0 :: rest) = Ok b
       ∧ ∀ t, t ∈ t0 :: rest → (t0 < t)%Qc →
           ∃ p e e_prev,
             prev (t0 :: rest) t = Ok p
             ∧ blk_err_i b !! t = Some e
             ∧ blk_err_i b !! p = Some e_prev
             ∧ ∀ v, e v - e_prev v
                    = (iterm pv t v + iterm pv p v)
                      * time_R (time_sub t p) / 2.
Proof.
  destruct built as (b & Hb & _ & Hei0 & Hei & _).
  exists b. split; [exact Hb|].
  intros t Hin Hlt.
  assert (Hrest : t ∈ rest).
  { apply elem_of_cons in Hin as [->|Hin]; [|exact Hin].
    destruct (Qclt_irrefl _ Hlt). }
  destruct (sorted_split t0 t rest Hrest) as (pre & p & post & Hsplit).
  assert (Hp : p ∈ (t0 :: rest)).
  { rewrite Hsplit. apply elem_of_app. right. left. }
  destruct (err_i_step pv output _ (t0 :: rest) t0 p t rest pre post _
              time_sorted eq_refl Hsplit Hei0) as (e & ep & He & Hep & Hv).
  destruct (construct_lookup _ _ _ t Hei Hin) as (e' & He' & Hl).
  destruct (construct_lookup _ _ _ p Hei Hp) as (ep' & Hep' & Hlp).
  rewrite He in He'. injection He' as <-.
  rewrite Hep in Hep'. injection Hep' as <-.
  exists p, e, ep. split; [|repeat split; assumption].
  rewrite Hsplit. apply sorted_prev. rewrite <- Hsplit. exact time_sorted.
Qed.
End Statements.

Lemma zero_in_time (rest : list Qc) : 0%Qc ∈ 0%Qc :: rest.
Proof. left. Defined.

(** The three statements at the time set {0, 1} of a controller at
    rest. *)
Section SamplesAtExactSteps.
#[local] Existing Instance Examples.exact_steps.

Lemma zero_not_in_1_2 : 0%Qc ∉ [1%Qc; Q2Qc 2].
Proof.
  intros H.
  repeat (apply elem_of_cons in H as [H|H]; [discriminate H|]).
  apply elem_of_nil in H. exact H.
Qed.

(** C3, at a time set without the point 0.  With the time set {1, 2},
    both references supplied and the options at their defaults,
    [build] raises [KeyError], at the lookup [output[0]] in the rule of
    [err_i0], and builds no block: no output constraint is generated for
    the time point 2, which is not the first point. *)
Theorem output_constraint_not_generated :
  Config.calculate_initial_integral Examples.config_rest
  = Config.calculate_initial_integral Config.default
  ∧ OrderedSet.first [1%Qc; Q2Qc 2] = Ok 1%Qc
  ∧ build Examples.sharp_max Examples.sharp_min Examples.config_rest
      [1%Qc; Q2Qc 2] = Raise KeyError
  ∧ ¬ ∃ b, build Examples.sharp_max Examples.sharp_min Examples.config_rest
             [1%Qc; Q2Qc 2] = Ok b.
Proof.
  assert (Hraise : build Examples.sharp_max Examples.sharp_min
                     Examples.config_rest [1%Qc; Q2Qc 2] = Raise KeyError).
  { apply (build_raises_KeyError Examples.sharp_max Examples.sharp_min
             Examples.config_rest (fun _ => 0) (fun _ => 0) 1%Qc [Q2Qc 2]
             eq_refl eq_refl eq_refl).
    exact zero_not_in_1_2. }
  split; [reflexivity|]. split; [reflexivity|]. split; [exact Hraise|].
  intros [b Hb]. rewrite Hraise in Hb. discriminate Hb.
Qed.

Lemma output_constraint_generated_witness :
  ∃ b, build Examples.sharp_max Examples.sharp_min Examples.config_rest
         [0%Qc; 1%Qc] = Ok b
       ∧ blk_output_constraint b !! 0%Qc = None
       ∧ is_Some (blk_output_constraint b !! 1%Qc).
Proof.
  destruct (output_constraint_generated Examples.sharp_max
              Examples.sharp_min Examples.config_rest
              (fun _ => 0) (fun _ => 0) 0%Qc [1%Qc] eq_refl eq_refl
              (fun _ => zero_in_time _))
    as (b & Hb & H0 & Hrest & _).
  exists b. split; [exact Hb|]. split; [exact H0|].
  destruct (Hrest 1%Qc) as (c & u & Hc & _); [right; left | discriminate|].
  exists c. exact Hc.
Defined.

Lemma err_i_trapezoid_witness :
  ∃ b, build Examples.sharp_max Examples.sharp_min Examples.config_rest
         [0%Qc; 1%Qc] = Ok b
       ∧ ∃ e, blk_err_i b !! 0%Qc = Some e ∧ ∀ v, e v = blk_err_i0 b v.
Proof.
  destruct (err_i_trapezoid Examples.sharp_max
              Examples.sharp_min Examples.config_rest
              (fun _ => 0) (fun _ => 0) 0%Qc [1%Qc] eq_refl eq_refl
              (sorted_two _ _ zero_lt_one) (fun _ => zero_in_time _))
    as (b & Hb & _ & H0).
  exists b. split; [exact Hb | exact H0].
Defined.

Lemma err_i_recurrence_witness :
  ∃ b, build Examples.sharp_max Examples.sharp_min Examples.config_rest
         [0%Qc; 1%Qc] = Ok b
       ∧ ∃ p e e_prev,
           prev [0%Qc; 1%Qc] 1%Qc = Ok p
           ∧ blk_err_i b !! 1%Qc = Some e
           ∧ blk_err_i b !! p = Some e_prev
           ∧ ∀ v, e v - e_prev v
                  = (iterm (fun _ => 0) 1%Qc v + iterm (fun _ => 0) p v)
                    * time_R (1 - p) / 2.
Proof.
  destruct (err_i_recurrence Examples.sharp_max
              Examples.sharp_min Examples.config_rest
              (fun _ => 0) (fun _ => 0) 0%Qc [1%Qc] eq_refl eq_refl
              (sorted_two _ _ zero_lt_one) (fun _ => zero_in_time _))
    as (b & Hb & Hstep).
  exists b. split; [exact Hb|].
  apply Hstep; [right; left | exact zero_lt_one].
Defined.
End SamplesAtExactSteps.
End PIDSpec.

(** ** The PID block: the output limits *)
Module PIDLimits.
Import OrderedSet PID PIDFacts PIDBuild PIDSpec.

Lemma limits_lookup (l h : R) :
  ({[ "l" := l; "h" := h ]} : gmap string R) !! "l" = Some l
  ∧ ({[ "l" := l; "h" := h ]} : gmap string R) !! "h" = Some h.
Proof.
  split.
  - apply lookup_insert_eq.
  - rewrite lookup_insert_ne by discriminate. apply lookup_singleton_eq.
Qed.

Lemma build_limits {arith : TimeArith} smooth_max smooth_min
    (config : Config.t)
    (time_set : list Qc) (b : PIDBlock) :
  build smooth_max smooth_min config time_set = Ok b →
  blk_limits_init b !! "l" = Some (Config.lower config)
  ∧ blk_limits_init b !! "h" = Some (Config.upper config).
Proof.
  intros Hb.
  destruct (build_inv _ _ _ _ _ Hb)
    as (pv & output & _ & _ & _ & _ & _ & _ & _ & _ & Hlim).
  rewrite Hlim. apply limits_lookup.
Qed.

(** C9, as the code has it.  The limits of a built block are
    initialised to the configured [lower] and [upper] as they are: with
    the defaults they are 0 and 1, and in general [low <= high] holds
    exactly when the configuration has [lower <= upper]. *)
Theorem limits_initialised_from_config {arith : TimeArith}
    smooth_max smooth_min
    (config : Config.t) (time_set : list Qc) (b : PIDBlock) :
  build smooth_max smooth_min config time_set = Ok b →
  ∃ low high,
    blk_limits_init b !! "l" = Some low
    ∧ blk_limits_init b !! "h" = Some high
    ∧ low = Config.lower config
    ∧ high = Config.upper config
    ∧ (low <= high ↔ Config.lower config <= Config.upper config)
    ∧ (Config.lower config = Config.lower Config.default →
       Config.upper config = Config.upper Config.default →
       low = 0 ∧ high = 1 ∧ low <= high).
Proof.
  intros Hb.
  destruct (build_limits _ _ _ _ _ Hb) as [Hl Hh].
  exists (Config.lower config), (Config.upper config).
  split; [exact Hl|]. split; [exact Hh|].
  split; [reflexivity|]. split; [reflexivity|]. split; [reflexivity|].
  intros -> ->. simpl. repeat split; lra.
Qed.

Section LimitsAtExactSteps.
#[local] Existing Instance Examples.exact_steps.

(** C9 as stated fails: a block is built from a configuration with
    [lower = 1] and [upper = 0], and its limits have [high < low]. *)
Lemma limits_not_ordered :
  ∃ b low high,
    build Examples.sharp_max Examples.sharp_min Examples.config_inverted
      [0%Qc] = Ok b
    ∧ blk_limits_init b !! "l" = Some low
    ∧ blk_limits_init b !! "h" = Some high
    ∧ ¬ low <= high.
Proof.
  destruct (build_returns Examples.sharp_max Examples.sharp_min
              Examples.config_inverted (fun _ => 0) (fun _ => 0) 0%Qc []
              eq_refl eq_refl (fun _ => zero_in_time _))
    as (b & Hb & _).
  destruct (build_limits _ _ _ _ _ Hb) as [Hl Hh].
  exists b, 1, 0. split; [exact Hb|]. split; [exact Hl|].
  split; [exact Hh|]. lra.
Qed.

(** The limits of a block built with the default limits. *)
Lemma limits_initialised_from_config_witness :
  ∃ b low high,
    build Examples.sharp_max Examples.sharp_min Examples.config_rest
      [0%Qc] = Ok b
    ∧ blk_limits_init b !! "l" = Some low
    ∧ blk_limits_init b !! "h" = Some high
    ∧ low <= high.
Proof.
  destruct (build_returns Examples.sharp_max Examples.sharp_min
              Examples.config_rest (fun _ => 0) (fun _ => 0) 0%Qc []
              eq_refl eq_refl (fun _ => zero_in_time _))
    as (b & Hb & _).
  destruct (limits_initialised_from_config _ _ _ _ _ Hb)
    as (low & high & Hl & Hh & _ & _ & _ & Hdefault).
  exists b, low, high. split; [exact Hb|]. split; [exact Hl|].
  split; [exact Hh|]. apply Hdefault; reflexivity.
Defined.
End LimitsAtExactSteps.
End PIDLimits.

(** ** The condenser's equations *)
Module CondenserFacts.
Import Condenser.

(** *** Names *)

(** A reference added only where the name is free leaves every name
    already taken as it is. *)
Lemma reference_lookup (a : gmap string control_volume) (name : string)
    (vol : control_volume) (k : string) :
  (if hasattr a name then a else add_object_reference name vol a) !! k
  = match a !! k with
    | Some x => Some x
    | None => if decide (k = name) then Some vol else None
    end.
Proof.
  unfold hasattr, add_object_reference. case_bool_decide as Hs.
  - destruct (a !! k) as [x|] eqn:Hk; [reflexivity|].
    destruct (decide (k = name)) as [->|]; [|reflexivity].
    rewrite Hk in Hs. destruct Hs as [x Hx]. discriminate Hx.
  - destruct (decide (k = name)) as [->|Hne].
    + rewrite lookup_insert_eq.
      destruct (a !! name) as [x|] eqn:Hk; [|reflexivity].
      exfalso. apply Hs. eauto.
    + rewrite lookup_insert_ne by congruence.
      destruct (a !! k); reflexivity.
Qed.

(** What each name reaches after [build]: the configured names first, then
    the four fixed names in the order in which [build] tries them. *)
Lemma volume_names_lookup (config : Config) (k : string) :
  build_volume_names config !! k
  = if decide (k = cold_side_name config) then Some cold_volume
    else if decide (k = hot_side_name config) then Some hot_volume
    else if decide (k = "side_1") then Some hot_volume
    else if decide (k = "side_2") then Some cold_volume
    else if decide (k = "hot_side") then Some hot_volume
    else if decide (k = "cold_side") then Some cold_volume
    else None.
Proof.
  unfold build_volume_names. cbv zeta.
  rewrite !reference_lookup. unfold _make_heater_control_volume.
  destruct (decide (k = cold_side_name config)) as [->|Hc].
  { rewrite lookup_insert_eq. reflexivity. }
  rewrite lookup_insert_ne by congruence.
  destruct (decide (k = hot_side_name config)) as [->|Hh].
  { rewrite lookup_insert_eq. reflexivity. }
  rewrite lookup_insert_ne by congruence.
  rewrite lookup_empty.
  repeat (destruct (decide _); [reflexivity|]).
  reflexivity.
Qed.

(** [self.side_1] and [self.side_2] are always there; which control
    volume they are depends on the side names. *)
Lemma names_side_1 (config : Config) :
  build_volume_names config !! "side_1"
  = Some (if decide ("side_1" = cold_side_name config) then cold_volume
          else hot_volume).
Proof.
  rewrite volume_names_lookup.
  destruct (decide ("side_1" = cold_side_name config)); [reflexivity|].
  destruct (decide ("side_1" = hot_side_name config)); reflexivity.
Qed.

Lemma names_side_2 (config : Config) :
  build_volume_names config !! "side_2"
  = Some (if decide ("side_2" = cold_side_name config) then cold_volume
          else if decide ("side_2" = hot_side_name config) then hot_volume
          else cold_volume).
Proof.
  rewrite volume_names_lookup.
  destruct (decide ("side_2" = cold_side_name config)); [reflexivity|].
  destruct (decide ("side_2" = hot_side_name config)); reflexivity.
Qed.

(** Where the cold side is not called side_1 and the hot side is not
    called side_2, [side_1] is the hot and [side_2] the cold control
    volume. *)
Lemma names_without_collision (config : Config) :
  cold_side_name config ≠ "side_1" → hot_side_name config ≠ "side_2" →
  build_volume_names config !! "side_1" = Some hot_volume
  ∧ build_volume_names config !! "side_2" = Some cold_volume.
Proof.
  intros Hc Hh. rewrite names_side_1, names_side_2.
  rewrite decide_False by congruence.
  destruct (decide ("side_2" = cold_side_name config)); [auto|].
  rewrite decide_False by congruence. auto.
Qed.

(** *** [_process_config] *)
Section ProcessConfigFacts.
Context {framework : Framework}.



(** An accepted configuration has distinct side names, and the names are
    not changed. *)
Lemma process_config_names (declared : list string) (config cfg : Config) :
  _process_config declared config = Ok cfg →
  hot_side_name config ≠ cold_side_name config
  ∧ hot_side_name cfg = hot_side_name config
  ∧ cold_side_name cfg = cold_side_name config
  ∧ build_volume_names cfg = build_volume_names config.
Proof.
  unfold _process_config. intros H.
  destruct (decide (hot_side_name config = cold_side_name config))
    as [|Hne]; [discriminate H|].
  apply bind_Ok in H as (_ & _ & H).
  apply bind_Ok in H as (hot & _ & H).
  apply bind_Ok in H as (cold & _ & H).
  injection H as <-. auto.
Qed.
End ProcessConfigFacts.

(** *** The rules *)

Lemma component_getitem_Ok {A} (c : gmap Qc A) (t : Qc) (a : A) :
  component_getitem c t = Ok a ↔ c !! t = Some a.
Proof.
  unfold component_getitem. destruct (c !! t); split; intros H;
    first [injection H as ->; reflexivity | discriminate H].
Qed.

Section RuleFacts.
Variable self : Self.

Lemma getattr_volume_Ok (name : string) (cv : control_volume) :
  getattr_volume self name = Ok cv ↔ self_names self !! name = Some cv.
Proof.
  unfold getattr_volume. destruct (self_names self !! name); split;
    intros H; first [injection H as ->; reflexivity | discriminate H].
Qed.

Lemma heat_of_Ok (name : string) (t : Qc) (e : Expr) :
  heat_of self name t = Ok e →
  ∃ cv, self_names self !! name = Some cv
        ∧ e = (fun v => heat (volume v cv) t).
Proof.
  unfold heat_of. intros H.
  apply bind_Ok in H as (cv & Hcv%getattr_volume_Ok & H).
  destruct (obj_heat (self_volume self cv)) as [index|]; [|discriminate H].
  destruct (decide (t ∈ index)); [|discriminate H].
  injection H as <-. exists cv. auto.
Qed.

Lemma state_of_Ok (name : string) (inlet : bool) (t : Qc)
    (s : control_volume * StateObj) :
  state_of self name inlet t = Ok s →
  self_names self !! name = Some s.1.
Proof.
  unfold state_of. intros H.
  apply bind_Ok in H as (cv & Hcv%getattr_volume_Ok & H).
  destruct ((if inlet then _ else _) !! t); [|discriminate H].
  injection H as <-. exact Hcv.
Qed.

Lemma property_of_Ok (name : string) (inlet : bool) (t : Qc)
    (attr : string) (field : StateBlock → R) (e : Expr) :
  property_of self name inlet t attr field = Ok e →
  ∃ cv, self_names self !! name = Some cv
        ∧ e = (fun v => field (state_values cv inlet t v)).
Proof.
  unfold property_of. intros H.
  apply bind_Ok in H as (s & Hs%state_of_Ok & H).
  destruct (decide (attr ∈ state_attributes s.2)); [|discriminate H].
  injection H as <-. exists s.1. auto.
Qed.

Lemma phase_property_of_Ok (name : string) (inlet : bool) (t : Qc)
    (attr phase : string) (field : StateBlock → R) (e : Expr) :
  phase_property_of self name inlet t attr phase field = Ok e →
  ∃ cv, self_names self !! name = Some cv
        ∧ e = (fun v => field (state_values cv inlet t v)).
Proof.
  unfold phase_property_of. intros H.
  apply bind_Ok in H as (s & Hs%state_of_Ok & H).
  destruct (state_phase_attributes s.2 !! attr) as [phases|];
    [|discriminate H].
  destruct (decide (phase ∈ phases)); [|discriminate H].
  injection H as <-. exists s.1. auto.
Qed.

Section Resolved.
(** What the rules return when they return, with [side_1] and [side_2]
    resolved. *)
Variables c1 c2 : control_volume.
Hypothesis side_1_is : self_names self !! "side_1" = Some c1.
Hypothesis side_2_is : self_names self !! "side_2" = Some c2.

Lemma heat_of_side (t : Qc) (e1 e2 : Expr) :
  (heat_of self "side_1" t = Ok e1 → e1 = fun v => heat (volume v c1) t)
  ∧ (heat_of self "side_2" t = Ok e2 → e2 = fun v => heat (volume v c2) t).
Proof.
  split; intros H; apply heat_of_Ok in H as (cv & Hcv & ->);
    (replace cv with c1 by congruence) || (replace cv with c2 by congruence);
    reflexivity.
Qed.

Lemma property_of_side_1 (inlet : bool) (t : Qc) (attr : string)
    (field : StateBlock → R) (e : Expr) :
  property_of self "side_1" inlet t attr field = Ok e →
  e = fun v => field (state_values c1 inlet t v).
Proof.
  intros H. apply property_of_Ok in H as (cv & Hcv & ->).
  replace cv with c1 by congruence. reflexivity.
Qed.

Lemma property_of_side_2 (inlet : bool) (t : Qc) (attr : string)
    (field : StateBlock → R) (e : Expr) :
  property_of self "side_2" inlet t attr field = Ok e →
  e = fun v => field (state_values c2 inlet t v).
Proof.
  intros H. apply property_of_Ok in H as (cv & Hcv & ->).
  replace cv with c2 by congruence. reflexivity.
Qed.

Lemma unit_heat_balance_Ok (t : Qc) (r : rule_result Values) :
  unit_heat_balance self t = Ok r →
  r = Con {| lhs := fun _ => 0;
             rhs := fun v => heat (volume v c1) t + heat (volume v c2) t |}.
Proof.
  unfold unit_heat_balance. intros H.
  apply bind_Ok in H as (h1 & H1 & H).
  apply bind_Ok in H as (h2 & H2 & H).
  injection H as <-.
  rewrite (proj1 (heat_of_side t h1 h2) H1).
  rewrite (proj2 (heat_of_side t h1 h2) H2). reflexivity.
Qed.

Lemma mcp_min_Ok (t : Qc) (e : Expr) :
  mcp_min self t = Ok e →
  e = fun v => flow_mol (properties_in (volume v c2) t)
               * cp_mol_phase_Liq (properties_in (volume v c2) t).
Proof.
  unfold mcp_min. intros H.
  apply bind_Ok in H as (F & HF%property_of_side_2 & H).
  apply bind_Ok in H as (cp & Hcp & H).
  apply phase_property_of_Ok in Hcp as (cv & Hcv & ->).
  injection H as <-. subst F.
  assert (cv = c2) as -> by congruence. reflexivity.
Qed.

Lemma heat_transfer_Ok (b_effectiveness b_mcp_min : gmap Qc Expr) (t : Qc)
    (e : Expr) :
  heat_transfer self b_effectiveness b_mcp_min t = Ok e →
  ∃ eff m, b_effectiveness !! t = Some eff ∧ b_mcp_min !! t = Some m
           ∧ e = fun v =>
                   eff v * m v
                   * (temperature_sat (properties_in (volume v c1) t)
                      - temperature (properties_in (volume v c2) t)).
Proof.
  unfold heat_transfer. intros H.
  apply bind_Ok in H as (eff & Heff%component_getitem_Ok & H).
  apply bind_Ok in H as (m & Hm%component_getitem_Ok & H).
  apply bind_Ok in H as (T1 & HT1%property_of_side_1 & H).
  apply bind_Ok in H as (T2 & HT2%property_of_side_2 & H).
  injection H as <-. subst T1 T2. exists eff, m. auto.
Qed.

Lemma heat_transfer_equation_Ok (b_heat_transfer : gmap Qc Expr) (t : Qc)
    (r : rule_result Values) :
  heat_transfer_equation self b_heat_transfer t = Ok r →
  ∃ ht, b_heat_transfer !! t = Some ht
        ∧ r = Con {| lhs := fun v => heat (volume v c2) t;
                     rhs := fun v => ht v |}.
Proof.
  unfold heat_transfer_equation. intros H.
  apply bind_Ok in H as (h2 & H2 & H).
  apply bind_Ok in H as (ht & Hht%component_getitem_Ok & H).
  injection H as <-.
  rewrite (proj2 (heat_of_side t h2 h2) H2). exists ht. auto.
Qed.

End Resolved.

Lemma ntu_Ok (b_mcp_min : gmap Qc Expr) (t : Qc) (e : Expr) :
  ntu b_mcp_min t = Ok e →
  ∃ m, b_mcp_min !! t = Some m
       ∧ e = fun v => overall_heat_transfer_coefficient v t * area v / m v.
Proof.
  unfold ntu. intros H.
  apply bind_Ok in H as (m & Hm%component_getitem_Ok & H).
  injection H as <-. exists m. auto.
Qed.

Lemma effectiveness_Ok (b_ntu : gmap Qc Expr) (t : Qc) (e : Expr) :
  effectiveness b_ntu t = Ok e →
  ∃ n, b_ntu !! t = Some n ∧ e = fun v => 1 - exp (- n v).
Proof.
  unfold effectiveness. intros H.
  apply bind_Ok in H as (n & Hn%component_getitem_Ok & H).
  injection H as <-. exists n. auto.
Qed.

(** *** Rules on complete control volumes return *)
Section Complete.
Variable time : list Qc.
Hypothesis volumes_complete : ∀ cv, complete_volume time (self_volume self cv).

Lemma heat_of_returns (name : string) (cv : control_volume) (t : Qc) :
  self_names self !! name = Some cv → t ∈ time →
  ∃ e, heat_of self name t = Ok e.
Proof.
  intros Hcv Ht. unfold heat_of.
  rewrite (proj2 (getattr_volume_Ok name cv) Hcv). simpl.
  destruct (volumes_complete cv) as ((index & Hh & Hin) & _).
  rewrite Hh, decide_True by (apply Hin; exact Ht).
  eexists. reflexivity.
Qed.

Lemma state_of_returns (name : string) (cv : control_volume)
    (inlet : bool) (t : Qc) :
  self_names self !! name = Some cv → t ∈ time →
  ∃ sb, state_of self name inlet t = Ok (cv, sb) ∧ complete_state sb.
Proof.
  intros Hcv Ht. unfold state_of.
  rewrite (proj2 (getattr_volume_Ok name cv) Hcv). simpl.
  destruct (volumes_complete cv) as (_ & Hin & Hout).
  destruct inlet.
  - destruct (Hin t Ht) as (sb & Hsb & Hc). rewrite Hsb. eauto.
  - destruct (Hout t Ht) as (sb & Hsb & Hc). rewrite Hsb. eauto.
Qed.

Lemma property_of_returns (name : string) (cv : control_volume)
    (inlet : bool) (t : Qc) (attr : string) (field : StateBlock → R) :
  self_names self !! name = Some cv → t ∈ time →
  attr ∈ ["temperature"; "temperature_sat"; "flow_mol"; "enth_mol"] →
  ∃ e, property_of self name inlet t attr field = Ok e.
Proof.
  intros Hcv Ht Hattr. unfold property_of.
  destruct (state_of_returns name cv inlet t Hcv Ht) as (sb & Hs & Hc & _).
  rewrite Hs. simpl. rewrite decide_True by (apply Hc; exact Hattr).
  eexists. reflexivity.
Qed.

Lemma phase_property_of_returns (name : string) (cv : control_volume)
    (inlet : bool) (t : Qc) (attr : string) (field : StateBlock → R) :
  self_names self !! name = Some cv → t ∈ time →
  attr ∈ ["cp_mol_phase"; "enth_mol_sat_phase"] →
  ∃ e, phase_property_of self name inlet t attr "Liq" field = Ok e.
Proof.
  intros Hcv Ht Hattr. unfold phase_property_of.
  destruct (state_of_returns name cv inlet t Hcv Ht) as (sb & Hs & _ & Hc).
  rewrite Hs. simpl.
  destruct (Hc attr Hattr) as (phases & Hp & Hliq).
  rewrite Hp, decide_True by exact Hliq.
  eexists. reflexivity.
Qed.

Section Named.
Variables c1 c2 : control_volume.
Hypothesis side_1_is : self_names self !! "side_1" = Some c1.
Hypothesis side_2_is : self_names self !! "side_2" = Some c2.

Ltac rule_step lem :=
  let e := fresh "e" in
  let He := fresh "He" in
  edestruct lem as (e & He);
  [eassumption | eassumption | repeat first [left | right; left | right]
  | rewrite He; simpl ].

Lemma first_rules_return (t : Qc) :
  t ∈ time →
  (∃ r, unit_heat_balance self t = Ok r)
  ∧ (∃ e, delta_temperature_in self t = Ok e)
  ∧ (∃ e, delta_temperature_out self t = Ok e)
  ∧ (∃ e, delta_temperature_ntu self t = Ok e)
  ∧ (∃ e, mcp_min self t = Ok e)
  ∧ (∃ r, saturation_eqn self t = Ok r).
Proof.
  intros Ht.
  destruct (heat_of_returns "side_1" c1 t side_1_is Ht) as (h1 & H1).
  destruct (heat_of_returns "side_2" c2 t side_2_is Ht) as (h2 & H2).
  assert (P1 : ∀ inlet attr field,
             attr ∈ ["temperature"; "temperature_sat"; "flow_mol";
                     "enth_mol"] →
             ∃ e, property_of self "side_1" inlet t attr field = Ok e).
  { intros. eapply property_of_returns; eassumption. }
  assert (P2 : ∀ inlet attr field,
             attr ∈ ["temperature"; "temperature_sat"; "flow_mol";
                     "enth_mol"] →
             ∃ e, property_of self "side_2" inlet t attr field = Ok e).
  { intros. eapply property_of_returns; eassumption. }
  assert (Htemp : "temperature"
                    ∈ ["temperature"; "temperature_sat"; "flow_mol";
                       "enth_mol"]) by left.
  assert (Hsat : "temperature_sat"
                   ∈ ["temperature"; "temperature_sat"; "flow_mol";
                      "enth_mol"]) by (right; left).
  assert (Hflow : "flow_mol"
                    ∈ ["temperature"; "temperature_sat"; "flow_mol";
                       "enth_mol"]) by (do 2 right; left).
  assert (Henth : "enth_mol"
                    ∈ ["temperature"; "temperature_sat"; "flow_mol";
                       "enth_mol"]) by (do 3 right; left).
  repeat split.
  - unfold unit_heat_balance. rewrite H1. simpl. rewrite H2. simpl. eauto.
  - unfold delta_temperature_in.
    destruct (P1 true _ temperature Htemp) as (a & ->). simpl.
    destruct (P2 true _ temperature Htemp) as (b & ->). simpl. eauto.
  - unfold delta_temperature_out.
    destruct (P1 false _ temperature Htemp) as (a & ->). simpl.
    destruct (P2 false _ temperature Htemp) as (b & ->). simpl. eauto.
  - unfold delta_temperature_ntu.
    destruct (P1 true _ temperature_sat Hsat) as (a & ->). simpl.
    destruct (P2 true _ temperature Htemp) as (b & ->). simpl. eauto.
  - unfold mcp_min.
    destruct (P2 true _ flow_mol Hflow) as (a & ->). simpl.
    destruct (phase_property_of_returns "side_2" c2 true t "cp_mol_phase"
                cp_mol_phase_Liq side_2_is Ht) as (b & ->); [left|].
    simpl. eauto.
  - unfold saturation_eqn.
    destruct (P1 false _ enth_mol Henth) as (a & ->). simpl.
    destruct (phase_property_of_returns "side_1" c1 true t
                "enth_mol_sat_phase" enth_mol_sat_phase_Liq side_1_is Ht)
      as (b & ->); [right; left|].
    simpl. eauto.
Qed.

Lemma heat_transfer_returns (b_effectiveness b_mcp_min : gmap Qc Expr)
    (t : Qc) :
  t ∈ time → is_Some (b_effectiveness !! t) → is_Some (b_mcp_min !! t) →
  ∃ e, heat_transfer self b_effectiveness b_mcp_min t = Ok e.
Proof.
  intros Ht [eff Heff] [m Hm]. unfold heat_transfer.
  rewrite (proj2 (component_getitem_Ok _ _ _) Heff). simpl.
  rewrite (proj2 (component_getitem_Ok _ _ _) Hm). simpl.
  destruct (property_of_returns "side_1" c1 true t "temperature_sat"
              temperature_sat side_1_is Ht) as (a & ->); [right; left|].
  simpl.
  destruct (property_of_returns "side_2" c2 true t "temperature"
              temperature side_2_is Ht) as (b & ->); [left|].
  simpl. eauto.
Qed.

Lemma heat_transfer_equation_returns (b_heat_transfer : gmap Qc Expr)
    (t : Qc) :
  t ∈ time → is_Some (b_heat_transfer !! t) →
  ∃ r, heat_transfer_equation self b_heat_transfer t = Ok r.
Proof.
  intros Ht [ht Hht]. unfold heat_transfer_equation.
  destruct (heat_of_returns "side_2" c2 t side_2_is Ht) as (h2 & ->).
  simpl. rewrite (proj2 (component_getitem_Ok _ _ _) Hht). simpl. eauto.
Qed.
End Named.
End Complete.
End RuleFacts.

(** A component whose rule returns at every time point is constructed,
    and has a member at every time point. *)
Lemma construct_returns {A} (rule : Qc → result A) (time : list Qc) :
  (∀ t, t ∈ time → ∃ a, rule t = Ok a) →
  ∃ m, construct rule time = Ok m ∧ ∀ t, t ∈ time → is_Some (m !! t).
Proof.
  intros Hall. destruct (construct_Ok rule time Hall) as [m Hm].
  exists m. split; [exact Hm|].
  intros t Ht. destruct (construct_lookup _ _ _ t Hm Ht) as (a & _ & Hl).
  eauto.
Qed.

Lemma exp_neg_bounds (x : R) : 0 < x → 0 < 1 - exp (- x) < 1.
Proof.
  intros Hx.
  pose proof (exp_pos (- x)) as Hpos.
  assert (Hlt : exp (- x) < exp 0) by (apply exp_increasing; lra).
  rewrite exp_0 in Hlt. lra.
Qed.

(** *** [build] *)
Section BuildFacts.
Context {framework : Framework}.

(** A condenser that was built holds the components that its rules
    returned, under the names that the side names give. *)
Lemma condenser_build_inv (declared : list string) (config : Config)
    (time : list Qc) (b : CondenserBlock) :
  build declared config time = Ok b →
  hot_side_name config ≠ cold_side_name config
  ∧ blk_names b = build_volume_names config
  ∧ let self := {| self_names := blk_names b;
                   self_volume := blk_volume b |} in
    construct_constraint (unit_heat_balance self) time
    = Ok (blk_unit_heat_balance b)
    ∧ construct (mcp_min self) time = Ok (blk_mcp_min b)
    ∧ construct (ntu (blk_mcp_min b)) time = Ok (blk_ntu b)
    ∧ construct (effectiveness (blk_ntu b)) time
      = Ok (blk_effectiveness b)
    ∧ construct
        (heat_transfer self (blk_effectiveness b) (blk_mcp_min b)) time
      = Ok (blk_heat_transfer b)
    ∧ construct_constraint
        (heat_transfer_equation self (blk_heat_transfer b)) time
      = Ok (blk_heat_transfer_equation b)
    ∧ construct_constraint (saturation_eqn self) time
      = Ok (blk_saturation_eqn b).
Proof.
  unfold build. intros H.
  apply bind_Ok in H as (_ & _ & H).
  apply bind_Ok in H as (cfg & Hcfg & H).
  apply bind_Ok in H as (meta & _ & H).
  apply bind_Ok in H as (Uu & _ & H).
  apply bind_Ok in H as (Au & _ & H).
  apply bind_Ok in H as (hot & _ & H).
  apply bind_Ok in H as (cold & _ & H).
  cbv zeta in H.
  do 4 (apply bind_Ok in H as (? & _ & H); apply bind_Ok in H as (_ & _ & H)).
  apply bind_Ok in H as (uhb & Huhb & H).
  apply bind_Ok in H as (dTin & _ & H).
  apply bind_Ok in H as (dTout & _ & H).
  apply bind_Ok in H as (dTntu & _ & H).
  apply bind_Ok in H as (mcp & Hmcp & H).
  apply bind_Ok in H as (n & Hn & H).
  apply bind_Ok in H as (eff & Heff & H).
  apply bind_Ok in H as (ht & Hht & H).
  apply bind_Ok in H as (hte & Hhte & H).
  apply bind_Ok in H as (sat & Hsat & H).
  injection H as <-. cbn [blk_names blk_volume blk_unit_heat_balance
    blk_mcp_min blk_ntu blk_effectiveness blk_heat_transfer
    blk_heat_transfer_equation blk_saturation_eqn self_names self_volume].
  destruct (process_config_names _ _ _ Hcfg) as (Hne & _ & _ & Hnames).
  split; [exact Hne|]. split; [exact Hnames|].
  repeat split; assumption.
Qed.

(** [build] returns when every framework call returns and the two
    control volumes have what the rules read: no lookup of a name and no
    rule raises. *)
Lemma condenser_build_returns (declared : list string)
    (config cfg : Config) (time : list Qc) (meta Uu Au : PyObject)
    (hot cold : VolumeObj) :
  super_build config = Ok () →
  _process_config declared config = Ok cfg →
  get_metadata cfg = Ok meta →
  get_derived_units meta "heat_trasnfer_coefficient" = Ok Uu →
  get_derived_units meta "area" = Ok Au →
  make_control_volume (hot_side_name cfg) (hot_side_config cfg) cfg time
  = Ok hot →
  make_control_volume (cold_side_name cfg) (cold_side_config cfg) cfg time
  = Ok cold →
  complete_volume time hot → complete_volume time cold →
  (∀ name cv, add_inlet_port name cv = Ok ()) →
  (∀ name cv, add_outlet_port name cv = Ok ()) →
  ∃ b, build declared config time = Ok b.
Proof.
  intros Hsuper Hcfg Hmeta HU HA Hhot Hcold Chot Ccold Hin Hout.
  unfold build.
  rewrite Hsuper. cbn [mbind result_bind]. rewrite Hcfg. cbn [mbind result_bind]. rewrite Hmeta. cbn [mbind result_bind].
  rewrite HU. cbn [mbind result_bind]. rewrite HA. cbn [mbind result_bind]. rewrite Hhot. cbn [mbind result_bind].
  rewrite Hcold. cbn [mbind result_bind].
  set (self := {| self_names := build_volume_names cfg;
                  self_volume := fun cv =>
                    match cv with
                    | hot_volume => hot
                    | cold_volume => cold
                    end |}).
  pose proof (names_side_1 cfg) as H1.
  pose proof (names_side_2 cfg) as H2.
  set (c1 := if decide ("side_1" = cold_side_name cfg) then cold_volume
             else hot_volume) in H1.
  set (c2 := if decide ("side_2" = cold_side_name cfg) then cold_volume
             else if decide ("side_2" = hot_side_name cfg) then hot_volume
             else cold_volume) in H2.
  assert (G1 : getattr_volume self "side_1" = Ok c1)
    by (apply getattr_volume_Ok; exact H1).
  assert (G2 : getattr_volume self "side_2" = Ok c2)
    by (apply getattr_volume_Ok; exact H2).
  rewrite G1, G2. cbn [mbind result_bind].
  rewrite !Hin, !Hout. cbn [mbind result_bind].
  assert (Cself : ∀ cv, complete_volume time (self_volume self cv))
    by (intros [|]; assumption).
  pose proof (first_rules_return self time Cself c1 c2 H1 H2) as Hrules.
  destruct (construct_constraint_Ok (unit_heat_balance self) time)
    as [uhb Huhb]; [intros t Ht; apply (Hrules t Ht)|].
  destruct (construct_returns (delta_temperature_in self) time)
    as (dTin & HdTin & _); [intros t Ht; apply (Hrules t Ht)|].
  destruct (construct_returns (delta_temperature_out self) time)
    as (dTout & HdTout & _); [intros t Ht; apply (Hrules t Ht)|].
  destruct (construct_returns (delta_temperature_ntu self) time)
    as (dTntu & HdTntu & _); [intros t Ht; apply (Hrules t Ht)|].
  destruct (construct_returns (mcp_min self) time)
    as (mcp & Hmcp & Lmcp); [intros t Ht; apply (Hrules t Ht)|].
  destruct (construct_returns (ntu mcp) time) as (n & Hn & Ln).
  { intros t Ht. destruct (Lmcp t Ht) as [m Hm]. unfold ntu.
    rewrite (proj2 (component_getitem_Ok _ _ _) Hm). cbn [mbind result_bind]. eauto. }
  destruct (construct_returns (effectiveness n) time) as (eff & Heff & Leff).
  { intros t Ht. destruct (Ln t Ht) as [x Hx]. unfold effectiveness.
    rewrite (proj2 (component_getitem_Ok _ _ _) Hx). cbn [mbind result_bind]. eauto. }
  destruct (construct_returns (heat_transfer self eff mcp) time)
    as (ht & Hht & Lht).
  { intros t Ht.
    apply (heat_transfer_returns self time Cself c1 c2 H1 H2); auto. }
  destruct (construct_constraint_Ok (heat_transfer_equation self ht) time)
    as [hte Hhte].
  { intros t Ht.
    apply (heat_transfer_equation_returns self time Cself c2 H2); auto. }
  destruct (construct_constraint_Ok (saturation_eqn self) time)
    as [sat Hsat]; [intros t Ht; apply (Hrules t Ht)|].
  rewrite Huhb. cbn [mbind result_bind]. rewrite HdTin. cbn [mbind result_bind]. rewrite HdTout. cbn [mbind result_bind].
  rewrite HdTntu. cbn [mbind result_bind]. rewrite Hmcp. cbn [mbind result_bind]. rewrite Hn. cbn [mbind result_bind].
  rewrite Heff. cbn [mbind result_bind]. rewrite Hht. cbn [mbind result_bind]. rewrite Hhte. cbn [mbind result_bind].
  rewrite Hsat. cbn [mbind result_bind]. eexists. reflexivity.
Qed.

(** The unit heat balance of a built condenser, with [side_1] and
    [side_2] resolved. *)
Lemma built_unit_heat_balance (declared : list string) (config : Config)
    (time : list Qc) (b : CondenserBlock) (c1 c2 : control_volume) :
  build declared config time = Ok b →
  build_volume_names config !! "side_1" = Some c1 →
  build_volume_names config !! "side_2" = Some c2 →
  (∀ t, t ∈ time →
     blk_unit_heat_balance b !! t
     = Some {| lhs := fun _ => 0;
               rhs := fun v => heat (volume v c1) t
                               + heat (volume v c2) t |})
  ∧ (∀ t, t ∉ time → blk_unit_heat_balance b !! t = None).
Proof.
  intros Hb H1 H2.
  destruct (condenser_build_inv _ _ _ _ Hb) as (_ & Hnames & Huhb & _).
  cbv zeta in Huhb.
  pose proof (fun t => construct_constraint_lookup _ _ _ t Huhb) as Hl.
  split.
  - intros t Ht. rewrite Hl, decide_True by exact Ht.
    destruct (construct_constraint_rule_Ok _ _ _ t Huhb Ht) as (r & Hr).
    rewrite Hr.
    apply unit_heat_balance_Ok with (c1 := c1) (c2 := c2) in Hr;
      [subst r; reflexivity | |]; simpl; rewrite Hnames; assumption.
  - intros t Ht. rewrite Hl, decide_False by exact Ht. reflexivity.
Qed.

(** The expressions behind the effectiveness of a built condenser. *)
Lemma built_effectiveness (declared : list string) (config : Config)
    (time : list Qc) (b : CondenserBlock) (c2 : control_volume) (t : Qc) :
  build declared config time = Ok b →
  build_volume_names config !! "side_2" = Some c2 →
  t ∈ time →
  ∃ eff n m,
    blk_effectiveness b !! t = Some eff
    ∧ blk_ntu b !! t = Some n
    ∧ blk_mcp_min b !! t = Some m
    ∧ eff = (fun v => 1 - exp (- n v))
    ∧ n = (fun v => overall_heat_transfer_coefficient v t * area v / m v)
    ∧ m = (fun v => flow_mol (properties_in (volume v c2) t)
                    * cp_mol_phase_Liq (properties_in (volume v c2) t)).
Proof.
  intros Hb H2 Ht.
  destruct (condenser_build_inv _ _ _ _ Hb)
    as (_ & Hnames & _ & Hmcp & Hn & Heff & _).
  cbv zeta in Hmcp. rewrite <- Hnames in H2.
  destruct (construct_lookup _ _ _ t Heff Ht) as (eff & Re & Le).
  destruct (construct_lookup _ _ _ t Hn Ht) as (n & Rn & Ln).
  destruct (construct_lookup _ _ _ t Hmcp Ht) as (m & Rm & Lm).
  apply effectiveness_Ok in Re as (n' & Ln' & Ee).
  apply ntu_Ok in Rn as (m' & Lm' & En).
  pose proof (eq_trans (eq_sym Ln') Ln) as [= ->].
  pose proof (eq_trans (eq_sym Lm') Lm) as [= ->].
  apply (mcp_min_Ok {| self_names := blk_names b;
                       self_volume := blk_volume b |} _ H2) in Rm.
  exists eff, n, m. auto 10.
Qed.

(** The heat transfer equation of a built condenser. *)
Lemma built_heat_transfer_equation (declared : list string)
    (config : Config) (time : list Qc) (b : CondenserBlock)
    (c1 c2 : control_volume) :
  build declared config time = Ok b →
  build_volume_names config !! "side_1" = Some c1 →
  build_volume_names config !! "side_2" = Some c2 →
  (∀ t, t ∈ time →
     ∃ eff m,
       blk_effectiveness b !! t = Some eff
       ∧ blk_mcp_min b !! t = Some m
       ∧ blk_heat_transfer_equation b !! t
         = Some {| lhs := fun v => heat (volume v c2) t;
                   rhs := fun v =>
                     eff v * m v
                     * (temperature_sat (properties_in (volume v c1) t)
                        - temperature (properties_in (volume v c2) t)) |})
  ∧ (∀ t, t ∉ time → blk_heat_transfer_equation b !! t = None).
Proof.
  intros Hb H1 H2.
  destruct (condenser_build_inv _ _ _ _ Hb)
    as (_ & Hnames & _ & _ & _ & _ & Hht & Hhte & _).
  cbv zeta in Hht, Hhte. rewrite <- Hnames in H1, H2.
  set (self := {| self_names := blk_names b;
                  self_volume := blk_volume b |}) in *.
  pose proof (fun t => construct_constraint_lookup _ _ _ t Hhte) as Hl.
  split.
  - intros t Hin.
    destruct (construct_constraint_rule_Ok _ _ _ t Hhte Hin) as (r & Hr).
    destruct (construct_lookup _ _ _ t Hht Hin) as (ht & Rht & Lht).
    pose proof (Hl t) as L. rewrite decide_True in L by exact Hin.
    rewrite Hr in L.
    apply (heat_transfer_equation_Ok self _ _ H1 H2) in Hr
      as (ht' & Lht' & ->).
    pose proof (eq_trans (eq_sym Lht') Lht) as [= ->].
    apply (heat_transfer_Ok self _ _ H1 H2) in Rht
      as (eff & m & Le & Lm & ->).
    exists eff, m. split; [exact Le|]. split; [exact Lm|]. exact L.
  - intros t Hnot. rewrite Hl, decide_False by exact Hnot. reflexivity.
Qed.

End BuildFacts.

(** The sample condenser: the framework returns everywhere, and its
    control volumes have what the rules read. *)
Lemma helmholtz_state_complete : complete_state Examples.helmholtz_state.
Proof.
  split.
  - intros a Ha. unfold Examples.helmholtz_state. simpl.
    repeat (apply elem_of_cons in Ha as [->|Ha]; [set_solver|]).
    apply elem_of_nil in Ha. contradiction.
  - intros a Ha. unfold Examples.helmholtz_state. simpl.
    repeat (apply elem_of_cons in Ha as [->|Ha];
            [eexists; split; [reflexivity | set_solver]|]).
    apply elem_of_nil in Ha. contradiction.
Qed.

Lemma heater_volume_complete (time : list Qc) :
  complete_volume time (Examples.heater_volume time).
Proof.
  assert (Hl : ∀ t, t ∈ time →
             (list_to_map ((fun t => (t, Examples.helmholtz_state)) <$> time)
                : gmap Qc StateObj) !! t
             = Some Examples.helmholtz_state).
  { intros t Ht.
    destruct ((list_to_map
                 ((fun t => (t, Examples.helmholtz_state)) <$> time)
                 : gmap Qc StateObj) !! t) as [sb|] eqn:E.
    - apply elem_of_list_to_map_2 in E.
      apply list_elem_of_fmap in E as (t' & E & _).
      injection E as _ ->. reflexivity.
    - apply not_elem_of_list_to_map_2 in E. exfalso. apply E.
      rewrite <- list_fmap_compose. simpl.
      apply list_elem_of_fmap. exists t. auto. }
  split; [|split].
  - eexists. split; [reflexivity|].
    intros t Ht. apply elem_of_list_to_set. exact Ht.
  - intros t Ht. exists Examples.helmholtz_state.
    split; [apply Hl; exact Ht | exact helmholtz_state_complete].
  - intros t Ht. exists Examples.helmholtz_state.
    split; [apply Hl; exact Ht | exact helmholtz_state_complete].
Qed.
End CondenserFacts.

Module CondenserSpec.
Import Condenser CondenserFacts.

Section Built.
Context {framework : Framework}.

(** C6.  In a condenser that was built, at every time point [t] the
    effectiveness expression is [1 - exp(-ntu[t])], where [ntu[t]] is
    [U[t] * area / mcp_min[t]] and [mcp_min[t]] is the product of the
    inlet flow and the liquid heat capacity of [side_2]; the value of
    the effectiveness lies strictly between 0 and 1 whenever [ntu[t]] is
    positive. *)
Theorem effectiveness_of_ntu (declared : list string) (config : Config)
    (time : list Qc) (b : CondenserBlock) :
  build declared config time = Ok b →
  ∀ t, t ∈ time →
    ∃ eff n m c2,
      blk_effectiveness b !! t = Some eff
      ∧ blk_ntu b !! t = Some n
      ∧ blk_mcp_min b !! t = Some m
      ∧ blk_names b !! "side_2" = Some c2
      ∧ ∀ v, eff v = 1 - exp (- n v)
             ∧ n v = overall_heat_transfer_coefficient v t * area v / m v
             ∧ m v = flow_mol (properties_in (volume v c2) t)
                     * cp_mol_phase_Liq (properties_in (volume v c2) t)
             ∧ (0 < n v → 0 < eff v < 1).
Proof.
  intros Hb t Ht.
  destruct (condenser_build_inv _ _ _ _ Hb) as (_ & Hnames & _).
  pose proof (names_side_2 config) as H2.
  destruct (built_effectiveness _ _ _ _ _ t Hb H2 Ht)
    as (eff & n & m & Le & Ln & Lm & Ee & En & Em).
  exists eff, n, m. eexists.
  split; [exact Le|]. split; [exact Ln|]. split; [exact Lm|].
  split; [rewrite Hnames; exact H2|].
  intros v. rewrite Ee, En, Em.
  split; [reflexivity|]. split; [reflexivity|]. split; [reflexivity|].
  intros Hpos. apply exp_neg_bounds. exact Hpos.
Qed.

(** Where the cold side is not called side_1 and the hot side is not
    called side_2: in a condenser that was built, the unit heat balance
    has one member at every time point [t], the equation
    [0 == heat_hot[t] + heat_cold[t]], and no other members. *)
Lemma unit_heat_balance_generated (declared : list string)
    (config : Config) (time : list Qc) (b : CondenserBlock) :
  build declared config time = Ok b →
  cold_side_name config ≠ "side_1" → hot_side_name config ≠ "side_2" →
  (∀ t, t ∈ time →
     blk_unit_heat_balance b !! t
     = Some {| lhs := fun _ => 0;
               rhs := fun v => heat (volume v hot_volume) t
                               + heat (volume v cold_volume) t |})
  ∧ (∀ t, t ∉ time → blk_unit_heat_balance b !! t = None).
Proof.
  intros Hb Hc Hh.
  destruct (names_without_collision config Hc Hh) as (H1 & H2).
  exact (built_unit_heat_balance _ _ _ _ _ _ Hb H1 H2).
Qed.
End Built.

Section Samples.
#[local] Existing Instance Examples.framework.

(** With the sample framework, [build] returns on every configuration
    that [_process_config] accepts. *)
Lemma sample_build_returns (declared : list string) (config cfg : Config)
    (time : list Qc) :
  _process_config declared config = Ok cfg →
  ∃ b, build declared config time = Ok b.
Proof.
  intros Hcfg.
  eapply condenser_build_returns;
    first [ exact Hcfg | apply heater_volume_complete
          | intros; reflexivity | reflexivity ].
Qed.

Lemma effectiveness_of_ntu_witness :
  ∃ b, build Examples.declared Examples.config [0%Qc; 1%Qc] = Ok b
       ∧ ∃ eff, blk_effectiveness b !! 0%Qc = Some eff
                ∧ 0 < eff Examples.values < 1.
Proof.
  destruct (sample_build_returns Examples.declared Examples.config _
              [0%Qc; 1%Qc] eq_refl) as (b & Hb).
  exists b. split; [exact Hb|].
  destruct (effectiveness_of_ntu _ _ _ _ Hb 0%Qc)
    as (eff & n & m & c2 & He & _ & _ & _ & Hv); [left|].
  exists eff. split; [exact He|].
  destruct (Hv Examples.values) as (_ & Hnv & Hmv & Hbounds).
  apply Hbounds. rewrite Hnv, Hmv.
  destruct c2; simpl; lra.
Defined.

Lemma unit_heat_balance_generated_sample :
  ∃ b, build Examples.declared Examples.config [0%Qc; 1%Qc] = Ok b
       ∧ ∃ c, blk_unit_heat_balance b !! 1%Qc = Some c
              ∧ lhs c Examples.values_exchange = 0
              ∧ rhs c Examples.values_exchange = - (1) + 1.
Proof.
  destruct (sample_build_returns Examples.declared Examples.config _
              [0%Qc; 1%Qc] eq_refl) as (b & Hb).
  exists b. split; [exact Hb|].
  destruct (unit_heat_balance_generated _ _ _ _ Hb) as (Ht & _);
    [discriminate | discriminate |].
  eexists. split; [apply Ht; right; left|]. split; reflexivity.
Defined.

(** C7, with the cold side called side_1.  The configuration is accepted
    and the condenser is built; [self.side_1] is then the cold control
    volume, and the unit heat balance at every time point is
    [0 == heat_cold[t] + heat_cold[t]]: values at which the heat of the
    hot side and the heat of the cold side add up to zero do not satisfy
    it. *)
Theorem unit_heat_balance_with_cold_side_1 :
  hot_side_name Examples.config_collide
  ≠ cold_side_name Examples.config_collide
  ∧ ∃ b, build Examples.declared Examples.config_collide [0%Qc; 1%Qc] = Ok b
         ∧ blk_names b !! "side_1" = Some cold_volume
         ∧ blk_names b !! "side_2" = Some cold_volume
         ∧ Forall
             (fun t =>
                ∃ c, blk_unit_heat_balance b !! t = Some c
                     ∧ (∀ v, lhs c v = 0
                             ∧ rhs c v = heat (volume v cold_volume) t
                                         + heat (volume v cold_volume) t)
                     ∧ heat (volume Examples.values_exchange hot_volume) t
                       + heat (volume Examples.values_exchange cold_volume) t
                       = 0
                     ∧ lhs c Examples.values_exchange
                       ≠ rhs c Examples.values_exchange)
             [0%Qc; 1%Qc].
Proof.
  split; [discriminate|].
  destruct (sample_build_returns Examples.declared Examples.config_collide
              _ [0%Qc; 1%Qc] eq_refl) as (b & Hb).
  exists b. split; [exact Hb|].
  destruct (condenser_build_inv _ _ _ _ Hb) as (_ & Hnames & _).
  assert (H1 : build_volume_names Examples.config_collide !! "side_1"
               = Some cold_volume) by (rewrite names_side_1; reflexivity).
  assert (H2 : build_volume_names Examples.config_collide !! "side_2"
               = Some cold_volume) by (rewrite names_side_2; reflexivity).
  split; [rewrite Hnames; exact H1|]. split; [rewrite Hnames; exact H2|].
  destruct (built_unit_heat_balance _ _ _ _ _ _ Hb H1 H2) as (Ht & _).
  apply list.Forall_forall. intros t Hin.
  eexists. split; [apply Ht; exact Hin|].
  split; [intros v; split; reflexivity|].
  split; simpl; lra.
Qed.
End Samples.
End CondenserSpec.
(** ** The condenser's [initialize] *)
Module InitializeFacts.
Import Condenser.

Lemma same_components_refl (b : Block) : same_components b b.
Proof. split; reflexivity. Qed.

Lemma same_components_trans (b1 b2 b3 : Block) :
  same_components b1 b2 → same_components b2 b3 → same_components b1 b3.
Proof. intros [H1 H2] [H3 H4]. split; congruence. Qed.

Lemma dom_imap_total {A} (f : key → A → A) (m : gmap key A) :
  dom (map_imap (fun k a => Some (f k a)) m) = dom m.
Proof.
  apply set_eq. intros k. rewrite !elem_of_dom, map_lookup_imap.
  destruct (m !! k); simpl; split; intros [x Hx]; try discriminate; eauto.
Qed.

(** Restoring a snapshot gives back every flag it names. *)
Lemma from_json_fixed (sd : Snapshot) (b : Block) :
  dom (vars b) = dom (saved_vars sd) →
  fixed <$> vars (from_json sd b) = fixed <$> saved_vars sd.
Proof.
  intros Hdom. apply map_eq. intros k.
  unfold from_json. simpl. rewrite !lookup_fmap, map_lookup_imap.
  destruct (vars b !! k) as [d|] eqn:Hb; simpl.
  - assert (Hin : k ∈ dom (saved_vars sd))
      by (rewrite <- Hdom; apply elem_of_dom; eauto).
    apply elem_of_dom in Hin as [s Hs]. rewrite Hs. reflexivity.
  - assert (Hnot : saved_vars sd !! k = None).
    { apply not_elem_of_dom. rewrite <- Hdom. apply not_elem_of_dom. exact Hb. }
    rewrite Hnot. reflexivity.
Qed.

Lemma from_json_active (sd : Snapshot) (b : Block) :
  dom (cons b) = dom (saved_cons sd) →
  cons (from_json sd b) = saved_cons sd.
Proof.
  intros Hdom. apply map_eq. intros k.
  unfold from_json. simpl. rewrite map_lookup_imap.
  destruct (cons b !! k) as [a|] eqn:Hb; simpl.
  - assert (Hin : k ∈ dom (saved_cons sd))
      by (rewrite <- Hdom; apply elem_of_dom; eauto).
    apply elem_of_dom in Hin as [s Hs]. rewrite Hs. reflexivity.
  - symmetry. apply not_elem_of_dom. rewrite <- Hdom.
    apply not_elem_of_dom. exact Hb.
Qed.

(** A variable that was fixed gets its value back as well. *)
Lemma from_json_fixed_value (sd : Snapshot) (b : Block) (k : key)
    (d : VarData) :
  dom (vars b) = dom (saved_vars sd) →
  saved_vars sd !! k = Some d → fixed d = true →
  vars (from_json sd b) !! k = Some d.
Proof.
  intros Hdom Hs Hfixed. unfold from_json. simpl. rewrite map_lookup_imap.
  assert (Hin : k ∈ dom (vars b))
    by (rewrite Hdom; apply elem_of_dom; eauto).
  apply elem_of_dom in Hin as [d' Hd']. rewrite Hd'. simpl.
  rewrite Hs, Hfixed. destruct d as [x f]. simpl in *. subst f. reflexivity.
Qed.

Lemma M_bind_Ok {A B} (m : M A) (f : A → M B) (w w' : World) (a : A) :
  m w = (Ok a, w') → (m ≫= f) w = f a w'.
Proof. intros H. unfold mbind, M_bind. rewrite H. reflexivity. Qed.

Lemma Var_unfix_run (k : key) (w : World) (d : VarData) :
  vars (block w) !! k = Some d →
  Var_unfix k w
  = (Ok (),
     {| block :=
          {| vars := <[k := {| value := value d; fixed := false |}]>
                       (vars (block w));
             cons := cons (block w) |};
        calls := calls w |}).
Proof. intros H. unfold Var_unfix. rewrite H. reflexivity. Qed.

Lemma selected_var_time (config : Config) (unfix : string) (t t' : Qc) :
  selected_var config unfix t = selected_var config unfix t' → t = t'.
Proof.
  unfold selected_var, properties_in_var.
  repeat destruct (decide _); intros H; injection H; auto.
Qed.
End InitializeFacts.

Module InitializeSpec.
Import Condenser InitializeFacts.

Section Run.
Variables StateArgs Flags : Type.
Variable cv_initialize : side → option StateArgs → Block → Flags * Block.
Variable cv_release_state : side → Flags → Block → Block.
Variable opt_solve : Block → Block * TerminationCondition.
Variable config : Config.

(** The branch on [unfix] unfixes the selected variable at time 0. *)
Lemma unfix_selected (unfix : string) :
  unfix ∈ ["hot_flow"; "cold_flow"; "pressure"] →
  (if decide (unfix = "pressure")
   then Var_unfix (properties_in_var config "hot_side" 0%Qc "pressure")
   else if decide (unfix = "hot_flow")
   then Var_unfix (properties_in_var config "hot_side" 0%Qc "flow_mol")
   else if decide (unfix = "cold_flow")
   then Var_unfix (properties_in_var config "cold_side" 0%Qc "flow_mol")
   else mret ())
  = Var_unfix (selected_var config unfix 0%Qc).
Proof.
  intros Hin. unfold selected_var.
  destruct (decide (unfix = "pressure")); [reflexivity|].
  destruct (decide (unfix = "hot_flow")); [reflexivity|].
  destruct (decide (unfix = "cold_flow")); [reflexivity|].
  repeat (apply elem_of_cons in Hin as [->|Hin]; [congruence|]).
  apply elem_of_nil in Hin. contradiction.
Qed.

Lemma call_cv_initialize_run (s : side) (a : option StateArgs) (w : World)
    (f : Flags) (b : Block) :
  cv_initialize s a (block w) = (f, b) →
  call_cv_initialize StateArgs Flags cv_initialize s a w
  = (Ok f, {| block := b; calls := calls w ++ [cv_initialize_call s] |}).
Proof. intros H. unfold call_cv_initialize. rewrite H. reflexivity. Qed.

Lemma call_solve_run (w : World) (b : Block) (res : TerminationCondition) :
  opt_solve (block w) = (b, res) →
  call_solve opt_solve w
  = (Ok res, {| block := b; calls := calls w ++ [solve_call (block w)] |}).
Proof. intros H. unfold call_solve. rewrite H. reflexivity. Qed.

(** One run of [initialize] with a valid [unfix], step by step. *)
Lemma initialize_run (a1 a2 : option StateArgs) (unfix : string) (w : World)
    (f1 f2 : Flags) (s1 s2 s5 : Block) (d : VarData)
    (res : TerminationCondition) :
  unfix ∈ ["hot_flow"; "cold_flow"; "pressure"] →
  cv_initialize side_1 a1 (block w) = (f1, s1) →
  cv_initialize side_2 a2 s1 = (f2, s2) →
  vars s2 !! selected_var config unfix 0%Qc = Some d →
  opt_solve (solver_model s2 (selected_var config unfix 0%Qc) d) = (s5, res) →
  initialize StateArgs Flags cv_initialize cv_release_state opt_solve
    config a1 a2 unfix w
  = (Ok (),
     {| block := from_json (to_json (block w))
                   (cv_release_state side_2 f2
                      (cv_release_state side_1 f1 s5));
        calls := calls w
                 ++ [to_json_call; cv_initialize_call side_1;
                     cv_initialize_call side_2;
                     solve_call
                       (solver_model s2 (selected_var config unfix 0%Qc) d);
                     release_state_call side_1; release_state_call side_2;
                     from_json_call] |}).
Proof.
  intros Hvalid H1 H2 Hd Hsolve. unfold initialize.
  rewrite decide_False by (intros Hnot; exact (Hnot Hvalid)).
  rewrite (unfix_selected unfix Hvalid).
  erewrite M_bind_Ok by reflexivity.
  erewrite M_bind_Ok by (apply call_cv_initialize_run; exact H1).
  erewrite M_bind_Ok by (apply call_cv_initialize_run; exact H2).
  erewrite M_bind_Ok by reflexivity.
  erewrite M_bind_Ok by (apply Var_unfix_run; exact Hd).
  erewrite M_bind_Ok by (apply call_solve_run; exact Hsolve).
  erewrite M_bind_Ok by reflexivity.
  erewrite M_bind_Ok by reflexivity.
  unfold call_from_json, get_block, log, put_block, mbind, M_bind.
  cbn [block calls]. rewrite <- !app_assoc. reflexivity.
Qed.

Lemma solver_model_components (b : Block) (k : key) (d : VarData) :
  vars b !! k = Some d → same_components b (solver_model b k d).
Proof.
  intros Hd. split; simpl.
  - apply dom_insert_lookup_L. eauto.
  - apply dom_imap_total.
Qed.

(** C8.  With an [unfix] that is none of 'hot_flow', 'cold_flow' and
    'pressure', [initialize] raises and leaves the world as it found it:
    the block is unchanged and no call was made, so no snapshot was taken
    and the solver was not invoked. *)
Theorem initialize_rejects_unfix (a1 a2 : option StateArgs)
    (unfix : string) (w : World) :
  unfix ∉ ["hot_flow"; "cold_flow"; "pressure"] →
  ∃ msg, initialize StateArgs Flags cv_initialize cv_release_state opt_solve
    config a1 a2 unfix w = (Raise (Exception msg), w).
Proof.
  intros Hnot. unfold initialize.
  rewrite decide_True by exact Hnot.
  eexists. reflexivity.
Qed.

(** C2.  Let the control volumes' routines and the solver neither add nor
    remove components, and let the selected variable exist at time 0.
    Then [initialize], called with a valid [unfix], returns, whatever the
    solver did and reported, and on return every variable has the fixed
    flag and every constraint the active flag it had before the call;
    a variable that was fixed has its value back as well. *)
Theorem initialize_restores_flags (a1 a2 : option StateArgs)
    (unfix : string) (w : World) :
  unfix ∈ ["hot_flow"; "cold_flow"; "pressure"] →
  (∀ s a b, same_components b (cv_initialize s a b).2) →
  (∀ s f b, same_components b (cv_release_state s f b)) →
  (∀ b, same_components b (opt_solve b).1) →
  is_Some (vars (block w) !! selected_var config unfix 0%Qc) →
  ∃ w', initialize StateArgs Flags cv_initialize cv_release_state opt_solve
    config a1 a2 unfix w = (Ok (), w')
        ∧ fixed <$> vars (block w') = fixed <$> vars (block w)
        ∧ cons (block w') = cons (block w)
        ∧ ∀ k d, vars (block w) !! k = Some d → fixed d = true →
                 vars (block w') !! k = Some d.
Proof.
  intros Hvalid Hinit Hrel Hsolve Hsel.
  destruct (cv_initialize side_1 a1 (block w)) as [f1 s1] eqn:H1.
  destruct (cv_initialize side_2 a2 s1) as [f2 s2] eqn:H2.
  pose proof (Hinit side_1 a1 (block w)) as C1. rewrite H1 in C1.
  pose proof (Hinit side_2 a2 s1) as C2. rewrite H2 in C2. simpl in C1, C2.
  pose proof (same_components_trans _ _ _ C1 C2) as C02.
  assert (Hd : is_Some (vars s2 !! selected_var config unfix 0%Qc)).
  { apply elem_of_dom. rewrite (proj1 C02). apply elem_of_dom. exact Hsel. }
  destruct Hd as [d Hd].
  set (m := solver_model s2 (selected_var config unfix 0%Qc) d).
  destruct (opt_solve m) as [s5 res] eqn:H5.
  pose proof (solver_model_components s2 _ d Hd) as Cm. fold m in Cm.
  pose proof (Hsolve m) as C5. rewrite H5 in C5. simpl in C5.
  pose proof (Hrel side_1 f1 s5) as C6.
  pose proof (Hrel side_2 f2 (cv_release_state side_1 f1 s5)) as C7.
  assert (Call : same_components (block w)
                   (cv_release_state side_2 f2
                      (cv_release_state side_1 f1 s5))).
  { repeat (eapply same_components_trans; [eassumption|]).
    apply same_components_refl. }
  destruct Call as [Hv Hc].
  eexists. split.
  { apply (initialize_run a1 a2 unfix w f1 f2 s1 s2 s5 d res); assumption. }
  cbn [block]. split; [|split].
  - apply from_json_fixed. exact Hv.
  - apply from_json_active. exact Hc.
  - intros k d' Hk Hf. apply from_json_fixed_value; assumption.
Qed.

(** C10.  Let [s2] be the block the control volumes' initialisation
    leaves, with the selected variable present at time 0.  [initialize]
    then returns after exactly one solver call, on a model [m] in which the
    selected variable is unfixed at time 0 and every other variable, the
    selected one at every other time among them, is as it was in [s2]. *)
Theorem initialize_unfixes_at_time_0 (a1 a2 : option StateArgs)
    (unfix : string) (w : World) (f1 f2 : Flags) (s1 s2 : Block) :
  unfix ∈ ["hot_flow"; "cold_flow"; "pressure"] →
  cv_initialize side_1 a1 (block w) = (f1, s1) →
  cv_initialize side_2 a2 s1 = (f2, s2) →
  is_Some (vars s2 !! selected_var config unfix 0%Qc) →
  ∃ w' m,
    initialize StateArgs Flags cv_initialize cv_release_state opt_solve
    config a1 a2 unfix w = (Ok (), w')
    ∧ calls w' = calls w
                 ++ [to_json_call; cv_initialize_call side_1;
                     cv_initialize_call side_2; solve_call m;
                     release_state_call side_1; release_state_call side_2;
                     from_json_call]
    ∧ fixed <$> vars m !! selected_var config unfix 0%Qc = Some false
    ∧ (∀ t, t ≠ 0%Qc →
         vars m !! selected_var config unfix t
         = vars s2 !! selected_var config unfix t)
    ∧ (∀ k, k ≠ selected_var config unfix 0%Qc →
            vars m !! k = vars s2 !! k).
Proof.
  intros Hvalid H1 H2 [d Hd].
  set (m := solver_model s2 (selected_var config unfix 0%Qc) d).
  destruct (opt_solve m) as [s5 res] eqn:H5.
  eexists _, m. split.
  { apply (initialize_run a1 a2 unfix w f1 f2 s1 s2 s5 d res); assumption. }
  split; [reflexivity|].
  assert (Hother : ∀ k, k ≠ selected_var config unfix 0%Qc →
                        vars m !! k = vars s2 !! k).
  { intros k Hne. unfold m, solver_model. simpl.
    apply lookup_insert_ne. congruence. }
  split; [|split].
  - unfold m, solver_model. simpl. rewrite lookup_insert_eq. reflexivity.
  - intros t Hne. apply Hother.
    intros Heq. apply Hne. exact (selected_var_time config unfix t 0%Qc Heq).
  - exact Hother.
Qed.
End Run.

(** The three statements on a condenser over the times 0 and 1, with
    control volumes that hold the state and a solver that gives up. *)
Lemma initialize_rejects_unfix_witness :
  ∃ msg,
    initialize unit (gmap key bool) Examples.cv_initialize_hold
      Examples.cv_release_state_hold Examples.solve_gives_up
      Examples.config None None
      "flowrate" Examples.world_0
    = (Raise (Exception msg), Examples.world_0).
Proof.
  apply (initialize_rejects_unfix unit (gmap key bool)
           Examples.cv_initialize_hold Examples.cv_release_state_hold
           Examples.solve_gives_up Examples.config None None "flowrate"
           Examples.world_0).
  intros Hin.
  repeat (apply elem_of_cons in Hin as [Heq|Hin]; [discriminate Heq|]).
  apply elem_of_nil in Hin. exact Hin.
Defined.

Lemma hot_flow_valid : "hot_flow" ∈ ["hot_flow"; "cold_flow"; "pressure"].
Proof. left. Defined.

Lemma hot_flow_present :
  is_Some (vars Examples.block_0
           !! selected_var Examples.config "hot_flow" 0%Qc).
Proof.
  exists {| value := 1; fixed := true |}. apply lookup_insert_eq.
Defined.

Lemma hold_components (s : side) (a : option unit) (b : Block) :
  same_components b (Examples.cv_initialize_hold s a b).2.
Proof. split; simpl; [apply dom_fmap_L | reflexivity]. Defined.

Lemma release_components (s : side) (flags : gmap key bool) (b : Block) :
  same_components b (Examples.cv_release_state_hold s flags b).
Proof. split; simpl; [apply dom_imap_total | reflexivity]. Defined.

Lemma gives_up_components (b : Block) :
  same_components b (Examples.solve_gives_up b).1.
Proof. split; simpl; [apply dom_fmap_L | reflexivity]. Defined.

Lemma initialize_restores_flags_witness :
  ∃ w', initialize unit (gmap key bool) Examples.cv_initialize_hold
          Examples.cv_release_state_hold Examples.solve_gives_up
          Examples.config None None
          "hot_flow" Examples.world_0 = (Ok (), w')
        ∧ fixed <$> vars (block w') = fixed <$> vars Examples.block_0
        ∧ cons (block w') = cons Examples.block_0.
Proof.
  destruct (initialize_restores_flags unit (gmap key bool)
              Examples.cv_initialize_hold Examples.cv_release_state_hold
              Examples.solve_gives_up Examples.config None None "hot_flow"
              Examples.world_0
              hot_flow_valid hold_components release_components
              gives_up_components hot_flow_present)
    as (w' & Hrun & Hfixed & Hactive & _).
  exists w'. split; [exact Hrun|]. split; [exact Hfixed | exact Hactive].
Defined.

Lemma hot_flow_held :
  is_Some
    (vars (Examples.cv_initialize_hold side_2 None
             (Examples.cv_initialize_hold side_1 None Examples.block_0).2).2
     !! selected_var Examples.config "hot_flow" 0%Qc).
Proof.
  unfold Examples.cv_initialize_hold. cbn [snd vars].
  rewrite !lookup_fmap.
  destruct hot_flow_present as [d Hd]. rewrite Hd. eexists. reflexivity.
Defined.

(** The hot inlet flow at time 1 was free before the call; the control
    volumes hold it, and it stays held in the model the solver gets. *)
Lemma initialize_unfixes_at_time_0_witness :
  ∃ w' m,
    initialize unit (gmap key bool) Examples.cv_initialize_hold
      Examples.cv_release_state_hold Examples.solve_gives_up
      Examples.config None None
      "hot_flow" Examples.world_0 = (Ok (), w')
    ∧ solve_call m ∈ calls w'
    ∧ fixed <$> vars m !! selected_var Examples.config "hot_flow" 0%Qc
      = Some false
    ∧ vars m !! selected_var Examples.config "hot_flow" 1%Qc
      = vars (Examples.cv_initialize_hold side_2 None
                (Examples.cv_initialize_hold side_1 None
                   Examples.block_0).2).2
        !! selected_var Examples.config "hot_flow" 1%Qc.
Proof.
  destruct (initialize_unfixes_at_time_0 unit (gmap key bool)
              Examples.cv_initialize_hold Examples.cv_release_state_hold
              Examples.solve_gives_up Examples.config None None "hot_flow"
              Examples.world_0 _ _ _ _ hot_flow_valid eq_refl eq_refl
              hot_flow_held)
    as (w' & m & Hrun & Hcalls & H0 & Ht & _).
  exists w', m. split; [exact Hrun|]. split; [|split].
  - rewrite Hcalls. simpl. do 3 right. left.
  - exact H0.
  - apply Ht. discriminate.
Defined.

End InitializeSpec.

(** ** More of the PID block *)
Module PIDMore.
Import OrderedSet PID PIDFacts PIDBuild.

Lemma time_R_pos (q : Qc) : (0 < q)%Qc → 0 < time_R q.
Proof.
  intros Hq. pose proof (Qlt_Rlt _ _ Hq) as H.
  unfold time_R. change (Q2R 0 < Q2R q) in H.
  rewrite RMicromega.Q2R_0 in H. exact H.
Qed.

(** With exact differences a later point is a positive step away. *)
Lemma exact_steps_positive (p t : Qc) :
  (p < t)%Qc → (0 < @time_sub Examples.exact_steps t p)%Qc.
Proof.
  intros Hlt. simpl. unfold Qcminus.
  exact (proj1 (Qclt_minus_iff p t) Hlt).
Defined.

Lemma exact_steps_exact (s t : Qc) :
  @time_sub Examples.exact_steps t s = (t - s)%Qc.
Proof. reflexivity. Defined.

Section General.
Context {arith : TimeArith}.

Lemma build_without_pv smooth_max smooth_min (config : Config.t)
    (time_set : list Qc) :
  Config.pv config = None →
  build smooth_max smooth_min config time_set
  = Raise (ConfigurationError "Controller configuration requires 'pv'").
Proof. intros H. unfold build. rewrite H. reflexivity. Qed.

Lemma build_without_output smooth_max smooth_min (config : Config.t)
    (time_set : list Qc) :
  is_Some (Config.pv config) → Config.output config = None →
  build smooth_max smooth_min config time_set
  = Raise (ConfigurationError "Controller configuration requires 'output'").
Proof. intros [pv Hpv] H. unfold build. rewrite Hpv, H. reflexivity. Qed.

Lemma build_without_time smooth_max smooth_min (config : Config.t) :
  is_Some (Config.pv config) → is_Some (Config.output config) →
  build smooth_max smooth_min config [] = Raise IndexError.
Proof.
  intros [pv Hpv] [output Hout]. unfold build. rewrite Hpv, Hout. reflexivity.
Qed.

Ltac settle_outcome :=
  unfold is_Some; repeat split; intros;
  repeat match goal with
         | H : _ ∧ _ |- _ => destruct H
         | H : ∃ _, _ |- _ => destruct H
         | H : _ ∨ _ |- _ => destruct H
         end;
  try discriminate; try congruence; try contradiction;
  try match goal with
      | H : true = true → _, N : ¬ _ |- _ => destruct (N (H eq_refl))
      end;
  eauto.

(** X1.  What [build] does on every input: it returns a block exactly when
    both references are supplied, the time set is not empty and, if
    [err_i0] is to be calculated, has the point 0; otherwise it raises
    [ConfigurationError] for a missing reference, [IndexError] for an empty
    time set and [KeyError] for a missing point 0, in this order of
    precedence. *)
Theorem build_outcome smooth_max smooth_min (config : Config.t)
    (time_set : list Qc) :
  ((∃ b, build smooth_max smooth_min config time_set = Ok b)
   ↔ is_Some (Config.pv config) ∧ is_Some (Config.output config)
     ∧ time_set ≠ []
     ∧ (Config.calculate_initial_integral config = true → 0%Qc ∈ time_set))
  ∧ ((∃ msg, build smooth_max smooth_min config time_set
             = Raise (ConfigurationError msg))
     ↔ Config.pv config = None ∨ Config.output config = None)
  ∧ (build smooth_max smooth_min config time_set = Raise IndexError
     ↔ is_Some (Config.pv config) ∧ is_Some (Config.output config)
       ∧ time_set = [])
  ∧ (build smooth_max smooth_min config time_set = Raise KeyError
     ↔ is_Some (Config.pv config) ∧ is_Some (Config.output config)
       ∧ time_set ≠ []
       ∧ Config.calculate_initial_integral config = true
       ∧ 0%Qc ∉ time_set).
Proof.
  destruct (Config.pv config) as [pv|] eqn:Hpv.
  2:{ rewrite (build_without_pv _ _ _ _ Hpv).
      settle_outcome. }
  destruct (Config.output config) as [output|] eqn:Hout.
  2:{ rewrite (build_without_output _ _ _ _ (ex_intro _ pv Hpv) Hout).
      settle_outcome. }
  destruct time_set as [|t0 rest].
  { rewrite (build_without_time _ _ _ (ex_intro _ pv Hpv)
               (ex_intro _ output Hout)).
    settle_outcome. }
  destruct (Config.calculate_initial_integral config) eqn:Hcalc.
  - destruct (decide (0%Qc ∈ t0 :: rest)) as [H0|H0].
    + destruct (build_returns smooth_max smooth_min config pv output t0 rest
                  Hpv Hout (fun _ => H0)) as (b & Hb & _).
      rewrite Hb. settle_outcome.
    + rewrite (build_raises_KeyError smooth_max smooth_min config pv output
                 t0 rest Hpv Hout Hcalc H0).
      settle_outcome.
  - destruct (build_returns smooth_max smooth_min config pv output t0 rest
                Hpv Hout) as (b & Hb & _); [rewrite Hcalc; discriminate|].
    rewrite Hb. settle_outcome.
Qed.

(** *** Facts about the trapezoidal sum *)

Lemma sorted_lookup_lt (l : list Qc) :
  StronglySorted Qclt l →
  ∀ i j x y, (i < j)%nat → l !! i = Some x → l !! j = Some y → (x < y)%Qc.
Proof.
  induction 1 as [|a l Hs IH Hall]; intros i j x y Hij Hi Hj.
  - rewrite lookup_nil in Hi. discriminate.
  - destruct j as [|j]; [lia|]. simpl in Hj.
    destruct i as [|i]; simpl in Hi.
    + injection Hi as <-.
      apply (proj1 (list.Forall_forall _ _) Hall).
      apply list_elem_of_lookup. exists j. exact Hj.
    + apply (IH i j); [lia | assumption | assumption].
Qed.

Lemma sorted_lookup_le (l : list Qc) (i j : nat) (x y : Qc) :
  StronglySorted Qclt l → l !! i = Some x → l !! j = Some y →
  (x ≤ y)%Qc → (i ≤ j)%nat.
Proof.
  intros Hs Hi Hj Hle.
  destruct (decide (i ≤ j)%nat) as [|Hgt]; [assumption|].
  assert (Hlt : (y < x)%Qc)
    by (apply (sorted_lookup_lt l Hs j i); [lia | assumption | assumption]).
  destruct (Qclt_not_le _ _ Hlt Hle).
Qed.

Lemma trapezoid_sum_app (f : Qc → R) (l1 l2 : list Qc) :
  ∀ p, trapezoid_sum f p (l1 ++ l2)
       = trapezoid_sum f p l1
         + trapezoid_sum f (default p (list.last l1)) l2.
Proof.
  induction l1 as [|x l1 IH]; intros p; simpl.
  - lra.
  - rewrite IH.
    replace (default p (list.last (x :: l1))) with (default x (list.last l1))
      by (rewrite last_cons; destruct (list.last l1); reflexivity).
    lra.
Qed.

Lemma trapezoid_sum_ext (f g : Qc → R) (l : list Qc) :
  ∀ p, (∀ t, t ∈ p :: l → f t = g t) →
       trapezoid_sum f p l = trapezoid_sum g p l.
Proof.
  induction l as [|x l IH]; intros p Heq; simpl; [reflexivity|].
  rewrite (Heq x) by (right; left).
  rewrite (Heq p) by left.
  rewrite (IH x); [reflexivity|].
  intros t Ht. apply Heq. right. exact Ht.
Qed.

(** The rule is exact for an integrand that is affine in time, when the
    widths are computed without rounding. *)
Lemma trapezoid_sum_affine (f : Qc → R) (a c : R) (l : list Qc) :
  ∀ p, (∀ s t, s ∈ p :: l → t ∈ p :: l → time_sub t s = (t - s)%Qc) →
       (∀ t, t ∈ p :: l → f t = a + c * time_R t) →
       trapezoid_sum f p l
       = a * (time_R (default p (list.last l)) - time_R p)
         + c * ((time_R (default p (list.last l)))² - (time_R p)²) / 2.
Proof.
  induction l as [|x l IH]; intros p Hex Hf; simpl.
  - unfold Rsqr. lra.
  - rewrite (IH x);
      [|intros s t Hs Ht; apply Hex; right; assumption
       |intros t Ht; apply Hf; right; exact Ht].
    rewrite (Hf x) by (right; left).
    rewrite (Hf p) by left.
    rewrite (Hex p x) by (first [left | right; left]).
    rewrite time_R_minus.
    replace (default p (list.last (x :: l))) with (default x (list.last l))
      by (rewrite last_cons; destruct (list.last l); reflexivity).
    unfold Rsqr. lra.
Qed.

Lemma trapezoid_sum_nonneg (f : Qc → R) (l : list Qc) :
  (∀ p t, (p < t)%Qc → (0 < time_sub t p)%Qc) →
  ∀ p, StronglySorted Qclt (p :: l) →
       (∀ t, t ∈ p :: l → 0 <= f t) →
       0 <= trapezoid_sum f p l.
Proof.
  intros Hstep.
  induction l as [|x l IH]; intros p Hs Hf; simpl; [lra|].
  apply StronglySorted_cons in Hs as [Hall Hs].
  apply list.Forall_cons in Hall as [Hpx _].
  pose proof (IH x Hs (fun t Ht => Hf t (list_elem_of_further _ _ _ Ht))) as Hrec.
  pose proof (Hf x ltac:(right; left)) as Hx.
  pose proof (Hf p ltac:(left)) as Hp.
  assert (Hw : 0 < time_R (time_sub x p))
    by (apply time_R_pos, Hstep; exact Hpx).
  assert (0 <= (f x + f p) * time_R (time_sub x p))
    by (apply Rmult_le_pos; lra).
  lra.
Qed.

Lemma filter_at_first (t0 : Qc) (l : list Qc) :
  filter (fun t => (t ≤ t0)%Qc ∧ (t0 < t)%Qc) l = [].
Proof.
  induction l as [|x l IH]; [reflexivity|].
  rewrite filter_cons_False; [exact IH|].
  intros [Hle Hlt]. exact (Qclt_not_le _ _ Hlt Hle).
Qed.

(** At the first time point the sum in [err_i] is empty, whatever the
    order of the other points. *)
Lemma err_i_first pv output calc (time_set : list Qc) (t0 : Qc) (e0 : Expr) :
  err_i0 time_set pv output calc t0 = Ok e0 →
  err_i time_set pv output calc t0 t0 = Ok (fun v => e0 v + 0).
Proof.
  intros He0. unfold err_i. rewrite He0. simpl.
  rewrite filter_at_first. reflexivity.
Qed.

(** The value of [err_i0] depends on the settings at the first time point
    only. *)
Lemma err_i0_agree pv output calc (time_set : list Qc) (t0 : Qc)
    (e0 : Expr) (v v' : Values) :
  err_i0 time_set pv output calc t0 = Ok e0 →
  gain v t0 = gain v' t0 → time_i v t0 = time_i v' t0 →
  time_d v t0 = time_d v' t0 → err_d0 v = err_d0 v' →
  err_i0_var v = err_i0_var v' →
  e0 v = e0 v'.
Proof.
  intros He0 Hg Hi Hd Hd0 Hvar. unfold err_i0 in He0.
  destruct calc.
  - unfold err_i0_expression, getitem in He0.
    destruct (decide (0%Qc ∈ time_set)); [|discriminate He0].
    simpl in He0. rewrite err_d_first in He0. simpl in He0.
    injection He0 as <-. unfold pterm. rewrite Hg, Hi, Hd, Hd0. reflexivity.
  - injection He0 as <-. exact Hvar.
Qed.

Lemma err_d_agree pv (time_set : list Qc) (t0 t : Qc) (e : Expr)
    (v v' : Values) :
  err_d time_set pv t0 t = Ok e → err_d0 v = err_d0 v' → e v = e v'.
Proof.
  intros He Hd0. unfold err_d in He.
  destruct (decide (t = t0)).
  - injection He as <-. exact Hd0.
  - apply bind_Ok in He as (p & _ & He). injection He as <-. reflexivity.
Qed.

Section MoreStatements.
Variables smooth_max smooth_min : R → R → R → R.
Variable config : Config.t.
Variables pv output : Qc → R.
Variable t0 : Qc.
Variable rest : list Qc.

Hypothesis pv_supplied : Config.pv config = Some pv.
Hypothesis output_supplied : Config.output config = Some output.
Hypothesis time_sorted : StronglySorted Qclt (t0 :: rest).
Hypothesis err_i0_defined :
  Config.calculate_initial_integral config = true → 0%Qc ∈ t0 :: rest.

(** The built block with all its expressions. *)
Lemma built_expressions :
  ∃ b, build smooth_max smooth_min config (t0 :: rest) = Ok b
       ∧ construct (err_d (t0 :: rest) pv t0) (t0 :: rest) = Ok (blk_err_d b)
       ∧ err_i0 (t0 :: rest) pv output
           (Config.calculate_initial_integral config) t0
         = Ok (blk_err_i0 b)
       ∧ construct
           (err_i (t0 :: rest) pv output
              (Config.calculate_initial_integral config) t0) (t0 :: rest)
         = Ok (blk_err_i b)
       ∧ construct
           (unconstrained_output (t0 :: rest) pv output
              (Config.calculate_initial_integral config) t0) (t0 :: rest)
         = Ok (blk_unconstrained_output b).
Proof.
  destruct (build_returns smooth_max smooth_min config pv output t0 rest
              pv_supplied output_supplied err_i0_defined)
    as (b & Hb & Ht0).
  exists b. split; [exact Hb|].
  destruct (build_inv _ _ _ _ _ Hb)
    as (pv' & output' & Hpv & Hout & _ & Hed & Hei0 & Hei & Huo & _).
  rewrite pv_supplied in Hpv. injection Hpv as <-.
  rewrite output_supplied in Hout. injection Hout as <-.
  rewrite Ht0 in *. repeat split; assumption.
Qed.

(** The block's [err_i] in closed form on a strictly increasing set. *)
Lemma built_err_i (b : PIDBlock) (k : nat) (t : Qc) :
  err_i0 (t0 :: rest) pv output
    (Config.calculate_initial_integral config) t0 = Ok (blk_err_i0 b) →
  construct
    (err_i (t0 :: rest) pv output
       (Config.calculate_initial_integral config) t0) (t0 :: rest)
  = Ok (blk_err_i b) →
  (t0 :: rest) !! k = Some t →
  ∃ e, blk_err_i b !! t = Some e
       ∧ err_i (t0 :: rest) pv output
           (Config.calculate_initial_integral config) t0 t = Ok e
       ∧ ∀ v, e v = blk_err_i0 b v
                    + trapezoid_sum (fun s => iterm pv s v) t0 (take k rest).
Proof.
  intros Hei0 Hei Hk.
  assert (Hin : t ∈ t0 :: rest)
    by (apply list_elem_of_lookup; exists k; exact Hk).
  destruct (construct_lookup _ _ _ t Hei Hin) as (e & He & Hl).
  destruct (err_i_sorted pv output _ (t0 :: rest) t0 t rest k _
              time_sorted eq_refl Hei0 Hk) as (e' & He' & Hv).
  rewrite He in He'. injection He' as <-.
  exists e. repeat split; assumption.
Qed.

(** X2.  The derivative error is the backward difference of the
    measurement.  Let the time set be strictly increasing and hold the
    point 0 if [err_i0] is to be calculated, so that the block is built,
    and let the width of a step, [t - p] as the code computes it, be
    positive.  Then [err_d[t0]] is [err_d0], and at every later time
    point [t] with previous point [p],
    [err_d[t] * (t - p) = pv[p] - pv[t]] with that width, whatever the
    setpoint. *)
Theorem err_d_backward_difference :
  (∀ p t, (p < t)%Qc → (0 < time_sub t p)%Qc) →
  ∃ b, build smooth_max smooth_min config (t0 :: rest) = Ok b
       ∧ (∃ e, blk_err_d b !! t0 = Some e ∧ ∀ v, e v = err_d0 v)
       ∧ ∀ t, t ∈ rest →
           ∃ p e, prev (t0 :: rest) t = Ok p
                  ∧ blk_err_d b !! t = Some e
                  ∧ 0 < time_R (time_sub t p)
                  ∧ ∀ v, e v * time_R (time_sub t p) = pv p - pv t.
Proof.
  intros Hstep.
  destruct built_expressions as (b & Hb & Hed & _).
  exists b. split; [exact Hb|]. split.
  - destruct (construct_lookup _ _ _ t0 Hed) as (e & He & Hl); [left|].
    rewrite err_d_first in He. injection He as <-.
    eexists. split; [exact Hl | reflexivity].
  - intros t Hin.
    destruct (sorted_split t0 t rest Hin) as (pre & p & post & Hsplit).
    assert (Hs : StronglySorted Qclt (pre ++ p :: t :: post))
      by (rewrite <- Hsplit; exact time_sorted).
    pose proof (sorted_prev _ _ _ _ Hs) as Hprev. rewrite <- Hsplit in Hprev.
    destruct (sorted_middle _ _ _ _ Hs) as (_ & Hne & Hlt).
    destruct (construct_lookup _ _ _ t Hed) as (e & He & Hl);
      [right; exact Hin|].
    assert (Hne0 : t ≠ t0).
    { intros ->. apply StronglySorted_cons in time_sorted as [Hall _].
      exact (Qclt_irrefl t0 (proj1 (list.Forall_forall _ _) Hall t0 Hin)). }
    unfold err_d in He. rewrite decide_False in He by exact Hne0.
    rewrite Hprev in He. simpl in He. injection He as <-.
    pose proof (time_R_pos _ (Hstep p t Hlt)) as Hw.
    exists p. eexists. split; [exact Hprev|]. split; [exact Hl|].
    split; [exact Hw|].
    intros v. cbv beta. unfold dterm. field. lra.
Qed.

(** X3.  Where the widths of the time steps are computed without
    rounding (the difference of any two time points is what the code
    computes for them, as for int time points), the integral error is
    exact for a setpoint error that is affine in time: on a strictly
    increasing time set that holds the point 0 if [err_i0] is to be
    calculated, if [err[s] = a + c * s] at the points of the time set,
    then [err_i[t] = err_i0 + a * (t - t0) + c * (t² - t0²) / 2] at
    every time point.  Nothing is stated for widths that are rounded. *)
Theorem err_i_exact_for_affine_error :
  (∀ s t, s ∈ t0 :: rest → t ∈ t0 :: rest → time_sub t s = (t - s)%Qc) →
  ∃ b, build smooth_max smooth_min config (t0 :: rest) = Ok b
       ∧ ∀ (v : Values) (a c : R),
           (∀ s, s ∈ t0 :: rest → err pv s v = a + c * time_R s) →
           ∀ t, t ∈ t0 :: rest →
             ∃ e, blk_err_i b !! t = Some e
                  ∧ e v = blk_err_i0 b v
                          + a * (time_R t - time_R t0)
                          + c * ((time_R t)² - (time_R t0)²) / 2.
Proof.
  intros Hex.
  destruct built_expressions as (b & Hb & _ & Hei0 & Hei & _).
  exists b. split; [exact Hb|].
  intros v a c Haff t Hin.
  pose proof Hin as [k Hk]%list_elem_of_lookup.
  destruct (built_err_i b k t Hei0 Hei Hk) as (e & Hl & _ & Hv).
  exists e. split; [exact Hl|].
  rewrite Hv.
  assert (Hsub : ∀ s, s ∈ t0 :: take k rest → s ∈ t0 :: rest).
  { intros s Hs. apply elem_of_cons in Hs as [->|Hs]; [left|right].
    apply elem_of_take in Hs as (i & Hi & _).
    apply list_elem_of_lookup. exists i. exact Hi. }
  rewrite (trapezoid_sum_affine (fun s => iterm pv s v) a c).
  - rewrite (last_take t0 t rest k Hk). lra.
  - intros s t' Hs Ht'. apply Hex; apply Hsub; assumption.
  - intros s Hs. unfold iterm. apply Haff, Hsub, Hs.
Qed.

(** X4.  The integral error does not decrease while the setpoint error is not
    negative: for time points [t1 <= t2] of the time set,
    [err_i[t1] <= err_i[t2]].  The width of a step, [t - p] as the code
    computes it, is positive. *)
Theorem err_i_monotone :
  (∀ p t, (p < t)%Qc → (0 < time_sub t p)%Qc) →
  ∃ b, build smooth_max smooth_min config (t0 :: rest) = Ok b
       ∧ ∀ (v : Values),
           (∀ s, s ∈ t0 :: rest → 0 <= err pv s v) →
           ∀ t1 t2, t1 ∈ t0 :: rest → t2 ∈ t0 :: rest → (t1 ≤ t2)%Qc →
             ∃ e1 e2, blk_err_i b !! t1 = Some e1
                      ∧ blk_err_i b !! t2 = Some e2
                      ∧ e1 v <= e2 v.
Proof.
  intros Hstep.
  destruct built_expressions as (b & Hb & _ & Hei0 & Hei & _).
  exists b. split; [exact Hb|].
  intros v Hpos t1 t2 Hin1 Hin2 Hle.
  pose proof Hin1 as [k1 Hk1]%list_elem_of_lookup.
  pose proof Hin2 as [k2 Hk2]%list_elem_of_lookup.
  destruct (built_err_i b k1 t1 Hei0 Hei Hk1) as (e1 & Hl1 & _ & Hv1).
  destruct (built_err_i b k2 t2 Hei0 Hei Hk2) as (e2 & Hl2 & _ & Hv2).
  exists e1, e2. split; [exact Hl1|]. split; [exact Hl2|].
  rewrite Hv1, Hv2.
  pose proof (sorted_lookup_le _ _ _ _ _ time_sorted Hk1 Hk2 Hle) as Hk.
  replace (take k2 rest) with (take k1 rest ++ take (k2 - k1) (drop k1 rest))
    by (rewrite take_take_drop; f_equal; lia).
  rewrite trapezoid_sum_app, (last_take t0 t1 rest k1 Hk1).
  assert (Hs : StronglySorted Qclt (t1 :: take (k2 - k1) (drop k1 rest))).
  { destruct k1 as [|k1]; simpl in Hk1.
    - injection Hk1 as <-. rewrite drop_0.
      apply StronglySorted_cons in time_sorted as [Hall Hsr].
      apply StronglySorted_cons. split.
      + apply (Forall_take _ _ _ Hall).
      + rewrite <- (take_drop (k2 - 0) rest) in Hsr.
        exact (StronglySorted_app_1_l _ _ _ Hsr).
    - apply StronglySorted_cons in time_sorted as [_ Hsr].
      rewrite <- (take_drop (S k1) rest) in Hsr at 1.
      rewrite <- (take_drop (k2 - S k1) (drop (S k1) rest)) in Hsr.
      rewrite (take_S_r _ _ _ Hk1) in Hsr.
      rewrite <- !app_assoc in Hsr. simpl in Hsr.
      apply StronglySorted_app_1_r in Hsr.
      replace (t1 :: take (k2 - S k1) (drop (S k1) rest)
               ++ drop (k2 - S k1) (drop (S k1) rest))
        with ((t1 :: take (k2 - S k1) (drop (S k1) rest))
              ++ drop (k2 - S k1) (drop (S k1) rest)) in Hsr by reflexivity.
      exact (StronglySorted_app_1_l _ _ _ Hsr). }
  assert (Hnn : 0 <= trapezoid_sum (fun s => iterm pv s v) t1
                       (take (k2 - k1) (drop k1 rest))).
  { apply trapezoid_sum_nonneg; [exact Hstep|exact Hs|].
    intros s Hs'. unfold iterm. apply Hpos.
    apply elem_of_cons in Hs' as [->|Hs']; [exact Hin1|]. right.
    apply elem_of_take in Hs' as (i & Hi & _).
    rewrite lookup_drop in Hi.
    apply list_elem_of_lookup. eexists. exact Hi. }
  lra.
Qed.

(** X5.  Of the block's own variables, the unconstrained output at a time
    point [t] reads the setpoints up to [t], the settings at [t] and at
    [t0] and the initial error terms, and nothing else: for given
    trajectories [pv] and [output] it is the same for any two sets of
    values that agree on these.  Setpoints after [t] and settings at
    other times play no part.  (What it reads of [pv] and [output] is
    not stated here; [err_i0] reads [output[0]].) *)
Theorem unconstrained_output_ignores_later_setpoints :
  ∃ b, build smooth_max smooth_min config (t0 :: rest) = Ok b
       ∧ ∀ (k : nat) (t : Qc), (t0 :: rest) !! k = Some t →
           ∃ u, blk_unconstrained_output b !! t = Some u
                ∧ ∀ v v',
                    (∀ s, s ∈ t0 :: take k rest → setpoint v s = setpoint v' s) →
                    (∀ s, s = t ∨ s = t0 →
                          gain v s = gain v' s ∧ time_i v s = time_i v' s
                          ∧ time_d v s = time_d v' s) →
                    err_d0 v = err_d0 v' → err_i0_var v = err_i0_var v' →
                    u v = u v'.
Proof.
  destruct built_expressions as (b & Hb & _ & Hei0 & Hei & Huo).
  exists b. split; [exact Hb|].
  intros k t Hk.
  assert (Hin : t ∈ t0 :: rest)
    by (apply list_elem_of_lookup; exists k; exact Hk).
  destruct (construct_lookup _ _ _ t Huo Hin) as (u & Hu & Hl).
  exists u. split; [exact Hl|].
  intros v v' Hsp Hset Hd0 Hvar.
  destruct (built_err_i b k t Hei0 Hei Hk) as (ei & _ & Hei_t & Hv).
  unfold unconstrained_output in Hu. rewrite Hei_t in Hu. simpl in Hu.
  apply bind_Ok in Hu as (ed & Hed & Hu). injection Hu as <-.
  destruct (Hset t (or_introl eq_refl)) as (Hg & Hi & Hd).
  destruct (Hset t0 (or_intror eq_refl)) as (Hg0 & Hi0 & Hd00).
  rewrite !Hv.
  rewrite (err_i0_agree _ _ _ _ _ _ v v' Hei0 Hg0 Hi0 Hd00 Hd0 Hvar).
  rewrite (err_d_agree _ _ _ _ _ v v' Hed Hd0).
  rewrite (trapezoid_sum_ext (fun s => iterm pv s v) (fun s => iterm pv s v')).
  - rewrite Hg, Hi, Hd. reflexivity.
  - intros s Hs. unfold iterm, err. rewrite (Hsp s Hs). reflexivity.
Qed.
End MoreStatements.

(** X6.  A start without a jump: when the time set starts at time 0 and
    [err_i0] is calculated, the unconstrained output at the first point is
    the output given there, for any gain and integral time other than 0
    and in whatever order the other points are listed. *)
Theorem unconstrained_output_at_start smooth_max smooth_min
    (config : Config.t) (pv output : Qc → R) (rest : list Qc) :
  Config.pv config = Some pv →
  Config.output config = Some output →
  Config.calculate_initial_integral config = true →
  ∃ b u, build smooth_max smooth_min config (0%Qc :: rest) = Ok b
         ∧ blk_unconstrained_output b !! 0%Qc = Some u
         ∧ ∀ v, gain v 0%Qc ≠ 0 → time_i v 0%Qc ≠ 0 → u v = output 0%Qc.
Proof.
  intros Hpv Hout Hcalc.
  destruct (build_returns smooth_max smooth_min config pv output 0%Qc rest
              Hpv Hout) as (b & Hb & Ht0); [intros _; left|].
  destruct (build_inv _ _ _ _ _ Hb)
    as (pv' & output' & Hpv' & Hout' & _ & _ & Hei0 & _ & Huo & _).
  rewrite Hpv in Hpv'. injection Hpv' as <-.
  rewrite Hout in Hout'. injection Hout' as <-.
  rewrite Ht0, Hcalc in Hei0, Huo.
  destruct (construct_lookup _ _ _ 0%Qc Huo) as (u & Hu & Hl); [left|].
  exists b, u. split; [exact Hb|]. split; [exact Hl|].
  destruct (err_i0_solves pv output (0%Qc :: rest) 0%Qc)
    as (e0 & He0 & Hlaw); [left|].
  rewrite He0 in Hei0. injection Hei0 as Hei0.
  unfold unconstrained_output in Hu.
  rewrite (err_i_first _ _ _ _ _ _ He0), err_d_first in Hu.
  simpl in Hu. injection Hu as <-.
  intros v Hg Hi. rewrite <- (Hlaw v Hg Hi). field. exact Hi.
Qed.
End General.

(** The statements at the time set {0, 1} with the process variable at 0
    and a setpoint that rises with time, for widths computed without
    rounding. *)
Section MoreSamples.
#[local] Existing Instance Examples.exact_steps.

Lemma err_d_backward_difference_witness :
  ∃ b, build Examples.sharp_max Examples.sharp_min Examples.config_rest
         [0%Qc; 1%Qc] = Ok b
       ∧ ∃ p e, prev [0%Qc; 1%Qc] 1%Qc = Ok p
                ∧ blk_err_d b !! 1%Qc = Some e
                ∧ 0 < time_R (1 - p)
                ∧ ∀ v, e v * time_R (1 - p) = 0 - 0.
Proof.
  destruct (err_d_backward_difference Examples.sharp_max Examples.sharp_min
              Examples.config_rest (fun _ => 0) (fun _ => 0) 0%Qc [1%Qc]
              eq_refl eq_refl (PIDSpec.sorted_two _ _ PIDSpec.zero_lt_one)
              (fun _ => PIDSpec.zero_in_time _) exact_steps_positive)
    as (b & Hb & _ & Hrest).
  exists b. split; [exact Hb|]. apply Hrest. left.
Defined.

Lemma ramp_error (s : Qc) :
  s ∈ [0%Qc; 1%Qc] →
  err (fun _ => 0) s PIDSamples.ramp_values = 0 + 1 * time_R s.
Proof. intros _. unfold err. simpl. lra. Defined.

Lemma ramp_error_nonneg (s : Qc) :
  s ∈ [0%Qc; 1%Qc] → 0 <= err (fun _ => 0) s PIDSamples.ramp_values.
Proof.
  intros Hs. rewrite (ramp_error s Hs).
  repeat (apply elem_of_cons in Hs as [->|Hs]);
    [| |apply elem_of_nil in Hs; contradiction];
    unfold time_R, Q2R; simpl; lra.
Defined.

Lemma err_i_exact_for_affine_error_witness :
  ∃ b, build Examples.sharp_max Examples.sharp_min Examples.config_rest
         [0%Qc; 1%Qc] = Ok b
       ∧ ∃ e, blk_err_i b !! 1%Qc = Some e
              ∧ e PIDSamples.ramp_values
                = blk_err_i0 b PIDSamples.ramp_values
                  + 0 * (time_R 1%Qc - time_R 0%Qc)
                  + 1 * ((time_R 1%Qc)² - (time_R 0%Qc)²) / 2.
Proof.
  destruct (err_i_exact_for_affine_error Examples.sharp_max
              Examples.sharp_min Examples.config_rest (fun _ => 0)
              (fun _ => 0) 0%Qc [1%Qc] eq_refl eq_refl
              (PIDSpec.sorted_two _ _ PIDSpec.zero_lt_one)
              (fun _ => PIDSpec.zero_in_time _)
              (fun s t _ _ => exact_steps_exact s t))
    as (b & Hb & Haff).
  exists b. split; [exact Hb|].
  apply (Haff PIDSamples.ramp_values 0 1 ramp_error). right. left.
Defined.

Lemma err_i_monotone_witness :
  ∃ b, build Examples.sharp_max Examples.sharp_min Examples.config_rest
         [0%Qc; 1%Qc] = Ok b
       ∧ ∃ e1 e2, blk_err_i b !! 0%Qc = Some e1
                  ∧ blk_err_i b !! 1%Qc = Some e2
                  ∧ e1 PIDSamples.ramp_values <= e2 PIDSamples.ramp_values.
Proof.
  destruct (err_i_monotone Examples.sharp_max
              Examples.sharp_min Examples.config_rest (fun _ => 0)
              (fun _ => 0) 0%Qc [1%Qc] eq_refl eq_refl
              (PIDSpec.sorted_two _ _ PIDSpec.zero_lt_one)
              (fun _ => PIDSpec.zero_in_time _) exact_steps_positive)
    as (b & Hb & Hmono).
  exists b. split; [exact Hb|].
  apply (Hmono PIDSamples.ramp_values ramp_error_nonneg).
  - left.
  - right. left.
  - apply Qclt_le_weak. exact PIDSpec.zero_lt_one.
Defined.

Lemma unconstrained_output_ignores_later_setpoints_witness :
  ∃ b, build Examples.sharp_max Examples.sharp_min Examples.config_rest
         [0%Qc; 1%Qc] = Ok b
       ∧ ∃ u, blk_unconstrained_output b !! 0%Qc = Some u
              ∧ u PIDSamples.ramp_values = u PIDSamples.jump_values.
Proof.
  destruct (unconstrained_output_ignores_later_setpoints Examples.sharp_max
              Examples.sharp_min Examples.config_rest (fun _ => 0)
              (fun _ => 0) 0%Qc [1%Qc] eq_refl eq_refl
              (PIDSpec.sorted_two _ _ PIDSpec.zero_lt_one)
              (fun _ => PIDSpec.zero_in_time _))
    as (b & Hb & Hcausal).
  exists b. split; [exact Hb|].
  destruct (Hcausal 0%nat 0%Qc eq_refl) as (u & Hl & Hagree).
  exists u. split; [exact Hl|].
  apply Hagree; try reflexivity.
  - intros s Hs. apply list_elem_of_singleton in Hs as ->.
    simpl. rewrite time_R_Q2Qc. unfold Q2R. simpl. lra.
  - intros s _. repeat split.
Defined.

Lemma unconstrained_output_at_start_witness :
  ∃ b u, build Examples.sharp_max Examples.sharp_min Examples.config_rest
           [0%Qc; 1%Qc] = Ok b
         ∧ blk_unconstrained_output b !! 0%Qc = Some u
         ∧ u PIDSamples.ramp_values = 0.
Proof.
  destruct (unconstrained_output_at_start Examples.sharp_max
              Examples.sharp_min Examples.config_rest (fun _ => 0)
              (fun _ => 0) [1%Qc] eq_refl eq_refl eq_refl)
    as (b & u & Hb & Hl & Hu).
  exists b, u. split; [exact Hb|]. split; [exact Hl|].
  apply Hu; simpl; lra.
Defined.
End MoreSamples.
End PIDMore.

(** ** More of the condenser *)
Module CondenserMoreSpec.
Import Condenser CondenserMore CondenserFacts.

Section General.
Context {framework : Framework}.




(** X10.  In a condenser that was built, where the cold side is not
    called side_1 and the hot side is not called side_2, for values that
    satisfy the heat balance and the heat transfer equation at a time
    point, with positive [ntu] and [mcp_min] and a cold inlet below the
    hot side's saturation temperature: the cold side takes up heat, less
    than [mcp_min * (T_sat - T_cold_in)], and the hot side gives up the
    same amount. *)
Theorem heat_duty_bounds (declared : list string) (config : Config)
    (time : list Qc) (b : CondenserBlock) (t : Qc) :
  build declared config time = Ok b →
  cold_side_name config ≠ "side_1" → hot_side_name config ≠ "side_2" →
  t ∈ time →
  ∃ balance rate n m,
    blk_unit_heat_balance b !! t = Some balance
    ∧ blk_heat_transfer_equation b !! t = Some rate
    ∧ blk_ntu b !! t = Some n
    ∧ blk_mcp_min b !! t = Some m
    ∧ ∀ v, holds balance v → holds rate v →
           0 < n v → 0 < m v →
           temperature (properties_in (volume v cold_volume) t)
           < temperature_sat (properties_in (volume v hot_volume) t) →
           0 < heat (volume v cold_volume) t
               < m v
                 * (temperature_sat (properties_in (volume v hot_volume) t)
                    - temperature (properties_in (volume v cold_volume) t))
           ∧ heat (volume v hot_volume) t
             = - heat (volume v cold_volume) t.
Proof.
  intros Hb Hc Hh Hin.
  destruct (names_without_collision config Hc Hh) as (N1 & N2).
  destruct (built_unit_heat_balance _ _ _ _ _ _ Hb N1 N2) as (Hbal & _).
  destruct (built_heat_transfer_equation _ _ _ _ _ _ Hb N1 N2)
    as (Hrate & _).
  destruct (condenser_build_inv _ _ _ _ Hb)
    as (_ & _ & _ & _ & _ & Heff & _).
  destruct (Hrate t Hin) as (eff & m & Le & Lm & Lrate).
  destruct (construct_lookup _ _ _ t Heff Hin) as (eff' & Re & Le').
  pose proof (eq_trans (eq_sym Le') Le) as [= ->].
  apply effectiveness_Ok in Re as (n & Ln & Ee).
  eexists _, _, n, m.
  split; [apply Hbal; exact Hin|]. split; [exact Lrate|].
  split; [exact Ln|]. split; [exact Lm|].
  intros v Hhb Hhr Hntu Hmcp HT.
  unfold holds in Hhb, Hhr. simpl in Hhb, Hhr. rewrite Ee in Hhr.
  pose proof (exp_neg_bounds (n v) Hntu) as [He0 He1].
  set (e := 1 - exp (- n v)) in *.
  set (dT := temperature_sat (properties_in (volume v hot_volume) t)
             - temperature (properties_in (volume v cold_volume) t)) in *.
  assert (HdT : 0 < dT) by (unfold dT; lra).
  assert (Hmd : 0 < m v * dT) by (apply Rmult_lt_0_compat; assumption).
  rewrite Hhr.
  split; [|lra].
  replace (e * m v * dT) with (e * (m v * dT)) by ring.
  split.
  - apply Rmult_lt_0_compat; assumption.
  - assert (e * (m v * dT) < 1 * (m v * dT))
      by (apply Rmult_lt_compat_r; assumption).
    lra.
Qed.

(** X11.  Where the effectiveness rule returns: the effectiveness is
    below 1 for every [ntu], positive exactly when [ntu] is positive,
    and grows strictly with [ntu]. *)
Theorem effectiveness_grows_with_ntu (b_ntu : gmap Qc Expr) (t : Qc)
    (eff : Expr) :
  effectiveness b_ntu t = Ok eff →
  ∃ n, b_ntu !! t = Some n
       ∧ ∀ v v', eff v < 1
                 ∧ (0 < eff v ↔ 0 < n v)
                 ∧ (eff v < eff v' ↔ n v < n v').
Proof.
  intros H. apply effectiveness_Ok in H as (n & Ln & ->).
  exists n. split; [exact Ln|]. intros v v'.
  pose proof (exp_pos (- n v)) as Hpos.
  split; [lra|]. split; split; intros H.
  - assert (Hlt : exp (- n v) < exp 0) by (rewrite exp_0; lra).
    apply exp_lt_inv in Hlt. lra.
  - assert (Hlt : exp (- n v) < exp 0) by (apply exp_increasing; lra).
    rewrite exp_0 in Hlt. lra.
  - assert (Hlt : exp (- n v') < exp (- n v)) by lra.
    apply exp_lt_inv in Hlt. lra.
  - assert (Hlt : exp (- n v') < exp (- n v))
      by (apply exp_increasing; lra).
    lra.
Qed.
End General.

(** The statements on the sample condenser over the times 0 and 1. *)
Section Samples.
#[local] Existing Instance Examples.framework.

Lemma sample_condenser :
  ∃ b, build Examples.declared Examples.config [0%Qc; 1%Qc] = Ok b.
Proof.
  eapply condenser_build_returns;
    first [ apply heater_volume_complete | intros; reflexivity
          | reflexivity ].
Defined.




Lemma heat_duty_bounds_witness :
  ∃ b balance rate,
    build Examples.declared Examples.config [0%Qc; 1%Qc] = Ok b
    ∧ blk_unit_heat_balance b !! 1%Qc = Some balance
    ∧ blk_heat_transfer_equation b !! 1%Qc = Some rate
    ∧ holds balance CondenserMore.Examples.balanced_values
    ∧ holds rate CondenserMore.Examples.balanced_values
    ∧ 0 < heat (volume CondenserMore.Examples.balanced_values cold_volume)
            1%Qc
    ∧ heat (volume CondenserMore.Examples.balanced_values hot_volume) 1%Qc
      = - heat (volume CondenserMore.Examples.balanced_values cold_volume)
            1%Qc.
Proof.
  destruct sample_condenser as (b & Hb).
  assert (Hin : 1%Qc ∈ [0%Qc; 1%Qc]) by (right; left).
  destruct (heat_duty_bounds _ _ _ _ 1%Qc Hb)
    as (bal & rate & n & m & L1 & L2 & Ln & Lm & Hv);
    [discriminate | discriminate | exact Hin |].
  exists b, bal, rate. split; [exact Hb|]. split; [exact L1|].
  split; [exact L2|].
  destruct (names_without_collision Examples.config) as (N1 & N2);
    [discriminate | discriminate |].
  destruct (built_unit_heat_balance _ _ _ _ _ _ Hb N1 N2) as (Hbal & _).
  destruct (built_heat_transfer_equation _ _ _ _ _ _ Hb N1 N2)
    as (Hrate & _).
  destruct (Hrate 1%Qc Hin) as (eff & m' & Le & Lm' & Lrate).
  destruct (built_effectiveness _ _ _ _ _ 1%Qc Hb N2 Hin)
    as (eff' & n' & m'' & Le' & Ln' & Lm'' & Ee & En & Em).
  pose proof (eq_trans (eq_sym Le') Le) as [= ->].
  pose proof (eq_trans (eq_sym Ln') Ln) as [= ->].
  pose proof (eq_trans (eq_sym Lm'') Lm) as [= ->].
  pose proof (eq_trans (eq_sym Lm') Lm) as [= ->].
  pose proof (eq_trans (eq_sym (Hbal 1%Qc Hin)) L1) as [= <-].
  pose proof (eq_trans (eq_sym Lrate) L2) as [= <-].
  assert (Hn1 : n CondenserMore.Examples.balanced_values = 1)
    by (rewrite En, Em; simpl; field).
  assert (Hm1 : m CondenserMore.Examples.balanced_values = 1)
    by (rewrite Em; simpl; ring).
  assert (Hb1 : holds
            {| lhs := fun _ : Values => 0;
               rhs := fun v => heat (volume v hot_volume) 1%Qc
                               + heat (volume v cold_volume) 1%Qc |}
            CondenserMore.Examples.balanced_values)
    by (unfold holds; simpl; lra).
  assert (Hr1 : holds
            {| lhs := fun v : Values => heat (volume v cold_volume) 1%Qc;
               rhs := fun v =>
                 eff v * m v
                 * (temperature_sat
                      (properties_in (volume v hot_volume) 1%Qc)
                    - temperature
                        (properties_in (volume v cold_volume) 1%Qc)) |}
            CondenserMore.Examples.balanced_values).
  { unfold holds. cbn [lhs rhs]. rewrite Hm1, Ee. cbv beta. rewrite Hn1.
    simpl. lra. }
  split; [exact Hb1|]. split; [exact Hr1|].
  destruct (Hv CondenserMore.Examples.balanced_values Hb1 Hr1)
    as [[Hpos _] Hhot].
  - rewrite Hn1. lra.
  - rewrite Hm1. lra.
  - simpl. lra.
  - split; [exact Hpos | exact Hhot].
Defined.

Lemma effectiveness_grows_with_ntu_witness :
  ∃ eff n,
    effectiveness {[ 0%Qc := fun _ : Values => 1 ]} 0%Qc = Ok eff
    ∧ ({[ 0%Qc := fun _ : Values => 1 ]} : gmap Qc Expr) !! 0%Qc = Some n
    ∧ eff Examples.values < 1
    ∧ 0 < eff Examples.values.
Proof.
  assert (H : effectiveness {[ 0%Qc := fun _ : Values => 1 ]} 0%Qc
              = Ok (fun _ => 1 - exp (- (1)))).
  { unfold effectiveness, component_getitem.
    rewrite lookup_singleton_eq. reflexivity. }
  destruct (effectiveness_grows_with_ntu _ _ _ H) as (n & Ln & Hv).
  eexists _, n. split; [exact H|]. split; [exact Ln|].
  destruct (Hv Examples.values Examples.values) as (Hlt & Hpos & _).
  split; [exact Hlt|]. apply Hpos.
  rewrite lookup_singleton_eq in Ln. injection Ln as <-. lra.
Defined.
End Samples.
End CondenserMoreSpec.
(** ** Names, initial conditions and scaling defaults *)
Module CondenserHousekeeping.
Import Condenser CondenserMore CondenserFacts.

(** X12.  The names under which [build] reaches the control volumes.  With
    distinct side names, each configured name reaches its own control
    volume; [side_1] and [hot_side] reach the hot one exactly when the
    cold side is not called so, and [side_2] and [cold_side] reach the cold
    one exactly when the hot side is not called so (a reference is added
    only under a name that is still free). *)
Theorem volume_names_resolve (config : Config) :
  hot_side_name config ≠ cold_side_name config →
  build_volume_names config !! hot_side_name config = Some hot_volume
  ∧ build_volume_names config !! cold_side_name config = Some cold_volume
  ∧ (build_volume_names config !! "side_1" = Some hot_volume
     ↔ cold_side_name config ≠ "side_1")
  ∧ (build_volume_names config !! "hot_side" = Some hot_volume
     ↔ cold_side_name config ≠ "hot_side")
  ∧ (build_volume_names config !! "side_2" = Some cold_volume
     ↔ hot_side_name config ≠ "side_2")
  ∧ (build_volume_names config !! "cold_side" = Some cold_volume
     ↔ hot_side_name config ≠ "cold_side").
Proof.
  intros Hne. rewrite !volume_names_lookup.
  repeat split.
  - rewrite decide_False by exact Hne. rewrite decide_True; reflexivity.
  - rewrite decide_True; reflexivity.
  - destruct (decide ("side_1" = cold_side_name config)); congruence.
  - intros Hc. rewrite decide_False by congruence.
    destruct (decide ("side_1" = hot_side_name config)); reflexivity.
  - destruct (decide ("hot_side" = cold_side_name config)); congruence.
  - intros Hc. rewrite decide_False by congruence.
    destruct (decide ("hot_side" = hot_side_name config)); reflexivity.
  - destruct (decide ("side_2" = cold_side_name config)); [congruence|].
    destruct (decide ("side_2" = hot_side_name config)); [discriminate|].
    congruence.
  - intros Hh.
    destruct (decide ("side_2" = cold_side_name config)); [reflexivity|].
    rewrite decide_False by congruence. reflexivity.
  - destruct (decide ("cold_side" = cold_side_name config)); [congruence|].
    destruct (decide ("cold_side" = hot_side_name config)); [discriminate|].
    congruence.
  - intros Hh.
    destruct (decide ("cold_side" = cold_side_name config)); [reflexivity|].
    rewrite decide_False by congruence. reflexivity.
Qed.

Lemma volume_names_resolve_witness :
  build_volume_names Condenser.Examples.config !! "shell" = Some hot_volume
  ∧ build_volume_names Condenser.Examples.config !! "tube" = Some cold_volume
  ∧ build_volume_names Condenser.Examples.config !! "side_1"
    = Some hot_volume
  ∧ build_volume_names Condenser.Examples.config !! "cold_side"
    = Some cold_volume.
Proof.
  destruct (volume_names_resolve Condenser.Examples.config)
    as (Hh & Hc & H1 & _ & _ & H4).
  { simpl. discriminate. }
  split; [exact Hh|]. split; [exact Hc|]. split.
  - apply H1. simpl. discriminate.
  - apply H4. simpl. discriminate.
Defined.

(** *** [set_initial_condition] *)

Lemma slice_set_value_lookup {K} `{Countable K} (selected : K → bool)
    (a : R) (x : gmap K VarData) (k : K) :
  slice_set_value selected a x !! k
  = (fun d => if selected k then {| value := a; fixed := fixed d |} else d)
      <$> x !! k.
Proof.
  unfold slice_set_value. rewrite map_lookup_imap.
  destruct (x !! k); reflexivity.
Qed.

Lemma slice_fix_lookup {K} `{Countable K} (selected : K → bool)
    (a : R) (x : gmap K VarData) (k : K) :
  slice_fix selected a x !! k
  = (fun d => if selected k then {| value := a; fixed := true |} else d)
      <$> x !! k.
Proof.
  unfold slice_fix. rewrite map_lookup_imap.
  destruct (x !! k); reflexivity.
Qed.

(** What [set_initial_condition_of] leaves in the two accumulation
    terms. *)
Lemma set_initial_condition_of_lookup (h : Holdup) :
  (∀ k, material_accumulation (set_initial_condition_of h) !! k
        = (fun d => {| value := 0;
                       fixed := if decide (k.1.1 = 0%Qc) then true
                                else fixed d |})
            <$> material_accumulation h !! k)
  ∧ (∀ k, energy_accumulation (set_initial_condition_of h) !! k
          = (fun d => {| value := 0;
                         fixed := if decide (k.1 = 0%Qc) then true
                                  else fixed d |})
              <$> energy_accumulation h !! k).
Proof.
  unfold set_initial_condition_of. cbn [material_accumulation
    energy_accumulation].
  split; intros k; rewrite slice_fix_lookup, slice_set_value_lookup.
  - destruct (material_accumulation h !! k) as [d|]; [|reflexivity].
    cbn [fmap option_fmap option_map]. f_equal.
    case_bool_decide as Hk.
    + rewrite decide_True by exact Hk. reflexivity.
    + rewrite decide_False by exact Hk. reflexivity.
  - destruct (energy_accumulation h !! k) as [d|]; [|reflexivity].
    cbn [fmap option_fmap option_map]. f_equal.
    case_bool_decide as Hk.
    + rewrite decide_True by exact Hk. reflexivity.
    + rewrite decide_False by exact Hk. reflexivity.
Qed.

(** X13.  In a dynamic model [set_initial_condition] leaves every accumulation
    term of either side at the value 0, fixes the terms at time 0 and
    leaves the fixed flag of every other term as it was; it adds and
    removes no term, and a second call changes nothing more.  In a model
    that is not dynamic it changes nothing. *)
Theorem set_initial_condition_effect (holdup : side → Holdup) (s : side) :
  (∀ k, material_accumulation (set_initial_condition true holdup s) !! k
        = (fun d => {| value := 0;
                       fixed := if decide (k.1.1 = 0%Qc) then true
                                else fixed d |})
            <$> material_accumulation (holdup s) !! k)
  ∧ (∀ k, energy_accumulation (set_initial_condition true holdup s) !! k
          = (fun d => {| value := 0;
                         fixed := if decide (k.1 = 0%Qc) then true
                                  else fixed d |})
              <$> energy_accumulation (holdup s) !! k)
  ∧ set_initial_condition true (set_initial_condition true holdup) s
    = set_initial_condition true holdup s
  ∧ set_initial_condition false holdup = holdup.
Proof.
  pose proof (set_initial_condition_of_lookup (holdup s)) as [Hm He].
  split; [exact Hm|]. split; [exact He|]. split; [|reflexivity].
  cbn [set_initial_condition].
  pose proof (set_initial_condition_of_lookup
                (set_initial_condition_of (holdup s))) as [Hm' He'].
  destruct (set_initial_condition_of
              (set_initial_condition_of (holdup s))) as [m2 e2] eqn:E2.
  destruct (set_initial_condition_of (holdup s)) as [m1 e1] eqn:E1.
  cbn [material_accumulation energy_accumulation] in *.
  f_equal; apply map_eq; intros k.
  - rewrite Hm', Hm. destruct (material_accumulation (holdup s) !! k);
      [|reflexivity].
    cbn [fmap option_fmap option_map fixed]. f_equal. f_equal.
    destruct (decide (k.1.1 = 0%Qc)); reflexivity.
  - rewrite He', He. destruct (energy_accumulation (holdup s) !! k);
      [|reflexivity].
    cbn [fmap option_fmap option_map fixed]. f_equal. f_equal.
    destruct (decide (k.1 = 0%Qc)); reflexivity.
Qed.

(** On the sample terms: the energy term at time 1 was fixed at 4 and is
    now fixed at 0, the material term at time 1 stays free, the one at
    time 0 is fixed. *)
Example set_initial_condition_sample :
  energy_accumulation (set_initial_condition true Examples.holdup side_1)
    !! (1%Qc, "Liq") = Some {| value := 0; fixed := true |}
  ∧ material_accumulation (set_initial_condition true Examples.holdup side_2)
      !! (1%Qc, "Liq", "H2O") = Some {| value := 0; fixed := false |}
  ∧ material_accumulation (set_initial_condition true Examples.holdup side_2)
      !! (0%Qc, "Liq", "H2O") = Some {| value := 0; fixed := true |}.
Proof.
  cbn [set_initial_condition].
  destruct (set_initial_condition_of_lookup (Examples.holdup side_1))
    as [_ He].
  destruct (set_initial_condition_of_lookup (Examples.holdup side_2))
    as [Hm _].
  rewrite He, !Hm. repeat split; reflexivity.
Qed.

(** *** [calculate_scaling_factors]: the defaults *)
Section ScalingFacts.
Variable Store : Type.
Variable get_scaling_factor : Store → key → option R.
Variable set_scaling_factor : Store → key → R → Store.
(** A factor that was set is the one found, and setting it leaves the
    factors of the other components alone. *)
Hypothesis get_set_eq :
  ∀ st k s, get_scaling_factor (set_scaling_factor st k s) k = Some s.
Hypothesis get_set_ne :
  ∀ st k k' s, k' ≠ k →
    get_scaling_factor (set_scaling_factor st k s) k'
    = get_scaling_factor st k'.

(** The loop over the members. *)
Lemma fill_members_lookup (l : list key) (s : R) (st : Store) (k : key) :
  get_scaling_factor
    (foldl
       (fun st ci =>
          match get_scaling_factor st ci with
          | None => set_scaling_factor st ci s
          | Some _ => st
          end)
       st l) k
  = match get_scaling_factor st k with
    | Some x => Some x
    | None => if decide (k ∈ l) then Some s else None
    end.
Proof.
  revert st. induction l as [|ci l IH]; intros st; cbn [foldl].
  - destruct (get_scaling_factor st k); [reflexivity|].
    rewrite decide_False by apply not_elem_of_nil. reflexivity.
  - rewrite IH. destruct (get_scaling_factor st ci) as [x|] eqn:Hci.
    + destruct (get_scaling_factor st k) as [y|] eqn:Hk; [reflexivity|].
      assert (Hne : k ≠ ci) by congruence.
      destruct (decide (k ∈ l)) as [Hin|Hin].
      * rewrite decide_True by (right; exact Hin). reflexivity.
      * rewrite decide_False; [reflexivity|].
        intros [->|Hin']%elem_of_cons; [congruence | contradiction].
    + destruct (decide (k = ci)) as [->|Hne].
      * rewrite get_set_eq, Hci.
        rewrite decide_True by left. reflexivity.
      * rewrite get_set_ne by exact Hne.
        destruct (get_scaling_factor st k) as [y|]; [reflexivity|].
        destruct (decide (k ∈ l)) as [Hin|Hin].
        -- rewrite decide_True by (right; exact Hin). reflexivity.
        -- rewrite decide_False; [reflexivity|].
           intros [->|Hin']%elem_of_cons; [congruence | contradiction].
Qed.

Lemma fill_miss_lookup (c : Component) (s : R) (st : Store) (k : key) :
  get_scaling_factor
    (_fill_miss_with_default Store get_scaling_factor set_scaling_factor
       (Some c) s st) k
  = match get_scaling_factor st k with
    | Some x => Some x
    | None =>
        match get_scaling_factor st (component c) with
        | Some _ => None
        | None => if decide (k ∈ values c) then Some s else None
        end
    end.
Proof.
  unfold _fill_miss_with_default.
  destruct (get_scaling_factor st (component c)) as [x|] eqn:Hc.
  - destruct (get_scaling_factor st k); reflexivity.
  - apply fill_members_lookup.
Qed.

(** X14.  The defaults fill gaps and nothing else.  Let [area] and
    [overall_heat_transfer_coefficient] be the two components, the second
    not a member of the first.  A scaling factor that was set is never
    replaced; a member without a factor gets the default 1/100 when its
    component has no factor of its own; it is left without one when its
    component has a factor, and so is every component that is a member of
    neither. *)
Theorem fill_defaults_fills_gaps_only (area U : Component) (st : Store)
    (k : key) :
  component U ∉ values area →
  let st' := fill_defaults Store get_scaling_factor set_scaling_factor
               (Some area) (Some U) st in
  (∀ x, get_scaling_factor st k = Some x →
        get_scaling_factor st' k = Some x)
  ∧ (get_scaling_factor st k = None →
     (get_scaling_factor st (component area) = None ∧ k ∈ values area)
     ∨ (get_scaling_factor st (component U) = None ∧ k ∈ values U) →
     get_scaling_factor st' k = Some (1 / 100))
  ∧ (get_scaling_factor st k = None →
     (is_Some (get_scaling_factor st (component area))
      ∨ (k ∉ values area)) →
     (is_Some (get_scaling_factor st (component U)) ∨ (k ∉ values U)) →
     get_scaling_factor st' k = None).
Proof.
  intros Hmember st'. subst st'. unfold fill_defaults. cbv zeta.
  assert (HU : get_scaling_factor
                 (_fill_miss_with_default Store get_scaling_factor
                    set_scaling_factor (Some area) (1 / 100) st)
                 (component U)
               = get_scaling_factor st (component U)).
  { rewrite fill_miss_lookup.
    destruct (get_scaling_factor st (component U)); [reflexivity|].
    destruct (get_scaling_factor st (component area)); [reflexivity|].
    rewrite decide_False by exact Hmember. reflexivity. }
  rewrite fill_miss_lookup, HU, fill_miss_lookup.
  split; [|split].
  - intros x Hx. rewrite Hx. reflexivity.
  - intros Hk Hin. rewrite Hk.
    destruct (get_scaling_factor st (component area)) as [a|] eqn:Ha;
      destruct (get_scaling_factor st (component U)) as [u|] eqn:Hu;
      destruct Hin as [[Hn Hin]|[Hn Hin]]; try discriminate Hn.
    + rewrite decide_True by exact Hin. reflexivity.
    + rewrite decide_True by exact Hin. reflexivity.
    + rewrite decide_True by exact Hin. reflexivity.
    + destruct (decide (k ∈ values area)); [reflexivity|].
      rewrite decide_True by exact Hin. reflexivity.
  - intros Hk Ha Hu. rewrite Hk.
    destruct (get_scaling_factor st (component area)) as [a|] eqn:Ea;
      destruct (get_scaling_factor st (component U)) as [u|] eqn:Eu.
    + reflexivity.
    + destruct Hu as [[? Hu]|Hu]; [discriminate Hu|].
      rewrite decide_False by exact Hu. reflexivity.
    + destruct Ha as [[? Ha]|Ha]; [discriminate Ha|].
      rewrite decide_False by exact Ha. reflexivity.
    + destruct Ha as [[? Ha]|Ha]; [discriminate Ha|].
      destruct Hu as [[? Hu]|Hu]; [discriminate Hu|].
      rewrite !decide_False by assumption. reflexivity.
Qed.
End ScalingFacts.

(** On a store kept as a finite map, where only the coefficient at time 1
    has a factor: that factor stays and the coefficient at time 0 gets the
    default. *)
Lemma fill_defaults_fills_gaps_only_witness :
  let st' := fill_defaults (gmap key R) (fun st k => st !! k)
               (fun st k s => <[k := s]> st)
               (Some Examples.area_component) (Some Examples.U_component)
               Examples.factors in
  st' !! ("overall_heat_transfer_coefficient", Some 1%Qc) = Some 5
  ∧ st' !! ("overall_heat_transfer_coefficient", Some 0%Qc)
    = Some (1 / 100).
Proof.
  intros st'. split.
  - pose proof (fill_defaults_fills_gaps_only (gmap key R)
                  (fun st k => st !! k) (fun st k s => <[k := s]> st)
                  (fun st k s => lookup_insert_eq st k s)
                  (fun st k k' s Hne =>
                     lookup_insert_ne st k k' s (not_eq_sym Hne))
                  Examples.area_component Examples.U_component
                  Examples.factors
                  ("overall_heat_transfer_coefficient", Some 1%Qc))
      as H.
    cbv zeta in H. destruct H as (Hkeep & _ & _).
    { simpl. intros Hin. apply list_elem_of_singleton in Hin.
      discriminate Hin. }
    apply Hkeep. reflexivity.
  - pose proof (fill_defaults_fills_gaps_only (gmap key R)
                  (fun st k => st !! k) (fun st k s => <[k := s]> st)
                  (fun st k s => lookup_insert_eq st k s)
                  (fun st k k' s Hne =>
                     lookup_insert_ne st k k' s (not_eq_sym Hne))
                  Examples.area_component Examples.U_component
                  Examples.factors
                  ("overall_heat_transfer_coefficient", Some 0%Qc))
      as H.
    cbv zeta in H. destruct H as (_ & Hfill & _).
    { simpl. intros Hin. apply list_elem_of_singleton in Hin.
      discriminate Hin. }
    apply Hfill; [reflexivity|].
    right. split; [reflexivity|]. simpl. left.
Defined.
End CondenserHousekeeping.

(** ** More of [initialize] *)
Module InitializeMore.
Import Condenser CondenserMore InitializeFacts.

Lemma M_bind_Raise {A B} (m : M A) (f : A → M B) (w w' : World) (e : exn) :
  m w = (Raise e, w') → (m ≫= f) w = (Raise e, w').
Proof. intros H. unfold mbind, M_bind. rewrite H. reflexivity. Qed.

Lemma M_bind_ext {A B} (m : M A) (f g : A → M B) (w : World) :
  (∀ a w', f a w' = g a w') → (m ≫= f) w = (m ≫= g) w.
Proof.
  intros H. unfold mbind, M_bind. destruct (m w) as [[a|e] w']; auto.
Qed.

Section MoreRuns.
Variables StateArgs Flags : Type.
Variable cv_initialize : side → option StateArgs → Block → Flags * Block.
Variable cv_release_state : side → Flags → Block → Block.
Variable opt_solve : Block → Block * TerminationCondition.
Variable config : Config.

(** What follows the solver call does not depend on what the solver
    reports. *)
Lemma call_solve_then {B}
    (opt_solve' : Block → Block * TerminationCondition) (k : M B)
    (w : World) :
  (∀ b, (opt_solve' b).1 = (opt_solve b).1) →
  (call_solve opt_solve' ≫= fun _ => k) w
  = (call_solve opt_solve ≫= fun _ => k) w.
Proof.
  intros Hsame. unfold mbind, M_bind, call_solve.
  pose proof (Hsame (block w)) as Hb.
  destruct (opt_solve' (block w)) as [b' res'].
  destruct (opt_solve (block w)) as [b res].
  simpl in Hb. subst b'. reflexivity.
Qed.

(** X15.  With a valid [unfix] whose variable has no member at time 0 (the time
    set does not hold 0), [initialize] raises [KeyError] after the snapshot
    was taken, both control volumes were initialised and the saturation
    constraint was activated.  The solver is not called, the states the
    control volumes hold are not released and the snapshot is not
    restored: the block is left as the control volumes' initialisation
    made it, with the saturation constraint active. *)
Theorem initialize_raises_when_variable_missing (a1 a2 : option StateArgs)
    (unfix : string) (w : World) (f1 f2 : Flags) (s1 s2 : Block) :
  unfix ∈ ["hot_flow"; "cold_flow"; "pressure"] →
  cv_initialize side_1 a1 (block w) = (f1, s1) →
  cv_initialize side_2 a2 s1 = (f2, s2) →
  vars s2 !! selected_var config unfix 0%Qc = None →
  initialize StateArgs Flags cv_initialize cv_release_state opt_solve
    config a1 a2 unfix w
  = (Raise KeyError,
     {| block :=
          {| vars := vars s2;
             cons := map_imap
                       (fun k a =>
                          Some (if decide (k.1 = "saturation_eqn")
                                then true else a))
                       (cons s2) |};
        calls := calls w
                 ++ [to_json_call; cv_initialize_call side_1;
                     cv_initialize_call side_2] |}).
Proof.
  intros Hvalid H1 H2 Hmissing. unfold initialize.
  rewrite decide_False by (intros Hnot; exact (Hnot Hvalid)).
  rewrite (InitializeSpec.unfix_selected config unfix Hvalid).
  erewrite M_bind_Ok by reflexivity.
  erewrite M_bind_Ok
    by (apply InitializeSpec.call_cv_initialize_run; exact H1).
  erewrite M_bind_Ok
    by (apply InitializeSpec.call_cv_initialize_run; exact H2).
  erewrite M_bind_Ok by reflexivity.
  erewrite M_bind_Raise; [|unfold Var_unfix; cbn [block vars];
                           rewrite Hmissing; reflexivity].
  cbn [block calls vars cons]. rewrite <- !app_assoc. reflexivity.
Qed.

(** X16.  Before the solver is called, every member of the saturation
    constraint is active and every other constraint has the flag that the
    control volumes' initialisation left: in the one model [m] that the
    solver is given, whatever the flags were in the block [s2] that the
    control volumes left. *)
Theorem initialize_solves_with_saturation_active (a1 a2 : option StateArgs)
    (unfix : string) (w : World) (f1 f2 : Flags) (s1 s2 : Block) :
  unfix ∈ ["hot_flow"; "cold_flow"; "pressure"] →
  cv_initialize side_1 a1 (block w) = (f1, s1) →
  cv_initialize side_2 a2 s1 = (f2, s2) →
  is_Some (vars s2 !! selected_var config unfix 0%Qc) →
  ∃ w' m,
    initialize StateArgs Flags cv_initialize cv_release_state opt_solve
      config a1 a2 unfix w = (Ok (), w')
    ∧ (∀ m', solve_call m' ∈ calls w' → solve_call m' ∈ calls w ∨ m' = m)
    ∧ solve_call m ∈ calls w'
    ∧ (∀ t, is_Some (cons s2 !! ("saturation_eqn", t)) →
            cons m !! ("saturation_eqn", t) = Some true)
    ∧ (∀ k, k.1 ≠ "saturation_eqn" → cons m !! k = cons s2 !! k)
    ∧ dom (cons m) = dom (cons s2).
Proof.
  intros Hvalid H1 H2 [d Hd].
  set (m := solver_model s2 (selected_var config unfix 0%Qc) d).
  destruct (opt_solve m) as [s5 res] eqn:H5.
  eexists _, m. split.
  { apply (InitializeSpec.initialize_run StateArgs Flags cv_initialize
             cv_release_state opt_solve config a1 a2 unfix w f1 f2 s1 s2 s5 d
             res);
      assumption. }
  cbn [calls]. split; [|split; [|split; [|split]]].
  - intros m' Hin. apply elem_of_app in Hin as [Hin|Hin]; [left; exact Hin|].
    right.
    repeat (apply elem_of_cons in Hin as [Heq|Hin];
            [try discriminate Heq|]).
    + injection Heq as ->. reflexivity.
    + apply elem_of_nil in Hin. contradiction.
  - apply elem_of_app. right. do 3 right. left.
  - intros t [a Ha]. unfold m, solver_model. cbn [cons].
    rewrite map_lookup_imap, Ha. cbn.
    rewrite decide_True by reflexivity. reflexivity.
  - intros k Hk. unfold m, solver_model. cbn [cons].
    rewrite map_lookup_imap. destruct (cons s2 !! k) as [a|]; [|reflexivity].
    cbn. rewrite decide_False by exact Hk. reflexivity.
  - unfold m, solver_model. cbn [cons]. apply dom_imap_total.
Qed.

(** X17.  What the solver reports goes into a log line and nowhere else: with
    two solvers that leave the block the same and differ only in the
    termination condition they return, [initialize] ends the same way, in
    the same block and after the same calls. *)
Theorem initialize_ignores_termination
    (opt_solve' : Block → Block * TerminationCondition)
    (a1 a2 : option StateArgs) (unfix : string) (w : World) :
  (∀ b, (opt_solve' b).1 = (opt_solve b).1) →
  initialize StateArgs Flags cv_initialize cv_release_state opt_solve'
    config a1 a2 unfix w
  = initialize StateArgs Flags cv_initialize cv_release_state opt_solve
      config a1 a2 unfix w.
Proof.
  intros Hsame. unfold initialize.
  destruct (decide (unfix ∉ ["hot_flow"; "cold_flow"; "pressure"]));
    [reflexivity|].
  apply M_bind_ext. intros istate w1.
  apply M_bind_ext. intros flags1 w2.
  apply M_bind_ext. intros flags2 w3.
  apply M_bind_ext. intros [] w4.
  apply M_bind_ext. intros [] w5.
  apply call_solve_then. exact Hsame.
Qed.
End MoreRuns.

(** On a condenser over the times 1 and 2, with control volumes that hold
    the state. *)
Lemma initialize_raises_when_variable_missing_witness :
  ∃ w', initialize unit (gmap key bool) Condenser.Examples.cv_initialize_hold
          Condenser.Examples.cv_release_state_hold
          Condenser.Examples.solve_gives_up Condenser.Examples.config
          None None "hot_flow"
          Examples.late_world = (Raise KeyError, w')
        ∧ calls w' = [to_json_call; cv_initialize_call side_1;
                      cv_initialize_call side_2].
Proof.
  eexists. split.
  - apply (initialize_raises_when_variable_missing unit (gmap key bool)
             Condenser.Examples.cv_initialize_hold
             Condenser.Examples.cv_release_state_hold
             Condenser.Examples.solve_gives_up Condenser.Examples.config
             None None "hot_flow"
             Examples.late_world _ _ _ _
             InitializeSpec.hot_flow_valid eq_refl eq_refl).
    vm_compute. reflexivity.
  - reflexivity.
Defined.

Lemma initialize_solves_with_saturation_active_witness :
  ∃ w' m,
    initialize unit (gmap key bool) Condenser.Examples.cv_initialize_hold
      Condenser.Examples.cv_release_state_hold
      Condenser.Examples.solve_gives_up Condenser.Examples.config
      None None "hot_flow"
      Condenser.Examples.world_0 = (Ok (), w')
    ∧ solve_call m ∈ calls w'
    ∧ cons m !! ("saturation_eqn", Some 1%Qc) = Some true.
Proof.
  destruct (initialize_solves_with_saturation_active unit (gmap key bool)
              Condenser.Examples.cv_initialize_hold
              Condenser.Examples.cv_release_state_hold
              Condenser.Examples.solve_gives_up Condenser.Examples.config
              None None "hot_flow"
              Condenser.Examples.world_0 _ _ _ _
              InitializeSpec.hot_flow_valid eq_refl eq_refl
              InitializeSpec.hot_flow_held)
    as (w' & m & Hrun & _ & Hcall & Hsat & _).
  exists w', m. split; [exact Hrun|]. split; [exact Hcall|].
  apply Hsat. exists false. vm_compute. reflexivity.
Defined.

Lemma initialize_ignores_termination_witness :
  initialize unit (gmap key bool) Condenser.Examples.cv_initialize_hold
    Condenser.Examples.cv_release_state_hold
    Examples.solve_claims_success Condenser.Examples.config
    None None "hot_flow"
    Condenser.Examples.world_0
  = initialize unit (gmap key bool) Condenser.Examples.cv_initialize_hold
      Condenser.Examples.cv_release_state_hold
      Condenser.Examples.solve_gives_up Condenser.Examples.config
      None None "hot_flow"
      Condenser.Examples.world_0.
Proof.
  apply (initialize_ignores_termination unit (gmap key bool)
           Condenser.Examples.cv_initialize_hold
           Condenser.Examples.cv_release_state_hold
           Condenser.Examples.solve_gives_up Condenser.Examples.config
           Examples.solve_claims_success None None "hot_flow"
           Condenser.Examples.world_0).
  intros b. reflexivity.
Defined.
End InitializeMore.

(** ** The import test *)
Module TestImportSpec.
Import TestImport.

Lemma re_match_Seq_Nothing (r : regex) (s : string) :
  re_match (Seq Nothing r) s = false.
Proof. induction s as [|c s IH]; [reflexivity | exact IH]. Qed.

Lemma re_match_nullable (r : regex) (s : string) :
  nullable r = true → re_match r s = true.
Proof. intros H. destruct s; simpl; rewrite H; reflexivity. Qed.

(** [good_modname] matches whatever starts with a letter: the characters
    that follow are not looked at. *)
Lemma re_match_good_modname (s : string) :
  re_match good_modname s = true ↔ starts_with_letter s.
Proof.
  destruct s as [|c s].
  - simpl. split; [discriminate|]. intros (c & s' & H & _). discriminate H.
  - change (re_match good_modname (String c s))
      with (re_match
              (Seq (if letter c then Epsilon else Nothing)
                 (Star (Chars word_char))) s).
    destruct (letter c) eqn:Hc.
    + rewrite re_match_nullable by reflexivity.
      split; [|reflexivity]. intros _. exists c, s. auto.
    + rewrite re_match_Seq_Nothing.
      split; [discriminate|]. intros (c' & s' & H & Hl).
      injection H as <- <-. congruence.
Qed.

Lemma parts_init_app (pre : list string) (x : string) (f : list string) :
  f ≠ [] → parts_init (pre ++ x :: f) = pre ++ x :: parts_init f.
Proof.
  intros Hf. unfold parts_init. destruct f as [|y f]; [congruence|].
  rewrite length_app. simpl.
  replace (length pre + S (S (length f)) - 1)%nat
    with (length pre + S (length f))%nat by lia.
  rewrite take_app_add'; [|reflexivity]. f_equal.
  cbn [take]. f_equal. f_equal. lia.
Qed.

Section ImportrFacts.
Variable Interp : Type.
Variable import_module : string → Interp → import_result * Interp.
Variable format_sec : Qc → string.
Variable sep : string.

Lemma bad_directory_false (names : list string) :
  bad_directory sep names = false
  ↔ Forall (fun d => d = sep ∨ starts_with_letter d) names.
Proof.
  induction names as [|d names IH]; simpl.
  - split; [constructor | reflexivity].
  - rewrite list.Forall_cons, <- IH, <- re_match_good_modname.
    destruct (String.eqb_spec d sep) as [->|Hne]; simpl.
    + split; [intros H; split; [left; reflexivity | exact H] | intros [_ H]; exact H].
    + destruct (re_match good_modname d); simpl.
      * split; [intros H; split; [right; reflexivity | exact H]
               | intros [_ H]; exact H].
      * split; [discriminate|]. intros [[H|H] _]; [contradiction | discriminate].
Qed.

Lemma bad_directory_elem (names : list string) (d : string) :
  d ∈ names → d ≠ sep → ¬ starts_with_letter d →
  bad_directory sep names = true.
Proof.
  intros Hin Hne Hnot.
  destruct (bad_directory sep names) eqn:Hbad; [reflexivity|].
  apply bad_directory_false in Hbad.
  rewrite list.Forall_forall in Hbad.
  destruct (Hbad d Hin) as [H|H]; contradiction.
Qed.

(** X18.  The file at [path] is imported, not skipped, exactly when every
    directory name of [path] other than the path separator, and the file
    name without its last three characters, start with a letter.  How the
    names go on is not checked, and directories above the package count
    as well. *)
Theorem importr_skip_rule (path : list string) :
  is_bad sep path = false
  ↔ Forall (fun d => d = sep ∨ starts_with_letter d) (parts_init path)
    ∧ starts_with_letter (strip3 (parts_last path)).
Proof.
  unfold is_bad. rewrite orb_false_iff, bad_directory_false.
  rewrite negb_false_iff, re_match_good_modname. reflexivity.
Qed.

(** The steps of the loop. *)
Lemma importr_loop_skip (base : list string) (max_sec : Qc)
    (path : list string) (paths : list (list string))
    (failures : gmap string string) (total : nat) (w : Run Interp) :
  is_bad sep path = true →
  importr_loop Interp import_module format_sec sep base max_sec
    (path :: paths) failures total w
  = importr_loop Interp import_module format_sec sep base max_sec
      paths failures total (print_path_status Interp path SKIP "" w).
Proof. intros H. simpl. rewrite H. reflexivity. Qed.

Lemma importr_loop_ok (base : list string) (max_sec : Qc)
    (path : list string) (paths : list (list string))
    (failures : gmap string string) (total : nat) (w : Run Interp)
    (sec : Qc) (i : Interp) :
  is_bad sep path = false →
  import_module (module_name base path) (interp Interp w)
  = (Imported sec, i) →
  (sec <= max_sec)%Qc →
  importr_loop Interp import_module format_sec sep base max_sec
    (path :: paths) failures total w
  = importr_loop Interp import_module format_sec sep base max_sec
      paths failures (S total)
      (print_path_status Interp path OK ""
         {| interp := i; printed := printed Interp w |}).
Proof.
  intros H Himp Hle. cbn [importr_loop]. rewrite H, Himp.
  destruct (Qclt_le_dec max_sec sec) as [Hlt|_]; [|reflexivity].
  exfalso. exact (Qclt_not_le _ _ Hlt Hle).
Qed.

Lemma importr_loop_slow (base : list string) (max_sec : Qc)
    (path : list string) (paths : list (list string))
    (failures : gmap string string) (total : nat) (w : Run Interp)
    (sec : Qc) (i : Interp) :
  is_bad sep path = false →
  import_module (module_name base path) (interp Interp w)
  = (Imported sec, i) →
  (max_sec < sec)%Qc →
  ∃ e w',
    importr_loop Interp import_module format_sec sep base max_sec
      (path :: paths) failures total w
    = importr_loop Interp import_module format_sec sep base max_sec
        paths (<[module_name base path := e]> failures) (S total) w'.
Proof.
  intros H Himp Hlt. cbn [importr_loop]. rewrite H, Himp.
  destruct (Qclt_le_dec max_sec sec) as [_|Hle].
  - eexists _, _. reflexivity.
  - exfalso. exact (Qclt_not_le _ _ Hlt Hle).
Qed.

Lemma importr_loop_fail (base : list string) (max_sec : Qc)
    (path : list string) (paths : list (list string))
    (failures : gmap string string) (total : nat) (w : Run Interp)
    (e : string) (i : Interp) :
  is_bad sep path = false →
  import_module (module_name base path) (interp Interp w)
  = (ImportError e, i) →
  ∃ w',
    importr_loop Interp import_module format_sec sep base max_sec
      (path :: paths) failures total w
    = importr_loop Interp import_module format_sec sep base max_sec
        paths (<[module_name base path := e]> failures) (S total) w'.
Proof.
  intros H Himp. cbn [importr_loop]. rewrite H, Himp.
  eexists. reflexivity.
Qed.

(** A path that is visited is skipped, imported in time, or recorded as
    a failure. *)
Lemma importr_loop_step (base : list string) (max_sec : Qc)
    (path : list string) (paths : list (list string))
    (failures : gmap string string) (total : nat) (w : Run Interp) :
  (∀ n i e i', import_module n i ≠ (OtherError e, i')) →
  ∃ w',
    (is_bad sep path = true
     ∧ importr_loop Interp import_module format_sec sep base max_sec
         (path :: paths) failures total w
       = importr_loop Interp import_module format_sec sep base max_sec
           paths failures total w')
    ∨ (is_bad sep path = false
       ∧ (∃ sec i, import_module (module_name base path) (interp Interp w)
                   = (Imported sec, i) ∧ (sec <= max_sec)%Qc)
       ∧ importr_loop Interp import_module format_sec sep base max_sec
           (path :: paths) failures total w
         = importr_loop Interp import_module format_sec sep base max_sec
             paths failures (S total) w')
    ∨ (is_bad sep path = false
       ∧ ∃ e,
           importr_loop Interp import_module format_sec sep base max_sec
             (path :: paths) failures total w
           = importr_loop Interp import_module format_sec sep base max_sec
               paths (<[module_name base path := e]> failures) (S total)
               w').
Proof.
  intros Hno.
  destruct (is_bad sep path) eqn:Hbad.
  { eexists. left. split; [reflexivity|].
    apply importr_loop_skip. exact Hbad. }
  destruct (import_module (module_name base path) (interp Interp w))
    as [[sec|e|e] i] eqn:Himp.
  - destruct (Qclt_le_dec max_sec sec) as [Hlt|Hle].
    + destruct (importr_loop_slow base max_sec path paths failures total
                  w sec i Hbad Himp Hlt) as (e & w' & Hrun).
      exists w'. right. right. split; [reflexivity|]. exists e. exact Hrun.
    + eexists. right. left. split; [reflexivity|]. split.
      * exists sec, i. split; [reflexivity | exact Hle].
      * apply (importr_loop_ok base max_sec path paths failures total w
                 sec i Hbad Himp Hle).
  - destruct (importr_loop_fail base max_sec path paths failures total
                w e i Hbad Himp) as (w' & Hrun).
    exists w'. right. right. split; [reflexivity|]. exists e. exact Hrun.
  - exfalso. exact (Hno _ _ _ _ Himp).
Qed.

Lemma visited_cons_bad (path : list string) (paths : list (list string)) :
  is_bad sep path = true → visited sep (path :: paths) = visited sep paths.
Proof.
  intros H. unfold visited. rewrite filter_cons_False; [reflexivity|].
  rewrite H. discriminate.
Qed.

Lemma visited_cons_good (path : list string) (paths : list (list string)) :
  is_bad sep path = false → visited sep (path :: paths) = S (visited sep paths).
Proof.
  intros H. unfold visited. rewrite filter_cons_True by exact H. reflexivity.
Qed.

(** What the loop leaves when no import raises anything but
    [ImportError]. *)
Lemma importr_loop_inv (base : list string) (max_sec : Qc)
    (paths : list (list string)) :
  (∀ n i e i', import_module n i ≠ (OtherError e, i')) →
  ∀ (failures : gmap string string) (total : nat) (w : Run Interp),
  ∃ failures' w',
    importr_loop Interp import_module format_sec sep base max_sec
      paths failures total w
    = (Ok (failures', (total + visited sep paths)%nat), w')
    ∧ dom failures ⊆ dom failures'
    ∧ (∀ n, n ∈ dom failures' →
            n ∈ dom failures
            ∨ ∃ p, p ∈ paths ∧ is_bad sep p = false
                   ∧ n = module_name base p)
    ∧ (size failures' ≤ size failures + visited sep paths)%nat
    ∧ (∀ p, p ∈ paths → is_bad sep p = false →
            (∀ i sec i', import_module (module_name base p) i
                         = (Imported sec, i') → (max_sec < sec)%Qc) →
            module_name base p ∈ dom failures').
Proof.
  intros Hno. induction paths as [|path paths IH]; intros failures total w.
  - exists failures, w. cbn [importr_loop]. unfold visited. simpl.
    rewrite Nat.add_0_r. split; [reflexivity|]. split; [reflexivity|].
    split; [auto|]. split; [lia|].
    intros p Hin. apply elem_of_nil in Hin. contradiction.
  - destruct (importr_loop_step base max_sec path paths failures total w
                Hno) as (w1 & [(Hbad & Hrun)
                              | [(Hbad & (sec & i & Himp & Hle) & Hrun)
                                | (Hbad & e & Hrun)]]).
    + destruct (IH failures total w1)
        as (failures' & w' & Hrest & Hsub & Hdom & Hsize & Hfail).
      exists failures', w'. rewrite Hrun, Hrest, (visited_cons_bad _ _ Hbad).
      split; [reflexivity|]. split; [exact Hsub|]. split; [|split].
      * intros n Hn. destruct (Hdom n Hn) as [H|(p & Hp & Hg & Hname)];
          [left; exact H|].
        right. exists p. split; [right; exact Hp|]. auto.
      * exact Hsize.
      * intros p Hin Hg Hall. apply elem_of_cons in Hin as [->|Hin];
          [congruence|]. apply Hfail; assumption.
    + destruct (IH failures (S total) w1)
        as (failures' & w' & Hrest & Hsub & Hdom & Hsize & Hfail).
      exists failures', w'.
      rewrite Hrun, Hrest, (visited_cons_good _ _ Hbad).
      split; [rewrite Nat.add_succ_r; reflexivity|]. split; [exact Hsub|].
      split; [|split].
      * intros n Hn. destruct (Hdom n Hn) as [H|(p & Hp & Hg & Hname)];
          [left; exact H|].
        right. exists p. split; [right; exact Hp|]. auto.
      * lia.
      * intros p Hin Hg Hall. apply elem_of_cons in Hin as [->|Hin];
          [|apply Hfail; assumption].
        exfalso. pose proof (Hall _ _ _ Himp) as Hlt.
        exact (Qclt_not_le _ _ Hlt Hle).
    + destruct (IH (<[module_name base path := e]> failures) (S total) w1)
        as (failures' & w' & Hrest & Hsub & Hdom & Hsize & Hfail).
      exists failures', w'.
      rewrite Hrun, Hrest, (visited_cons_good _ _ Hbad).
      rewrite dom_insert in Hsub.
      split; [rewrite Nat.add_succ_r; reflexivity|]. split; [set_solver|].
      split; [|split].
      * intros n Hn. destruct (Hdom n Hn) as [H|(p & Hp & Hg & Hname)].
        -- rewrite dom_insert in H. apply elem_of_union in H as [H|H].
           ++ apply elem_of_singleton in H. right. exists path.
              split; [left|]. auto.
           ++ left. exact H.
        -- right. exists p. split; [right; exact Hp|]. auto.
      * pose proof (map_size_insert (module_name base path) e failures)
          as Hins.
        destruct (failures !! module_name base path); simpl in Hins; lia.
      * intros p Hin Hg Hall. apply elem_of_cons in Hin as [->|Hin];
          [|apply Hfail; assumption].
        apply Hsub. set_solver.
Qed.

(** X19.  Let no import raise anything but [ImportError].  Then [importr]
    returns; [total] is the number of the files that are not skipped,
    every key of [failures] is the module name of one of them, and there
    are at most [total] failures. *)
Theorem importr_counts (base : list string) (name : string)
    (files : list (list string)) (max_sec : Qc) (w : Run Interp) :
  (∀ n i e i', import_module n i ≠ (OtherError e, i')) →
  ∃ failures total w',
    importr Interp import_module format_sec sep base name files max_sec w
    = (Ok (failures, total), w')
    ∧ total = length (filter (fun p => is_bad sep p = false)
                        ((fun f => base ++ name :: f) <$> files))
    ∧ (∀ n, n ∈ dom failures →
            ∃ f, f ∈ files ∧ is_bad sep (base ++ name :: f) = false
                 ∧ n = module_name base (base ++ name :: f))
    ∧ (size failures ≤ total ≤ length files)%nat.
Proof.
  intros Hno. unfold importr.
  destruct (importr_loop_inv base max_sec
              ((fun f => base ++ name :: f) <$> files) Hno ∅ 0%nat w)
    as (failures & w' & Hrun & _ & Hdom & Hsize & _).
  exists failures, (visited sep ((fun f => base ++ name :: f) <$> files)), w'.
  split; [exact Hrun|]. split; [reflexivity|]. split; [|split].
  - intros n Hn. destruct (Hdom n Hn) as [H|(p & Hp & Hg & Hname)].
    + rewrite dom_empty in H. apply elem_of_empty in H. contradiction.
    + apply list_elem_of_fmap in Hp as (f & -> & Hf). exists f. auto.
  - rewrite map_size_empty in Hsize. exact Hsize.
  - unfold visited. rewrite <- (length_fmap (fun f => base ++ name :: f) files).
    apply length_filter.
Qed.

(** When every import is made in time, nothing is recorded. *)
Lemma importr_loop_all_ok (base : list string) (max_sec : Qc)
    (paths : list (list string)) :
  (∀ p, p ∈ paths → is_bad sep p = false →
        ∀ i, ∃ sec i', import_module (module_name base p) i
                       = (Imported sec, i') ∧ (sec <= max_sec)%Qc) →
  ∀ (failures : gmap string string) (total : nat) (w : Run Interp),
  ∃ w',
    importr_loop Interp import_module format_sec sep base max_sec
      paths failures total w
    = (Ok (failures, (total + visited sep paths)%nat), w').
Proof.
  induction paths as [|path paths IH]; intros Hall failures total w.
  - exists w. cbn [importr_loop]. unfold visited. simpl.
    rewrite Nat.add_0_r. reflexivity.
  - assert (Hrest : ∀ p, p ∈ paths → is_bad sep p = false →
              ∀ i, ∃ sec i', import_module (module_name base p) i
                             = (Imported sec, i') ∧ (sec <= max_sec)%Qc).
    { intros p Hp. apply Hall. right. exact Hp. }
    destruct (is_bad sep path) eqn:Hbad.
    + rewrite (importr_loop_skip base max_sec path paths failures total w
                 Hbad), (visited_cons_bad _ _ Hbad).
      apply IH. exact Hrest.
    + destruct (Hall path (list_elem_of_here _ _) Hbad (interp Interp w))
        as (sec & i & Himp & Hle).
      rewrite (importr_loop_ok base max_sec path paths failures total w
                 sec i Hbad Himp Hle), (visited_cons_good _ _ Hbad).
      destruct (IH Hrest failures (S total)
                  (print_path_status Interp path OK ""
                     {| interp := i; printed := printed Interp w |}))
        as (w' & Hrun).
      exists w'. rewrite Hrun, Nat.add_succ_r. reflexivity.
Qed.

(** X20.  [test_import] passes when every file that is not skipped imports
    within 10 seconds, whatever the state of the interpreter. *)
Theorem test_import_passes_when_imports_succeed (base : list string)
    (name : string) (files : list (list string)) (w : Run Interp) :
  (∀ f, f ∈ files → is_bad sep (base ++ name :: f) = false →
        ∀ i, ∃ sec i',
          import_module (module_name base (base ++ name :: f)) i
          = (Imported sec, i') ∧ (sec <= Q2Qc 10)%Qc) →
  (test_import Interp import_module format_sec sep base name files w).1
  = Passed.
Proof.
  intros Hall. unfold test_import, importr.
  destruct (importr_loop_all_ok base (Q2Qc 10)
              ((fun f => base ++ name :: f) <$> files)) with
    (failures := (∅ : gmap string string)) (total := 0%nat) (w := w)
    as (w' & Hrun).
  { intros p Hp Hg. apply list_elem_of_fmap in Hp as (f & -> & Hf).
    apply Hall; assumption. }
  rewrite Hrun. reflexivity.
Qed.

(** X21.  [test_import] fails its assertion when a file that is not skipped
    never imports in time: its import raises [ImportError] or takes more
    than 10 seconds, which is recorded as a failure although the module
    was imported.  No other kind of exception is raised by an import. *)
Theorem test_import_fails_when_a_module_fails (base : list string)
    (name : string) (files : list (list string)) (w : Run Interp)
    (f : list string) :
  (∀ n i e i', import_module n i ≠ (OtherError e, i')) →
  f ∈ files →
  is_bad sep (base ++ name :: f) = false →
  (∀ i sec i', import_module (module_name base (base ++ name :: f)) i
               = (Imported sec, i') → (Q2Qc 10 < sec)%Qc) →
  ∃ n total failures,
    (test_import Interp import_module format_sec sep base name files w).1
    = AssertionError n total failures
    ∧ (0 < n ≤ total)%nat
    ∧ n = size failures
    ∧ module_name base (base ++ name :: f) ∈ dom failures.
Proof.
  intros Hno Hf Hg Hall. unfold test_import, importr.
  destruct (importr_loop_inv base (Q2Qc 10)
              ((fun f => base ++ name :: f) <$> files) Hno ∅ 0%nat w)
    as (failures & w' & Hrun & _ & _ & Hsize & Hfail).
  rewrite Hrun. cbn [fst].
  assert (Hin : module_name base (base ++ name :: f) ∈ dom failures).
  { apply Hfail; [|exact Hg|exact Hall].
    apply list_elem_of_fmap. exists f. auto. }
  assert (Hpos : (0 < size failures)%nat).
  { destruct (decide (size failures = 0%nat)) as [H0|]; [|lia].
    apply map_size_empty_inv in H0. subst failures.
    rewrite dom_empty in Hin. apply elem_of_empty in Hin. contradiction. }
  rewrite map_size_empty in Hsize.
  rewrite decide_False by lia.
  eexists _, _, _. split; [reflexivity|]. split; [lia|]. auto.
Qed.

(** When every path is skipped, the loop only prints. *)
Lemma importr_loop_all_bad (base : list string) (max_sec : Qc)
    (paths : list (list string)) :
  (∀ p, p ∈ paths → is_bad sep p = true) →
  ∀ (failures : gmap string string) (total : nat) (w : Run Interp),
  importr_loop Interp import_module format_sec sep base max_sec
    paths failures total w
  = (Ok (failures, total),
     {| interp := interp Interp w;
        printed := printed Interp w
                   ++ ((fun p => {| line_path := p; line_status := SKIP;
                                    line_msg := "" |}) <$> paths) |}).
Proof.
  induction paths as [|path paths IH]; intros Hall failures total w.
  - cbn [importr_loop fmap list_fmap]. rewrite app_nil_r.
    destruct w; reflexivity.
  - rewrite importr_loop_skip by (apply Hall; left).
    rewrite IH by (intros p Hp; apply Hall; right; exact Hp).
    unfold print_path_status. cbn [interp printed fmap list_fmap].
    rewrite <- app_assoc. reflexivity.
Qed.

(** X22.  Where a directory name on the way to the package, or the name of the
    package, is not the path separator and does not start with a letter
    (as [.local] or [3rdparty]), [test_import] imports nothing and
    passes: every file is skipped, whatever importing it would do. *)
Theorem test_import_vacuous_under_bad_directory (base : list string)
    (name : string) (files : list (list string)) (w : Run Interp)
    (d : string) :
  d ∈ base ++ [name] → d ≠ sep → ¬ starts_with_letter d →
  [] ∉ files →
  test_import Interp import_module format_sec sep base name files w
  = (Passed,
     {| interp := interp Interp w;
        printed := printed Interp w
                   ++ ((fun f => {| line_path := base ++ name :: f;
                                    line_status := SKIP;
                                    line_msg := "" |}) <$> files) |}).
Proof.
  intros Hd Hne Hnot Hfiles. unfold test_import, importr.
  rewrite importr_loop_all_bad.
  - rewrite <- list_fmap_compose. reflexivity.
  - intros p Hp. apply list_elem_of_fmap in Hp as (f & -> & Hf).
    unfold is_bad. apply orb_true_iff. left.
    apply (bad_directory_elem _ d); [|exact Hne|exact Hnot].
    rewrite parts_init_app by (intros ->; contradiction).
    apply elem_of_app in Hd as [Hd|Hd].
    + apply elem_of_app. left. exact Hd.
    + apply list_elem_of_singleton in Hd as ->.
      apply elem_of_app. right. left.
Qed.
End ImportrFacts.

(** The files of the sample package: [__init__.py] and the notebook
    checkpoint are skipped, [ver.py] and [core/unit.py] are imported. *)
Example importr_skips_private_and_hidden :
  is_bad "/" (Examples.base ++ ["idaes"; "__init__.py"]) = true
  ∧ is_bad "/" (Examples.base
                ++ ["idaes"; "core"; ".ipynb_checkpoints";
                    "unit-checkpoint.py"]) = true
  ∧ is_bad "/" (Examples.base ++ ["idaes"; "core"; "unit.py"]) = false
  ∧ is_bad "/" (Examples.base ++ ["idaes"; "core"; "unit-checkpoint.py"])
    = false
  ∧ module_name Examples.base (Examples.base ++ ["idaes"; "core"; "unit.py"])
    = "idaes.core.unit".
Proof. repeat split; vm_compute; reflexivity. Qed.

Lemma sample_import_no_other (n : string) (i : nat) (e : exn) (i' : nat) :
  Examples.import_module n i ≠ (OtherError e, i').
Proof.
  unfold Examples.import_module. intros H. injection H as H _.
  destruct (decide (n = "idaes.core.broken")); [discriminate H|].
  destruct (decide (n = "idaes.core.slow")); discriminate H.
Defined.

Lemma importr_counts_witness :
  ∃ failures total w',
    importr nat Examples.import_module Examples.format_sec "/"
      Examples.base "idaes" Examples.files_broken (Q2Qc 10) Examples.start
    = (Ok (failures, total), w')
    ∧ (size failures ≤ total ≤ 5)%nat.
Proof.
  destruct (importr_counts nat Examples.import_module Examples.format_sec
              "/" Examples.base "idaes" Examples.files_broken (Q2Qc 10)
              Examples.start sample_import_no_other)
    as (failures & total & w' & Hrun & _ & _ & Hsize).
  exists failures, total, w'. split; [exact Hrun | exact Hsize].
Defined.

Lemma test_import_passes_when_imports_succeed_witness :
  (test_import nat Examples.import_module Examples.format_sec "/"
     Examples.base "idaes" Examples.files Examples.start).1 = Passed.
Proof.
  apply (test_import_passes_when_imports_succeed nat Examples.import_module
           Examples.format_sec "/" Examples.base "idaes" Examples.files
           Examples.start).
  intros f Hf Hg i. unfold Examples.files in Hf.
  repeat (apply elem_of_cons in Hf as [->|Hf];
          [first [ vm_compute in Hg; discriminate Hg
                 | exists 1%Qc, (S i); split;
                   [reflexivity | vm_compute; discriminate] ]
          |]).
  apply elem_of_nil in Hf. contradiction.
Defined.

Lemma test_import_fails_when_a_module_fails_witness :
  ∃ n total failures,
    (test_import nat Examples.import_module Examples.format_sec "/"
       Examples.base "idaes" Examples.files_broken Examples.start).1
    = AssertionError n total failures
    ∧ "idaes.core.broken" ∈ dom failures.
Proof.
  destruct (test_import_fails_when_a_module_fails nat Examples.import_module
              Examples.format_sec "/" Examples.base "idaes"
              Examples.files_broken Examples.start ["core"; "broken.py"]
              sample_import_no_other)
    as (n & total & failures & Hrun & _ & _ & Hin).
  - unfold Examples.files_broken. apply elem_of_app. right. left.
  - reflexivity.
  - intros i sec i' H. discriminate H.
  - exists n, total, failures. split; [exact Hrun | exact Hin].
Defined.

Lemma test_import_vacuous_under_bad_directory_witness :
  (test_import nat Examples.import_module Examples.format_sec "/"
     Examples.hidden_base "idaes" Examples.files_broken Examples.start).1
  = Passed.
Proof.
  rewrite (test_import_vacuous_under_bad_directory nat
             Examples.import_module Examples.format_sec "/"
             Examples.hidden_base "idaes" Examples.files_broken
             Examples.start ".local").
  - reflexivity.
  - simpl. do 3 right. left.
  - discriminate.
  - intros (c & s' & H & Hl). injection H as <- <-.
    vm_compute in Hl. discriminate Hl.
  - intros H. unfold Examples.files_broken, Examples.files in H. simpl in H.
    repeat (apply elem_of_cons in H as [H|H]; [discriminate H|]).
    apply elem_of_nil in H. exact H.
Defined.
End TestImportSpec.
